(** * cmdClient: checks, flag parsing, command lifecycle and edit tracking

    A shallow embedding of the command-dispatch core of cmdClient
    (Check.py, lib.py, Command.py, Context.py, Module.py, cmdClient.py,
    logger.py, checks/global_perms.py) and the properties of its
    specification, each stated over the embedded code, followed by
    further properties of the code. *)

From Stdlib Require Import ZArith NArith Lia List Bool Ascii String DecimalString.
From stdpp Require Import base option list gmap.
Import ListNotations.

Set Default Proof Using "Type".
Set Warnings "-register-all".

(** ** Python strings

    A Python [str] is a sequence of Unicode code points; [lib.flag_parser]
    looks for the one-code-point em dash U+2014, so strings are lists of
    code points rather than bytes. *)

Module PyStr.

Definition str := list N.

(** An ASCII literal as a [str]. *)
Definition py (s : string) : str :=
  map N_of_ascii (list_ascii_of_string s).

Definition eqb (a b : str) : bool := bool_decide (a = b).

(** [str.isspace] on one code point, which is also what the regular
    expression classes [\s] and [\S] of a [str] pattern test. *)
Definition isspace (c : N) : bool :=
  ((9 <=? c) && (c <=? 13) || (28 <=? c) && (c <=? 32)
   || (c =? 133) || (c =? 160) || (c =? 5760)
   || (8192 <=? c) && (c <=? 8202)
   || (c =? 8232) || (c =? 8233) || (c =? 8239) || (c =? 8287)
   || (c =? 12288))%N.

(** [s.lstrip()], [s.rstrip()], [s.strip()]. *)
Fixpoint lstrip (s : str) : str :=
  match s with
  | c :: s' => if isspace c then lstrip s' else s
  | [] => []
  end.

Definition rstrip (s : str) : str := rev (lstrip (rev s)).

Definition strip (s : str) : str := rstrip (lstrip s).

(** [s.strip(chars)] for a one-character [chars]. *)
Fixpoint lstrip_char (x : N) (s : str) : str :=
  match s with
  | c :: s' => if (c =? x)%N then lstrip_char x s' else s
  | [] => []
  end.

Definition strip_char (x : N) (s : str) : str :=
  rev (lstrip_char x (rev (lstrip_char x s))).

(** [''.join(parts)]. *)
Definition join (parts : list str) : str := concat parts.

(** [s.startswith(p)] and [s.endswith(p)]. *)
Fixpoint startswith (s p : str) : bool :=
  match p, s with
  | [], _ => true
  | x :: p', c :: s' => (c =? x)%N && startswith s' p'
  | _ :: _, [] => false
  end.

Definition endswith (s p : str) : bool := startswith (rev s) (rev p).

(** [re.split(r'(\S+)', s)]: the text between the matches and the
    matches themselves, alternating, starting and ending with a
    (possibly empty) run of whitespace.  [acc] holds the current run
    reversed; [in_word] tells whether it is a run of non-space. *)
Fixpoint split_words_from (s : str) (in_word : bool) (acc : str) : list str :=
  match s with
  | [] => if in_word then [rev acc; []] else [rev acc]
  | c :: s' =>
      if isspace c then
        if in_word then rev acc :: split_words_from s' false [c]
        else split_words_from s' false (c :: acc)
      else
        if in_word then split_words_from s' true (c :: acc)
        else rev acc :: split_words_from s' true [c]
  end.

Definition split_words (s : str) : list str := split_words_from s false [].

(** [x in l] and [l.index(x)] for a list of strings. *)
Definition contains (l : list str) (x : str) : bool :=
  existsb (eqb x) l.

Fixpoint index (l : list str) (x : str) : option nat :=
  match l with
  | [] => None
  | y :: l' => if eqb y x then Some 0 else S <$> index l' x
  end.

(** [l[a:b]] for non-negative [a], [b]. *)
Definition slice {A} (a b : nat) (l : list A) : list A :=
  drop a (take b l).

(** Comparison of two strings, as Python orders them: code point by
    code point, a proper prefix first. *)
Fixpoint compare (a b : str) : comparison :=
  match a, b with
  | [], [] => Eq
  | [], _ :: _ => Lt
  | _ :: _, [] => Gt
  | x :: a', y :: b' =>
      match (x ?= y)%N with
      | Eq => compare a' b'
      | o => o
      end
  end.

Definition leb (a b : str) : bool :=
  match compare a b with Gt => false | _ => true end.

End PyStr.

Import PyStr.

(** ** Effects

    The coroutines of the program are modelled as state-passing steps.
    A step ends by returning, by raising, or it is still suspended at an
    [await] when the observed part of the run is over ([Pending]). *)

Module Eff.

Inductive outcome (E A : Type) : Type :=
| Ret (a : A)
| Raise (e : E)
| Pending.
Arguments Ret {E A} a.
Arguments Raise {E A} e.
Arguments Pending {E A}.

Definition M (S E A : Type) : Type := S -> outcome E A * S.

Section Ops.
Context {S E : Type}.

Definition ret {A} (a : A) : M S E A := fun s => (Ret a, s).

Definition raise {A} (e : E) : M S E A := fun s => (Raise e, s).

Definition bind {A B} (m : M S E A) (k : A -> M S E B) : M S E B :=
  fun s =>
    match m s with
    | (Ret a, s') => k a s'
    | (Raise e, s') => (Raise e, s')
    | (Pending, s') => (Pending, s')
    end.

(** [try: m except <caught>: h e]; an exception that [caught] rejects
    passes through. *)
Definition try_except {A} (m : M S E A) (caught : E -> bool)
    (h : E -> M S E A) : M S E A :=
  fun s =>
    match m s with
    | (Raise e, s') => if caught e then h e s' else (Raise e, s')
    | r => r
    end.

(** [try: m finally: f]: [f] runs when [m] returns or raises, and the
    outcome of [m] is kept unless [f] itself does not return. *)
Definition try_finally {A} (m : M S E A) (f : M S E unit) : M S E A :=
  fun s =>
    match m s with
    | (Pending, s') => (Pending, s')
    | (r, s') =>
        match f s' with
        | (Ret _, s'') => (r, s'')
        | (Raise e, s'') => (Raise e, s'')
        | (Pending, s'') => (Pending, s'')
        end
    end.

(** [for x in l: body x]. *)
Fixpoint for_each {A} (l : list A) (body : A -> M S E unit) : M S E unit :=
  match l with
  | [] => ret tt
  | x :: l' => bind (body x) (fun _ => for_each l' body)
  end.
End Ops.

Declare Scope eff_scope.
Delimit Scope eff_scope with eff.
Notation "'let*' x ':=' m 'in' k" := (bind m (fun x => k))
  (at level 10, x name, m at level 100, k at level 200) : eff_scope.

End Eff.

Import Eff.
Local Open Scope eff_scope.

(** ** Check.py *)

Module CheckEngine.

(** A check.  [check_func] is a callable of the application; how it runs
    is given by [call] below. *)
Inductive Check (Pred : Type) : Type :=
  MkCheck {
    name : str;
    msg : option str;
    check_func : Pred;
    parents : list (Check Pred);
    required : list (Check Pred)
  }.
Arguments MkCheck {Pred}.
Arguments name {Pred}.
Arguments msg {Pred}.
Arguments check_func {Pred}.
Arguments parents {Pred}.
Arguments required {Pred}.

Section Run.
Context {St Exn Ctx Pred : Type}.

(** [await check_func(ctx, *args, **kwargs)]; the extra arguments are
    passed along unchanged and are part of [Ctx]. *)
Variable call : Pred -> Ctx -> M St Exn bool.

(** [Check.run]. *)
Fixpoint run (c : Check Pred) (ctx : Ctx) {struct c} : M St Exn bool :=
  match c with
  | MkCheck _ _ f ps rs =>
      let fix any_parent (l : list (Check Pred)) : M St Exn bool :=
        match l with
        | [] => ret false
        | p :: l' =>
            let* passed := run p ctx in
            if passed then ret true else any_parent l'
        end in
      let fix all_required (l : list (Check Pred)) : M St Exn bool :=
        match l with
        | [] => ret true
        | r :: l' =>
            let* passed := run r ctx in
            if passed then all_required l' else ret false
        end in
      let* superseded := any_parent ps in
      if superseded then ret true
      else
        let* satisfied := all_required rs in
        if satisfied then call f ctx else ret false
  end.

(** The two loops of [run], on their own. *)
Fixpoint run_parents (l : list (Check Pred)) (ctx : Ctx) : M St Exn bool :=
  match l with
  | [] => ret false
  | p :: l' =>
      let* passed := run p ctx in
      if passed then ret true else run_parents l' ctx
  end.

Fixpoint run_required (l : list (Check Pred)) (ctx : Ctx) : M St Exn bool :=
  match l with
  | [] => ret true
  | r :: l' =>
      let* passed := run r ctx in
      if passed then run_required l' ctx else ret false
  end.

(** Every check of [l], run in order from state [s], returns [b], and
    the last one leaves state [s']. *)
Inductive each_returns (ctx : Ctx) (b : bool) :
    list (Check Pred) -> St -> St -> Prop :=
| each_nil s : each_returns ctx b [] s s
| each_cons c l s s1 s2 :
    run c ctx s = (Ret b, s1) ->
    each_returns ctx b l s1 s2 ->
    each_returns ctx b (c :: l) s s2.

End Run.

End CheckEngine.

(** ** lib.py: the flag parser *)

Module FlagParser.

(** A value of the flags dictionary: [False], [True] or a string. *)
Inductive FlagValue : Type :=
| FlagBool (b : bool)
| FlagStr (s : str).

Definition dash : N := 45.       (* '-' *)
Definition em_dash : N := 8212.  (* U+2014 *)
Definition equals : N := 61.     (* '=' *)

Definition terminator : str := [dash; dash].

(** [flag.strip("=")]. *)
Definition clean_flag (flag : str) : str := strip_char equals flag.

(** The three spellings of a flag in the input. *)
Definition short_form (flag : str) : str := dash :: clean_flag flag.
Definition long_form (flag : str) : str := dash :: dash :: clean_flag flag.
Definition em_form (flag : str) : str := em_dash :: clean_flag flag.

(** The cut at the flag terminator: the parameters before the first
    ["--"] and the ones after it. *)
Definition split_terminator (params : list str) : list str * list str :=
  if contains params terminator then
    match index params terminator with
    | Some i =>
        (take i params,
         if i <? length params - 1 then drop (i + 1) params else [])
    | None => (params, [])
    end
  else (params, []).

(** The [if]/[elif] chain that finds the index of one flag. *)
Definition flag_index (params : list str) (flag : str) : option nat :=
  if contains params (short_form flag) then index params (short_form flag)
  else if contains params (long_form flag) then index params (long_form flag)
  else if contains params (em_form flag) then index params (em_form flag)
  else None.


(** The first loop: absent flags are recorded as [False], found ones
    are collected with their index. *)
Fixpoint find_flags (params : list str) (flags : list str)
    (final_flags : gmap str FlagValue) (indices : list (nat * str))
    : gmap str FlagValue * list (nat * str) :=
  match flags with
  | [] => (final_flags, indices)
  | flag :: flags' =>
      match flag_index params flag with
      | Some i => find_flags params flags' final_flags (indices ++ [(i, flag)])
      | None =>
          find_flags params flags'
            (<[clean_flag flag := FlagBool false]> final_flags) indices
      end
  end.

(** [sorted(indices)]: tuples are ordered by index, then by flag. *)
Definition pair_leb (a b : nat * str) : bool :=
  (a.1 <? b.1) || ((a.1 =? b.1) && leb a.2 b.2).

Fixpoint insert_sorted (a : nat * str) (l : list (nat * str)) : list (nat * str) :=
  match l with
  | [] => [a]
  | b :: l' => if pair_leb a b then a :: l else b :: insert_sorted a l'
  end.

Definition sorted (l : list (nat * str)) : list (nat * str) :=
  foldr insert_sorted [] l.

(** [next(((j, arg) for j, arg in enumerate(flag_params) if arg.strip()),
    (len(flag_params), None))]. *)
Fixpoint first_word (flag_params : list str) : nat * option str :=
  match flag_params with
  | [] => (0, None)
  | arg :: rest =>
      match strip arg with
      | [] => let '(j, found) := first_word rest in (S j, found)
      | _ :: _ => (0, Some arg)
      end
  end.

(** The parameters between a flag and the next one, or the end. *)
Definition flag_span (params : list str) (index : nat)
    (rest : list (nat * str)) : list str :=
  if index + 1 <? length params then
    match rest with
    | (next, _) :: _ => slice (index + 1) next params
    | [] => drop (index + 1) params
    end
  else [].

(** The second loop, over the sorted [indices]. *)
Fixpoint build (params : list str) (indices : list (nat * str))
    (final_params : list str) (final_flags : gmap str FlagValue)
    : list str * gmap str FlagValue :=
  match indices with
  | [] => (final_params, final_flags)
  | (index, flag) :: rest =>
      let flag_params := flag_span params index rest in
      let '(flag_arg, final_params) :=
        if endswith flag [equals; equals] then
          (FlagStr (strip (join flag_params)), final_params)
        else if endswith flag [equals] then
          let '(j, arg) := first_word flag_params in
          (FlagStr (default [] arg),
           if j + 1 <? length flag_params
           then final_params ++ [rstrip (join (drop (j + 1) flag_params))]
           else final_params)
        else
          (FlagBool true, final_params ++ [rstrip (join flag_params)]) in
      build params rest final_params
        (<[clean_flag flag := flag_arg]> final_flags)
  end.

(** [flag_parser(args, flags)]. *)
Definition flag_parser (args : str) (flags : list str)
    : gmap str FlagValue * str :=
  let '(params, end_params) := split_terminator (split_words args) in
  let '(final_flags, indices) := find_flags params flags ∅ [] in
  let indices := sorted indices in
  let final_params :=
    match indices with
    | (first, _) :: _ => take first params
    | [] => params
    end in
  let '(final_params, final_flags) :=
    build params indices final_params final_flags in
  (final_flags, strip (join (final_params ++ end_params))).

End FlagParser.

(** ** The bounded snapshot cache *)

Module LRU.

(** Modelled from the spec: the cache class ([cachetools.LRUCache]) is
    imported by cmdClient.py and is not part of the repository.  The
    capacity is fixed at construction, inserting a new entry past the
    capacity evicts the least recently used entry, and a lookup promotes
    the entry it finds.  [entries] is kept least recently used first. *)
Record LRUCache (V : Type) : Type :=
  MkLRU { maxsize : nat; entries : list (Z * V) }.
Arguments MkLRU {V}.
Arguments maxsize {V}.
Arguments entries {V}.

Section Ops.
Context {V : Type}.

(** Modelled from the spec: a new cache of the given capacity. *)
Definition empty (capacity : nat) : LRUCache V := MkLRU capacity [].

(** The value listed under [k]. *)
Fixpoint assoc (l : list (Z * V)) (k : Z) : option V :=
  match l with
  | [] => None
  | (k', v) :: l' => if (k' =? k)%Z then Some v else assoc l' k
  end.

(** The entries other than the one of [k]. *)
Definition without (l : list (Z * V)) (k : Z) : list (Z * V) :=
  List.filter (fun e => negb (e.1 =? k)%Z) l.

(** Modelled from the spec: the value stored under [k], if any,
    leaving the order alone (what [k in cache] looks at). *)
Definition peek (c : LRUCache V) (k : Z) : option V := assoc (entries c) k.

(** Modelled from the spec: [k in cache], which promotes nothing. *)
Definition contains (c : LRUCache V) (k : Z) : bool :=
  match peek c k with
  | Some _ => true
  | None => false
  end.

(** Modelled from the spec: [cache[k]], a lookup that promotes [k]. *)
Definition getitem (c : LRUCache V) (k : Z) : option (V * LRUCache V) :=
  match peek c k with
  | Some v => Some (v, MkLRU (maxsize c) (without (entries c) k ++ [(k, v)]))
  | None => None
  end.

(** Modelled from the spec: [cache[k] = v].  A key already present
    gets the new value and becomes the most recent; a new key first
    evicts least recently used entries until there is room. *)
Definition setitem (c : LRUCache V) (k : Z) (v : V) : LRUCache V :=
  match peek c k with
  | Some _ => MkLRU (maxsize c) (without (entries c) k ++ [(k, v)])
  | None =>
      MkLRU (maxsize c)
        (drop (length (entries c) + 1 - maxsize c) (entries c) ++ [(k, v)])
  end.
End Ops.

End LRU.

(** ** Command.py, Context.py, Module.py, cmdClient.py *)

Module Client.

Import CheckEngine FlagParser.

(** A function object of the application (a check function, a command
    function, a message parser, a prefix function). *)
Definition Callable := nat.

(** The extra arguments given to a check decorator. *)
Definition Args := list str.

(** [discord.Message], as far as the client reads it. *)
Module Msg.
Record t : Type :=
  Mk { id : Z; content : str; channel : Z; guild : option Z; author : Z }.
End Msg.
Abbreviation Message := Msg.t.

(** [FlatContext]. *)
Module Flat.
Record t : Type :=
  Mk {
    mid : option Z;
    cid : option Z;
    gid : option Z;
    uid : option Z;
    arg_str : option str;
    cmd : option str;
    alias : option str;
    prefix : option str;
    cleanup_on_edit : bool;
    reparse_on_edit : bool;
    sent_messages : list Z
  }.
End Flat.
Abbreviation FlatContext := Flat.t.

(** A command function, possibly under check decorators
    ([Check.__call__]). *)
Inductive Func : Type :=
| Plain (f : Callable)
| Checked (c : Check Callable) (args : Args) (f : Func).

(** [Command]; [module] is the position of its module in the client's
    module list. *)
Module Cmd.
Record t : Type :=
  Mk {
    name : str;
    func : Func;
    module : nat;
    handle_edits : bool;
    aliases : list str;
    flags : list str;
    hidden : bool;
    short_help : option str
  }.
End Cmd.
Abbreviation Command := Cmd.t.

(** [Module]. *)
Module Mod.
Record t : Type :=
  Mk { name : str; cmds : list Command; ready : bool; enabled : bool }.
End Mod.

(** [Context]; [tasks] holds the identities of its asyncio tasks. *)
Module Ctx.
Record t : Type :=
  Mk {
    msg : option Message;
    ch : option Z;
    guild : option Z;
    author : option Z;
    args : option str;
    arg_str : option str;
    cmd : option Command;
    alias : option str;
    prefix : option str;
    sent_messages : list Message;
    cleanup_on_edit : bool;
    reparse_on_edit : bool;
    tasks : list nat
  }.

(** [Context.flatten]. *)
Definition flatten (ctx : t) : FlatContext :=
  Flat.Mk (Msg.id <$> msg ctx) (ch ctx) (guild ctx) (author ctx)
    (arg_str ctx) (Cmd.name <$> cmd ctx) (alias ctx) (prefix ctx)
    (cleanup_on_edit ctx) (reparse_on_edit ctx)
    (Msg.id <$> sent_messages ctx).

(** [Context.__init__] as [run_cmd] calls it: with a message. *)
Definition init (message : Message) (arg : str) (cmdname : str)
    (c : Command) (pfx : str) : t :=
  Mk (Some message) (Some (Msg.channel message)) (Msg.guild message)
    (Some (Msg.author message)) (Some arg) (Some arg) (Some c)
    (Some cmdname) (Some pfx) [] (Cmd.handle_edits c) (Cmd.handle_edits c) [].

(** A context with nothing set, for a reference that holds none. *)
Definition blank : t :=
  Mk None None None None None None None None None [] true true [].
End Ctx.
Abbreviation Context := Ctx.t.

(** Exceptions.  [CancelledError] is the only one here that is not an
    [Exception]. *)
Inductive exn : Type :=
| FailedCheck (check : Check Callable)
| SafeCancellation (cls : str) (msg details : option str)
| TimeoutError
| CancelledError
| NotFound
| Forbidden
| HTTPException
| PyError (cls : str).

Definition is_Exception (e : exn) : bool :=
  match e with CancelledError => false | _ => true end.

Definition is_Forbidden (e : exn) : bool :=
  match e with Forbidden => true | _ => false end.

Definition is_NotFound (e : exn) : bool :=
  match e with NotFound => true | _ => false end.

(** [SafeCancellation.__init__], for a class with the given
    [default_msg]. *)
Definition or_else (a b : option str) : option str :=
  match a with
  | Some (_ :: _) => a
  | _ => b
  end.

Definition SafeCancellation_init (cls : str) (default_msg msg details : option str)
    : exn :=
  let m := or_else msg default_msg in
  SafeCancellation cls m (or_else details m).

(** Logging.  A [LogRecord] is one call of [log] of logger.py: its
    level, its context and which message it was given.  What is
    written for a call is up to the handler in force, which
    [cmd_log_handler] can replace; the default one, [logger._log],
    writes one record per line of the message (see [Logger._log] and
    [LogOutput.written_for] below). *)
Inductive Level : Type := DEBUG | INFO | WARNING | ERROR.

Inductive LogContext : Type :=
| Global
| MidContext (mid : Z).

Inductive LogText : Type :=
| ExecutingCommand (cmdname module_name : str) (message : Message)
| SkippingDisabledModule
| RunCmdException (cmdname : str) (e : exn)
| CommandFailedCheck (check_name : str)
| SafeCancellationCaught (cls : str) (details : option str)
| UnhandledTimeout
| CommandCancelled
| CommandException (e : exn)
| CommandCompleted
| WaitingForModule (module_name : str)
| ParserException (e : exn)
| NoPrefixSet.

Record LogRecord : Type :=
  MkLog { level : Level; context : LogContext; text : LogText }.

(** What is sent to a channel. *)
Inductive Payload : Type :=
| Content (content : option str)
| Embed (description : str).

(** Coroutines handed to [asyncio.ensure_future]. *)
Inductive Coroutine : Type :=
| ExecWrapper (c : Command) (ctx : nat)
| ActiveCleaner (ctx : nat)
| FlatCleaner (flatctx : FlatContext)
| DeleteMessage (message : Z)
| MessageParser (parser : Callable) (message : Message).

(** Requests made to the platform library and to the event loop. *)
Inductive Call : Type :=
| Send (channel : Z) (payload : Payload)
| FetchMessage (channel : Z) (message : Z)
| Delete (message : Z)
| BulkDelete (channel : Z) (messages : list Z)
| Cancel (task : nat)
| EnsureFuture (task : nat) (c : Coroutine)
| Close.

(** The client object together with the objects it refers to.
    [contexts] is the store of the live [Context] objects, which are
    shared by reference; [calls] collects what was requested and
    [log_records] the calls of [log] of logger.py, in order. *)
Record World : Type :=
  MkWorld {
    prefix : option str;
    valid_prefixes_func : option Callable;
    modules : list Mod.t;
    cmd_names : list (str * Command);
    ctx_cache : LRU.LRUCache FlatContext;
    active_contexts : gmap Z nat;
    extra_message_parsers : list (Callable * Z);
    contexts : gmap nat Context;
    next_context : nat;
    next_task : nat;
    calls : list Call;
    log_records : list LogRecord
  }.

(** A coroutine runs in a world, and whenever it sleeps the rest of the
    program moves the world on; [schedule] lists what the rest does
    during its successive sleeps, as far as the run is observed. *)
Record State : Type :=
  MkState { world : World; schedule : list (World -> World) }.

Abbreviation Co := (M State exn).

(** *** Updates of the world *)

Definition set_cmd_names (v : list (str * Command)) (w : World) : World :=
  MkWorld (prefix w) (valid_prefixes_func w) (modules w) v (ctx_cache w)
    (active_contexts w) (extra_message_parsers w) (contexts w)
    (next_context w) (next_task w) (calls w) (log_records w).

Definition set_ctx_cache (v : LRU.LRUCache FlatContext) (w : World) : World :=
  MkWorld (prefix w) (valid_prefixes_func w) (modules w) (cmd_names w) v
    (active_contexts w) (extra_message_parsers w) (contexts w)
    (next_context w) (next_task w) (calls w) (log_records w).

Definition set_active_contexts (v : gmap Z nat) (w : World) : World :=
  MkWorld (prefix w) (valid_prefixes_func w) (modules w) (cmd_names w)
    (ctx_cache w) v (extra_message_parsers w) (contexts w)
    (next_context w) (next_task w) (calls w) (log_records w).

Definition set_contexts (v : gmap nat Context) (w : World) : World :=
  MkWorld (prefix w) (valid_prefixes_func w) (modules w) (cmd_names w)
    (ctx_cache w) (active_contexts w) (extra_message_parsers w) v
    (next_context w) (next_task w) (calls w) (log_records w).

Definition set_next_context (v : nat) (w : World) : World :=
  MkWorld (prefix w) (valid_prefixes_func w) (modules w) (cmd_names w)
    (ctx_cache w) (active_contexts w) (extra_message_parsers w) (contexts w)
    v (next_task w) (calls w) (log_records w).

Definition set_next_task (v : nat) (w : World) : World :=
  MkWorld (prefix w) (valid_prefixes_func w) (modules w) (cmd_names w)
    (ctx_cache w) (active_contexts w) (extra_message_parsers w) (contexts w)
    (next_context w) v (calls w) (log_records w).

Definition set_calls (v : list Call) (w : World) : World :=
  MkWorld (prefix w) (valid_prefixes_func w) (modules w) (cmd_names w)
    (ctx_cache w) (active_contexts w) (extra_message_parsers w) (contexts w)
    (next_context w) (next_task w) v (log_records w).

Definition set_log_records (v : list LogRecord) (w : World) : World :=
  MkWorld (prefix w) (valid_prefixes_func w) (modules w) (cmd_names w)
    (ctx_cache w) (active_contexts w) (extra_message_parsers w) (contexts w)
    (next_context w) (next_task w) (calls w) v.

(** *** Steps of a coroutine *)

Definition get_world : Co World := fun s => (Ret (world s), s).

Definition modify_world (f : World -> World) : Co unit :=
  fun s => (Ret tt, MkState (f (world s)) (schedule s)).

(** [log] of logger.py: the call is noted, one entry per call,
    whatever the number of lines of its message. *)
Definition log (lvl : Level) (c : LogContext) (t : LogText) : Co unit :=
  modify_world (fun w => set_log_records (log_records w ++ [MkLog lvl c t]) w).

(** A request to the platform library or the event loop is noted. *)
Definition request (c : Call) : Co unit :=
  modify_world (fun w => set_calls (calls w ++ [c]) w).

(** [while cond: await asyncio.sleep(dt)]: each sleep lets the rest of
    the program take its next step. *)
Fixpoint wait_while (cond : World -> bool) (sched : list (World -> World))
    (w : World) : outcome exn unit * State :=
  if cond w then
    match sched with
    | [] => (Pending, MkState w [])
    | step :: rest => wait_while cond rest (step w)
    end
  else (Ret tt, MkState w sched).

Definition sleep_while (cond : World -> bool) : Co unit :=
  fun s => wait_while cond (schedule s) (world s).

(** [asyncio.ensure_future(coro)]: the coroutine becomes a task that
    the event loop runs later. *)
Definition ensure_future (c : Coroutine) : Co nat :=
  let* w := get_world in
  let task := next_task w in
  let* _ := modify_world (set_next_task (S task)) in
  let* _ := request (EnsureFuture task c) in
  ret task.

(** *** The live contexts *)

Definition ctx_at (w : World) (r : nat) : Context :=
  default Ctx.blank (contexts w !! r).

Definition update_ctx (r : nat) (f : Context -> Context) : Co unit :=
  modify_world (fun w => set_contexts (alter f r (contexts w)) w).

Definition new_context (ctx : Context) : Co nat :=
  let* w := get_world in
  let r := next_context w in
  let* _ := modify_world (fun w =>
    set_next_context (S r) (set_contexts (<[r := ctx]> (contexts w)) w)) in
  ret r.

Definition add_sent_message (m : Message) (ctx : Context) : Context :=
  Ctx.Mk (Ctx.msg ctx) (Ctx.ch ctx) (Ctx.guild ctx) (Ctx.author ctx)
    (Ctx.args ctx) (Ctx.arg_str ctx) (Ctx.cmd ctx) (Ctx.alias ctx)
    (Ctx.prefix ctx) (Ctx.sent_messages ctx ++ [m])
    (Ctx.cleanup_on_edit ctx) (Ctx.reparse_on_edit ctx) (Ctx.tasks ctx).

Definition add_task (t : nat) (ctx : Context) : Context :=
  Ctx.Mk (Ctx.msg ctx) (Ctx.ch ctx) (Ctx.guild ctx) (Ctx.author ctx)
    (Ctx.args ctx) (Ctx.arg_str ctx) (Ctx.cmd ctx) (Ctx.alias ctx)
    (Ctx.prefix ctx) (Ctx.sent_messages ctx)
    (Ctx.cleanup_on_edit ctx) (Ctx.reparse_on_edit ctx) (Ctx.tasks ctx ++ [t]).

Definition set_args (a : option str) (ctx : Context) : Context :=
  Ctx.Mk (Ctx.msg ctx) (Ctx.ch ctx) (Ctx.guild ctx) (Ctx.author ctx)
    a (Ctx.arg_str ctx) (Ctx.cmd ctx) (Ctx.alias ctx)
    (Ctx.prefix ctx) (Ctx.sent_messages ctx)
    (Ctx.cleanup_on_edit ctx) (Ctx.reparse_on_edit ctx) (Ctx.tasks ctx).

(** [f"mid:{ctx.msg.id}"]: the log context of a command; a context
    without a message has no [id] to read. *)
Definition mid_context (r : nat) : Co LogContext :=
  let* w := get_world in
  match Ctx.msg (ctx_at w r) with
  | Some m => ret (MidContext (Msg.id m))
  | None => raise (PyError (py "AttributeError"))
  end.

Definition log_mid (r : nat) (lvl : Level) (t : LogText) : Co unit :=
  let* c := mid_context r in
  log lvl c t.

(** *** lib.sterilise_content *)

Fixpoint replace_from (s : str) (skip : nat) (old new : str) : str :=
  match s with
  | [] => []
  | c :: s' =>
      match skip with
      | S k => replace_from s' k old new
      | 0 =>
          if startswith s old then new ++ replace_from s' (length old - 1) old new
          else c :: replace_from s' 0 old new
      end
  end.

(** [s.replace(old, new)] for a non-empty [old]. *)
Definition replace (s old new : str) : str := replace_from s 0 old new.

Fixpoint has_substring (s sub : str) : bool :=
  startswith s sub ||
  match s with
  | [] => false
  | _ :: s' => has_substring s' sub
  end.

Definition zero_width_space : N := 8203.

Definition sterilise_content (content : str) : str :=
  let content :=
    replace content (py "@everyone") (py "@" ++ zero_width_space :: py "everyone") in
  let content :=
    replace content (py "@here") (py "@" ++ zero_width_space :: py "here") in
  let asciimsg := filter (fun c => bool_decide (c < 128)%N) content in
  if has_substring asciimsg (py "@everyone") || has_substring asciimsg (py "@here")
  then replace content (py "@") (py "@" ++ [zero_width_space])
  else content.

(** *** What the program calls but does not define

    The functions of the application are steps like any other: they may
    change the world, raise, or stay suspended.  A call of the platform
    library answers from the world as it is and leaves the client's
    objects alone.  [lower] is [str.lower]; [close] is the answer to
    [await self.close()]; [delete_time] is the moment at which the
    delete of a message is over, for the deletes that run side by
    side under [asyncio.gather] (it is of no account for a delete
    that stays suspended). *)
Record Env : Type :=
  MkEnv {
    call_check : Callable -> nat * Args -> Co bool;
    call_func : Callable -> nat -> option (gmap str FlagValue) -> Co unit;
    call_prefixes : Callable -> Message -> Co (list str);
    call_parser : Callable -> Message -> Co unit;
    send : World -> Z -> Payload -> outcome exn Message;
    fetch_message : World -> Z -> Z -> outcome exn Message;
    delete_message : World -> Z -> outcome exn unit;
    delete_messages : World -> Z -> list Z -> outcome exn unit;
    get_channel : World -> Z -> bool;
    manage_messages : World -> Z -> Z -> bool;
    lower : str -> str;
    format_exception_only : exn -> str;
    close : World -> outcome exn unit;
    delete_time : World -> Z -> nat
  }.

(** The answer of the platform library to a request. *)
Definition answer {A} (f : World -> outcome exn A) : Co A :=
  fun s => (f (world s), s).

(** Awaiting [asyncio.gather] of awaitables, each given with the moment
    it is over and its answer.  The first exception in time is raised
    at once, whether or not the other awaitables are over; of two
    exceptions at the same moment the one of the awaitable listed
    first counts.  With no exception, [gather] returns once every
    awaitable has, and is still suspended while one of them is. *)
Fixpoint first_raised (aws : list (nat * outcome exn unit)) : option (nat * exn) :=
  match aws with
  | [] => None
  | (t, Raise e) :: rest =>
      match first_raised rest with
      | Some (t', e') => if t' <? t then Some (t', e') else Some (t, e)
      | None => Some (t, e)
      end
  | _ :: rest => first_raised rest
  end.

Definition is_pending (o : outcome exn unit) : bool :=
  match o with Pending => true | _ => false end.

Definition gather (aws : list (nat * outcome exn unit)) : outcome exn unit :=
  match first_raised aws with
  | Some (_, e) => Raise e
  | None => if existsb (fun a => is_pending a.2) aws then Pending else Ret tt
  end.

Section Program.
Variable env : Env.

(** *** Context.py: replies *)

(** [Context.reply]. *)
Definition reply (r : nat) (content : option str) (allow_everyone : bool)
    : Co Message :=
  let content :=
    if allow_everyone then content
    else match content with
         | Some ((_ :: _) as c) => Some (sterilise_content c)
         | _ => content
         end in
  let* w := get_world in
  match Ctx.ch (ctx_at w r) with
  | None => raise (PyError (py "AttributeError"))
  | Some ch =>
      let* _ := request (Send ch (Content content)) in
      let* message := answer (fun w => send env w ch (Content content)) in
      let* _ := update_ctx r (add_sent_message message) in
      ret message
  end.

(** [Context.error_reply]. *)
Definition error_reply (r : nat) (error_str : str) : Co Message :=
  let* w := get_world in
  let* message :=
    try_except
      (match Ctx.ch (ctx_at w r) with
       | None => raise (PyError (py "AttributeError"))
       | Some ch =>
           let* _ := request (Send ch (Embed error_str)) in
           answer (fun w => send env w ch (Embed error_str))
       end)
      is_Forbidden
      (fun _ => reply r (Some error_str) false) in
  let* _ := update_ctx r (add_sent_message message) in
  ret message.

(** *** Module.py: the hooks of the base module *)

(** The module of a command; a position that holds no module reads as
    a module fresh from [Module.__init__]. *)
Definition module_at (w : World) (i : nat) : Mod.t :=
  default (Mod.Mk (py "Base Module") [] false true) (modules w !! i).

(** [Module.pre_command]. *)
Definition pre_command (i : nat) (r : nat) : Co unit :=
  let* w := get_world in
  if Mod.ready (module_at w i) then ret tt
  else
    let* _ := log_mid r INFO (WaitingForModule (Mod.name (module_at w i))) in
    sleep_while (fun w => negb (Mod.ready (module_at w i))).

(** [Module.post_command]. *)
Definition post_command (i : nat) (r : nat) : Co unit := ret tt.

(** [Module.on_exception]. *)
Definition on_exception (i : nat) (r : nat) (e : exn) : Co unit := raise e.

(** *** Check.py: the decorator *)

(** A command function is called; [Checked] is the [wrapper] of
    [Check.__call__]. *)
Fixpoint call_Func (f : Func) (r : nat) (flags : option (gmap str FlagValue))
    : Co unit :=
  match f with
  | Plain g => call_func env g r flags
  | Checked c args f' =>
      let* result := CheckEngine.run (call_check env) c (r, args) in
      if result then call_Func f' r flags else raise (FailedCheck c)
  end.

(** A check composed onto the command function evaluates false:
    the checks decorated outside it pass, in order, and then this one
    fails.  [s] is the state before, [s'] the state its evaluation
    leaves. *)
Inductive check_fails (r : nat) : Func -> State -> Check Callable -> State -> Prop :=
| fails_here chk args f s s' :
    CheckEngine.run (call_check env) chk (r, args) s = (Ret false, s') ->
    check_fails r (Checked chk args f) s chk s'
| fails_inside outer args f s s0 chk s' :
    CheckEngine.run (call_check env) outer (r, args) s = (Ret true, s0) ->
    check_fails r f s0 chk s' ->
    check_fails r (Checked outer args f) s chk s'.

(** *** Command.py *)

(** The flags of [exec_wrapper]: a command that declares flags has
    them parsed from [ctx.arg_str], and the rest becomes [ctx.args]. *)
Definition parse_flags (c : Command) (r : nat)
    : Co (option (gmap str FlagValue)) :=
  match Cmd.flags c with
  | _ :: _ =>
      let* w := get_world in
      match Ctx.arg_str (ctx_at w r) with
      | None => raise (PyError (py "TypeError"))
      | Some a =>
          let '(flags, rest) := flag_parser a (Cmd.flags c) in
          let* _ := update_ctx r (set_args (Some rest)) in
          ret (Some flags)
      end
  | [] => ret None
  end.

(** [Command.exec_wrapper]. *)
Definition exec_wrapper (c : Command) (r : nat) : Co unit :=
  try_except
    (let* _ := pre_command (Cmd.module c) r in
     let* flags := parse_flags c r in
     let* _ := call_Func (Cmd.func c) r flags in
     post_command (Cmd.module c) r)
    is_Exception
    (fun e => on_exception (Cmd.module c) r e).

Definition truthy (s : option str) : bool :=
  match s with
  | Some (_ :: _) => true
  | _ => false
  end.

Definition unexpected_error_text (e : exn) : str :=
  py "An unexpected internal error occurred while running your command! "
  ++ py "Please report the following error to the developer:"
  ++ [10%N; 96%N] ++ format_exception_only env e ++ [96%N].

(** The [except] clauses of [Command.run], in their order. *)
Definition handle_exception (r : nat) (e : exn) : Co unit :=
  match e with
  | FailedCheck check =>
      let* _ := log_mid r DEBUG (CommandFailedCheck (CheckEngine.name check)) in
      if truthy (CheckEngine.msg check) then
        let* _ := error_reply r (default [] (CheckEngine.msg check)) in ret tt
      else ret tt
  | SafeCancellation cls msg details =>
      let* _ := log_mid r DEBUG (SafeCancellationCaught cls details) in
      match msg with
      | Some m => let* _ := error_reply r m in ret tt
      | None => ret tt
      end
  | TimeoutError =>
      let* _ := log_mid r WARNING UnhandledTimeout in
      let* _ := error_reply r (py "Operation timed out.") in ret tt
  | CancelledError =>
      log_mid r DEBUG CommandCancelled
  | _ =>
      let* _ := log_mid r ERROR (CommandException e) in
      let* _ := reply r (Some (unexpected_error_text e)) false in ret tt
  end.

(** [Command.run]. *)
Definition Command_run (c : Command) (r : nat) : Co unit :=
  fun s =>
    match
      (let* task := ensure_future (ExecWrapper c r) in
       let* _ := update_ctx r (add_task task) in
       exec_wrapper c r) s
    with
    | (Ret _, s') => log_mid r DEBUG CommandCompleted s'
    | (Raise e, s') => handle_exception r e s'
    | (Pending, s') => (Pending, s')
    end.

(** *** cmdClient.py *)

(** The command name cache is a dictionary: keys in insertion order,
    a key set again keeps its place. *)
Fixpoint dict_get {V} (d : list (str * V)) (k : str) : option V :=
  match d with
  | [] => None
  | (k', v) :: d' => if eqb k' k then Some v else dict_get d' k
  end.

Fixpoint dict_set {V} (d : list (str * V)) (k : str) (v : V) : list (str * V) :=
  match d with
  | [] => [(k, v)]
  | (k', v') :: d' =>
      if eqb k' k then (k, v) :: d' else (k', v') :: dict_set d' k v
  end.

(** [cmdClient.update_cmdnames]. *)
Definition add_cmd_names (cmds : list (str * Command)) (c : Command)
    : list (str * Command) :=
  foldl (fun d alias => dict_set d alias c) (dict_set cmds (Cmd.name c) c)
    (Cmd.aliases c).

Definition update_cmdnames : Co unit :=
  modify_world (fun w =>
    set_cmd_names
      (foldl (fun cmds m =>
                if Mod.enabled m then foldl add_cmd_names cmds (Mod.cmds m)
                else cmds)
         [] (modules w))
      w).

(** [cmdClient.valid_prefixes], or the function put in its place by
    [set_valid_prefixes]. *)
Definition valid_prefixes (message : Message) : Co (list str) :=
  let* w := get_world in
  match valid_prefixes_func w with
  | Some f => call_prefixes env f message
  | None =>
      match prefix w with
      | Some ((_ :: _) as p) => ret [p]
      | _ =>
          let* _ := log ERROR Global NoPrefixSet in
          let* _ := request Close in
          let* _ := answer (fun w => close env w) in
          ret []
      end
  end.

(** [cmdClient.flat_command_response_cleaner]. *)
Definition flat_command_response_cleaner (flatctx : FlatContext) : Co unit :=
  let* w := get_world in
  match Flat.cid flatctx with
  | Some ch =>
      if get_channel env w ch then
        for_each (Flat.sent_messages flatctx) (fun msgid =>
          try_except
            (let* _ := request (FetchMessage ch msgid) in
             let* m := answer (fun w => fetch_message env w ch msgid) in
             let* _ := ensure_future (DeleteMessage (Msg.id m)) in
             ret tt)
            is_Exception
            (fun _ => ret tt))
      else ret tt
  | None => ret tt
  end.

(** [cmdClient.active_command_response_cleaner].  [asyncio.gather]
    makes a task of every delete before anything is awaited, so each
    delete is requested whatever the answers to the others, and the
    deletes run side by side. *)
Definition active_command_response_cleaner (r : nat) : Co unit :=
  try_except
    (let* w := get_world in
     let ctx := ctx_at w r in
     let ids := Msg.id <$> Ctx.sent_messages ctx in
     match Ctx.guild ctx with
     | Some g =>
         match Ctx.ch ctx with
         | Some ch =>
             if manage_messages env w ch g then
               let* _ := request (BulkDelete ch ids) in
               answer (fun w => delete_messages env w ch ids)
             else
               let* _ := for_each ids (fun i => request (Delete i)) in
               answer (fun w =>
                 gather ((fun i => (delete_time env w i, delete_message env w i))
                           <$> ids))
         | None => raise (PyError (py "AttributeError"))
         end
     | None =>
         let* _ := for_each ids (fun i => request (Delete i)) in
         answer (fun w =>
           gather ((fun i => (delete_time env w i, delete_message env w i))
                     <$> ids))
     end)
    is_NotFound
    (fun _ => ret tt).

(** [cmdClient.run_cmd]. *)
Definition run_cmd (message : Message) (cmdname arg : str) (pfx : str)
    : Co unit :=
  let* w := get_world in
  match dict_get (cmd_names w) cmdname with
  | None => raise (PyError (py "KeyError"))
  | Some c =>
      let mid := Msg.id message in
      let m := module_at w (Cmd.module c) in
      let* _ :=
        log INFO (MidContext mid) (ExecutingCommand cmdname (Mod.name m) message) in
      let* _ :=
        if Mod.enabled m then ret tt
        else
          let* _ := log INFO (MidContext mid) SkippingDisabledModule in
          update_cmdnames in
      let* r := new_context (Ctx.init message arg cmdname c pfx) in
      let* _ := modify_world (fun w =>
        set_ctx_cache (LRU.setitem (ctx_cache w) mid (Ctx.flatten (ctx_at w r))) w) in
      let* _ := modify_world (fun w =>
        set_active_contexts (<[mid := r]> (active_contexts w)) w) in
      try_finally
        (try_except (Command_run c r) is_Exception
           (fun e => log ERROR (MidContext mid) (RunCmdException cmdname e)))
        (let* _ := modify_world (fun w =>
           set_ctx_cache (LRU.setitem (ctx_cache w) mid (Ctx.flatten (ctx_at w r))) w) in
         modify_world (fun w =>
           set_active_contexts (delete mid (active_contexts w)) w))
  end.

(** The test of the list comprehension in [parse_message]. *)
Definition name_matches (stripcontent cmdname : str) : bool :=
  eqb (lower env (take (length cmdname) stripcontent)) cmdname.

(** [max(cmdnames, key=len)]: the first of the longest names. *)
Definition longest (l : list str) : option str :=
  match l with
  | [] => None
  | x :: l' =>
      Some (foldl (fun best y => if length best <? length y then y else best) x l')
  end.

(** [sorted(prefixes, reverse=True)]. *)
Fixpoint insert_reverse (a : str) (l : list str) : list str :=
  match l with
  | [] => [a]
  | b :: l' => if leb b a then a :: l else b :: insert_reverse a l'
  end.

Definition sorted_reverse (l : list str) : list str :=
  foldr insert_reverse [] l.

(** The loop over the prefixes in [parse_message], up to the call of
    [run_cmd]: the command name, its argument text and the prefix. *)
Fixpoint match_command (names : list str) (content : str)
    (prefixes : list str) : option (str * str * str) :=
  match prefixes with
  | [] => None
  | pfx :: rest =>
      let stripcontent := strip (drop (length pfx) content) in
      match longest (List.filter (name_matches stripcontent) names) with
      | Some cmdname =>
          Some (cmdname, strip (drop (length cmdname) stripcontent), pfx)
      | None => match_command names content rest
      end
  end.

(** [cmdClient.parse_message]. *)
Definition parse_message (message : Message) : Co unit :=
  let content := strip (Msg.content message) in
  let* prefixes := valid_prefixes message in
  let prefixes := List.filter (startswith content) prefixes in
  let* w := get_world in
  match match_command (cmd_names w).*1 content (sorted_reverse prefixes) with
  | Some (cmdname, arg, pfx) => run_cmd message cmdname arg pfx
  | None =>
      for_each (extra_message_parsers w) (fun parser =>
        let* _ := ensure_future (MessageParser parser.1 message) in ret tt)
  end.

(** [cmdClient.on_message]. *)
Definition on_message (message : Message) : Co unit := parse_message message.

(** [mid in self.active_contexts]. *)
Definition registered (w : World) (mid : Z) : bool :=
  match active_contexts w !! mid with
  | Some _ => true
  | None => false
  end.

(** The clean-up branch of [on_message_edit]. *)
Definition cleanup_responses (flatctx : FlatContext) (mid : Z) : Co unit :=
  let* w := get_world in
  match active_contexts w !! mid with
  | Some r =>
      match Ctx.tasks (ctx_at w r) with
      | _ :: _ =>
          let* _ := for_each (Ctx.tasks (ctx_at w r)) (fun t => request (Cancel t)) in
          let* _ := sleep_while (fun w => registered w mid) in
          let* _ := ensure_future (ActiveCleaner r) in
          ret tt
      | [] =>
          let* _ := ensure_future (FlatCleaner flatctx) in ret tt
      end
  | None =>
      let* _ := ensure_future (FlatCleaner flatctx) in ret tt
  end.

(** [cmdClient.on_message_edit]. *)
Definition on_message_edit (before after : Message) : Co unit :=
  if eqb (Msg.content before) (Msg.content after) then ret tt
  else
    let* w := get_world in
    if LRU.contains (ctx_cache w) (Msg.id after) then
      match LRU.getitem (ctx_cache w) (Msg.id after) with
      | Some (flatctx, cache) =>
          let* _ := modify_world (set_ctx_cache cache) in
          let* _ :=
            if Flat.cleanup_on_edit flatctx
            then cleanup_responses flatctx (Msg.id after)
            else ret tt in
          if Flat.reparse_on_edit flatctx then parse_message after else ret tt
      | None => raise (PyError (py "KeyError"))
      end
    else on_message after.

(** [Command.run] from its start up to the call of the command
    function: the task is made and recorded, the module's pre-command
    hook runs, the flags are parsed. *)
Definition reach_func (c : Command) (r : nat)
    : Co (option (gmap str FlagValue)) :=
  let* task := ensure_future (ExecWrapper c r) in
  let* _ := update_ctx r (add_task task) in
  let* _ := pre_command (Cmd.module c) r in
  parse_flags c r.

(** What the event loop runs for a task made by [ensure_future]. *)
Definition run_coroutine (c : Coroutine) : Co unit :=
  match c with
  | ExecWrapper cmd r => exec_wrapper cmd r
  | ActiveCleaner r => active_command_response_cleaner r
  | FlatCleaner flatctx => flat_command_response_cleaner flatctx
  | DeleteMessage i => let* _ := request (Delete i) in answer (fun w => delete_message env w i)
  | MessageParser f message =>
      try_except (call_parser env f message) is_Exception
        (fun e => log ERROR (MidContext (Msg.id message)) (ParserException e))
  end.

End Program.

(** *** Reading the requests *)

Definition with_requests (cs : list Call) (w : World) : World :=
  set_calls (calls w ++ cs) w.

(** The tasks that were told to cancel, one entry per [cancel()]. *)
Definition cancellations (cs : list Call) : list nat :=
  cs ≫= (fun c => match c with Cancel t => [t] | _ => [] end).

(** The messages that a delete was requested for, one entry per
    request; a bulk delete asks for each message it lists. *)
Definition delete_attempts (cs : list Call) : list Z :=
  cs ≫= (fun c =>
    match c with
    | Delete i => [i]
    | BulkDelete _ ids => ids
    | EnsureFuture _ (DeleteMessage i) => [i]
    | _ => []
    end).

(** An answer that the flat cleaner gets past: a result, or an
    exception that its [except Exception] catches. *)
Definition tolerated {A} (o : outcome exn A) : Prop :=
  match o with
  | Ret _ => True
  | Raise e => is_Exception e = true
  | Pending => False
  end.

Definition is_bulk_delete (c : Call) : bool :=
  match c with BulkDelete _ _ => true | _ => false end.

(** The coroutines handed to the event loop. *)
Definition spawned (cs : list Call) : list Coroutine :=
  cs ≫= (fun c => match c with EnsureFuture _ co => [co] | _ => [] end).

(** What the flat cleaner requests for one recorded message, [w]
    being the world in which the fetch is answered: the fetch, and
    when the fetch returns a message the delete of that message, as
    the next task. *)
Definition fetched_then_deleted (env : Env) (ch i : Z) (w : World)
    (block : list Call) : Prop :=
  match fetch_message env w ch i with
  | Ret m =>
      block = [FetchMessage ch i;
               EnsureFuture (next_task w) (DeleteMessage (Msg.id m))]
  | _ => block = [FetchMessage ch i]
  end.

(** The world once the requests of [block] are made, each new task
    taking the next task number. *)
Definition after_block (block : list Call) (w : World) : World :=
  set_next_task (next_task w + length (spawned block)) (with_requests block w).

(** The requests of the flat cleaner for the recorded messages [ids]
    from the world [w] on: one block per message, in order, each
    fetch answered in the world that the blocks before it have left,
    with the fetch itself requested; the last world is what the
    cleaner leaves. *)
Inductive cleaned_one_by_one (env : Env) (ch : Z)
    : list Z -> World -> list (list Call) -> World -> Prop :=
| cleaned_nil w : cleaned_one_by_one env ch [] w [] w
| cleaned_cons i ids w block blocks w' :
    fetched_then_deleted env ch i (with_requests [FetchMessage ch i] w) block ->
    cleaned_one_by_one env ch ids (after_block block w) blocks w' ->
    cleaned_one_by_one env ch (i :: ids) w (block :: blocks) w'.

(** The world after the rest of the program took the given steps. *)
Definition run_steps (steps : list (World -> World)) (w : World) : World :=
  foldl (fun w step => step w) w steps.

(** The capital letters A to Z. *)
Definition is_upper (c : N) : bool := ((65 <=? c) && (c <=? 90))%N.

End Client.

(** ** Sample data *)

Module Samples.

Import CheckEngine Client.

(** Check functions that return a fixed value and may count their
    calls in the state. *)
Definition call_counting (p : bool * bool) (_ : unit) : M nat unit bool :=
  fun n => (Ret p.1, if p.2 then S n else n).

Definition passes : Check (bool * bool) :=
  MkCheck (py "PASSES") None (true, false) [] [].
Definition fails : Check (bool * bool) :=
  MkCheck (py "FAILS") None (false, false) [] [].
Definition counted : Check (bool * bool) :=
  MkCheck (py "COUNTED") None (true, true) [] [].
Definition superseded : Check (bool * bool) :=
  MkCheck (py "SUPERSEDED") None (true, true) [fails; passes; counted] [counted].
Definition unmet : Check (bool * bool) :=
  MkCheck (py "UNMET") None (true, true) [fails] [fails; counted].
Definition met : Check (bool * bool) :=
  MkCheck (py "MET") None (true, true) [fails] [counted].

(** [str.lower] on the letters A to Z. *)
Definition ascii_lower (s : str) : str :=
  map (fun c => if is_upper c then (c + 32)%N else c) s.

(** An application whose check function 0 fails and whose other
    functions do nothing, on a platform that grants every request;
    [may_manage] is the answer about the manage-messages permission. *)
Definition sample_env (may_manage : bool) : Env :=
  MkEnv
    (fun f _ => ret (negb (f =? 0)))
    (fun _ _ _ => ret tt)
    (fun _ _ => ret [])
    (fun _ _ => ret tt)
    (fun _ ch _ => Ret (Msg.Mk 500 [] ch None 0))
    (fun _ ch i => Ret (Msg.Mk i [] ch None 0))
    (fun _ _ => Ret tt)
    (fun _ _ _ => Ret tt)
    (fun _ _ => true)
    (fun _ _ _ => may_manage)
    ascii_lower
    (fun _ => [])
    (fun _ => Ret tt)
    (fun _ _ => 0).

Definition silent_check : Check Callable :=
  MkCheck (py "SILENT") None 0 [] [].

Definition ping : Command :=
  Cmd.Mk (py "ping") (Checked silent_check [] (Plain 1)) 0 true [] [] false None.

Definition base_module : Mod.t := Mod.Mk (py "Base Module") [ping] true true.

Definition command_message : Message := Msg.Mk 10 (py "!ping") 5 (Some 7%Z) 3.
Definition edited_message : Message := Msg.Mk 10 (py "!ping again") 5 (Some 7%Z) 3.
Definition response : Message := Msg.Mk 77 (py "pong") 5 (Some 7%Z) 1.

(** The context of [!ping] while it runs: one task, one response
    sent, clean-up on edit but no re-parse. *)
Definition running_context : Context :=
  Ctx.Mk (Some command_message) (Some 5%Z) (Some 7%Z) (Some 3%Z) (Some [])
    (Some []) (Some ping) (Some (py "ping")) (Some (py "!")) [response]
    true false [0].

Definition sample_world (active : gmap Z nat) : World :=
  MkWorld (Some (py "!")) None [base_module] [(py "ping", ping)]
    (LRU.setitem (LRU.empty 2) 10 (Ctx.flatten running_context))
    active [] {[ 0 := running_context ]} 1 1 [] [].

Definition running_world : World := sample_world {[ 10%Z := 0 ]}.
Definition finished_world : World := sample_world ∅.

(** The lifecycle of message 10 ends: it leaves the registry. *)
Definition unregister (w : World) : World :=
  set_active_contexts (delete 10%Z (active_contexts w)) w.

(** The same edit is delivered once more while the first handler
    sleeps, and that second handler runs to its end. *)
Definition second_delivery (w : World) : World :=
  world (on_message_edit (sample_env false) command_message edited_message
           (MkState w [unregister])).2.

End Samples.

(** ** Shapes of strings *)

Module StrShapes.

(** A run of whitespace, possibly empty. *)
Definition blank (s : str) : Prop := Forall (fun c => isspace c = true) s.

(** A word: not empty, and free of whitespace. *)
Definition word (s : str) : Prop := s <> [] /\ Forall (fun c => isspace c = false) s.

(** Nothing for [strip] to remove. *)
Definition stripped (s : str) : Prop := lstrip s = s /\ rstrip s = s.

End StrShapes.

(** ** What the flag parser reports *)

Module FlagMore.

Import FlagParser StrShapes.

(** What [flag_parser] may give a declared flag that it found. *)
Definition found_value (params : list str) (flag : str) (v : FlagValue) : Prop :=
  if endswith flag [equals; equals] then exists t, v = FlagStr (strip t)
  else if endswith flag [equals] then
    v = FlagStr [] \/ exists w, w ∈ params /\ word w /\ v = FlagStr w
  else v = FlagBool true.

(** One of the three spellings of the flag is among the parameters. *)
Definition occurs (params : list str) (flag : str) : Prop :=
  short_form flag ∈ params \/ long_form flag ∈ params \/ em_form flag ∈ params.

End FlagMore.

(** ** Mentions *)

Module Mentions.

Definition at_sign : N := 64.

(** Every occurrence of the pattern [pat] in [s] is an occurrence of
    the mention [at_sign :: old_tail]. *)
Definition covered (old_tail pat s : str) : Prop :=
  forall n, startswith (drop n s) pat = true ->
            startswith (drop n s) (at_sign :: old_tail) = true.

End Mentions.

(** ** Checks that pass *)

Module Decorator.
Import CheckEngine FlagParser Client.
Section Program.
Variable env : Env.

(** Every check composed onto the command function passes, outermost
    first; [g] is the function under the decorators and [s'] the state
    the last check leaves. *)
Inductive checks_pass (r : nat) : Func -> State -> Callable -> State -> Prop :=
| passes_plain g s : checks_pass r (Plain g) s g s
| passes_checked chk args f s s0 g s' :
    CheckEngine.run (call_check env) chk (r, args) s = (Ret true, s0) ->
    checks_pass r f s0 g s' ->
    checks_pass r (Checked chk args f) s g s'.

End Program.
End Decorator.

(** ** Replies and the outcome of a command *)

Module ReplyDefs.
Import CheckEngine FlagParser Client.

(** The content [Context.reply] sends. *)
Definition sent_content (content : option str) (allow_everyone : bool)
    : option str :=
  if allow_everyone then content
  else match content with
       | Some ((_ :: _) as c) => Some (sterilise_content c)
       | _ => content
       end.

(** The exceptions that reach the last [except] clause of
    [Command.run]. *)
Definition unexpected (e : exn) : bool :=
  match e with
  | FailedCheck _ | SafeCancellation _ _ _ | TimeoutError | CancelledError => false
  | _ => true
  end.

(** The [try] block of [Command.run]. *)
Definition await_task (env : Env) (c : Command) (r : nat) : Co unit :=
  let* task := ensure_future (ExecWrapper c r) in
  let* _ := update_ctx r (add_task task) in
  exec_wrapper env c r.

Definition is_send (ch : Z) (c : Call) : Prop := exists p, c = Send ch p.

End ReplyDefs.

(** ** The commands behind the name cache *)

Module IndexDefs.
Import CheckEngine FlagParser Client.

(** [cmdClient.cmds]: the commands of the enabled modules, in order. *)
Definition cmds (w : World) : list Command :=
  concat (Mod.cmds <$> List.filter Mod.enabled (modules w)).

(** [k] is the name or an alias of [c]. *)
Definition goes_by (k : str) (c : Command) : bool :=
  eqb (Cmd.name c) k || contains (Cmd.aliases c) k.

End IndexDefs.

(** ** Parts of the message handlers *)

Module ParseDefs.
Import CheckEngine FlagParser Client.

(** The [try] statement of [run_cmd], for the context [r] of the
    command [c]. *)
Definition run_cmd_try (env : Env) (message : Message) (cmdname : str)
    (c : Command) (r : nat) : Co unit :=
  try_finally
    (try_except (Command_run env c r) is_Exception
       (fun e => log ERROR (MidContext (Msg.id message)) (RunCmdException cmdname e)))
    (let* _ := modify_world (fun w =>
       set_ctx_cache
         (LRU.setitem (ctx_cache w) (Msg.id message) (Ctx.flatten (ctx_at w r))) w) in
     modify_world (fun w =>
       set_active_contexts (delete (Msg.id message) (active_contexts w)) w)).

(** The tasks made for the extra message parsers, the first one being
    task [n]. *)
Definition parser_tasks (n : nat) (message : Message)
    (parsers : list (Callable * Z)) : list Call :=
  imap (fun i p => EnsureFuture (n + i) (MessageParser p.1 message)) parsers.

(** The test [if cmdnames] of [parse_message] for the prefix [pfx]:
    whether some command name is read after it. *)
Definition finds_command (env : Env) (names : list str) (content pfx : str)
    : bool :=
  existsb (name_matches env (strip (drop (length pfx) content))) names.

(** [except discord.NotFound: pass]. *)
Definition swallow_not_found (o : outcome exn unit) : outcome exn unit :=
  match o with
  | Raise e => if is_NotFound e then Ret tt else Raise e
  | _ => o
  end.

End ParseDefs.

(** ** cmdClient.py: handlers kept by priority *)

Module Parsers.
Import Client.

(** [bisect.bisect(a, x)] of the standard library: the binary search
    of [bisect_right].  Each round shrinks the interval, so [length a]
    rounds are enough. *)
Fixpoint bisect_loop (fuel : nat) (a : list Z) (x : Z) (lo hi : nat) : nat :=
  match fuel with
  | 0 => lo
  | S fuel' =>
      if lo <? hi then
        let mid := (lo + hi) / 2 in
        if (x <? nth mid a 0)%Z then bisect_loop fuel' a x lo mid
        else bisect_loop fuel' a x (mid + 1) hi
      else lo
  end.

Definition bisect (a : list Z) (x : Z) : nat :=
  bisect_loop (length a) a x 0 (length a).

(** [l.insert(i, x)] for [0 <= i]. *)
Definition insert_at {A} (i : nat) (x : A) (l : list A) : list A :=
  take i l ++ x :: drop i l.

(** The insertion of [cmdClient.add_message_parser] (and of
    [add_after_event]) into the list of handlers with their
    priorities. *)
Definition add_message_parser (func : Callable) (priority : Z)
    (parsers : list (Callable * Z)) : list (Callable * Z) :=
  insert_at (bisect (parsers.*2) priority) (func, priority) parsers.

(** The list after a series of registrations, starting with none. *)
Definition register_all (adds : list (Callable * Z)) : list (Callable * Z) :=
  foldl (fun parsers a => add_message_parser a.1 a.2 parsers) [] adds.

(** Putting [x] after every entry whose priority is not greater. *)
Fixpoint insert_after (x : Callable * Z) (l : list (Callable * Z))
    : list (Callable * Z) :=
  match l with
  | [] => [x]
  | y :: l' => if (y.2 <=? x.2)%Z then y :: insert_after x l' else x :: l
  end.

Definition by_priority (a b : Callable * Z) : Prop := (a.2 <= b.2)%Z.

End Parsers.

(** ** Module.py: registering a command *)

Module Registration.
Import CheckEngine FlagParser Client.

Definition set_modules (v : list Mod.t) (w : World) : World :=
  MkWorld (prefix w) (valid_prefixes_func w) v (cmd_names w) (ctx_cache w)
    (active_contexts w) (extra_message_parsers w) (contexts w)
    (next_context w) (next_task w) (calls w) (log_records w).

(** The keyword arguments that [Command.__init__] reads. *)
Record Kwargs : Type :=
  MkKwargs {
    kw_handle_edits : option bool;
    kw_aliases : option (list str);
    kw_flags : option (list str);
    kw_hidden : option bool;
    kw_short_help : option str
  }.

(** [Command.__init__]; the help text read from the docstring and
    keyword arguments it does not know are not part of [Cmd.t]. *)
Definition Command_init (name : str) (func : Func) (module : nat)
    (kwargs : Kwargs) : Command :=
  Cmd.Mk name func module
    (default true (kw_handle_edits kwargs))
    (default [] (kw_aliases kwargs))
    (default [] (kw_flags kwargs))
    (default false (kw_hidden kwargs))
    (kw_short_help kwargs).

(** [self.cmds.append(cmd)]. *)
Definition append_cmd (c : Command) (m : Mod.t) : Mod.t :=
  Mod.Mk (Mod.name m) (Mod.cmds m ++ [c]) (Mod.ready m) (Mod.enabled m).

(** The decorator that [Module.cmd] returns, for the module at
    position [i] of the client's module list. *)
Definition Module_cmd (i : nat) (name : str) (kwargs : Kwargs) (func : Func)
    : Co Command :=
  let cmd := Command_init name func i kwargs in
  let* _ := modify_world (fun w =>
    set_modules (alter (append_cmd cmd) i (modules w)) w) in
  let* _ := update_cmdnames in
  ret cmd.

End Registration.

(** ** logger.py *)

Module Logger.

Import FlagParser.

Definition newline : N := 10.

(** [message.split('\n')]; [acc] holds the current line reversed. *)
Fixpoint split_from (s : str) (acc : str) : list str :=
  match s with
  | [] => [rev acc]
  | c :: s' =>
      if (c =? newline)%N then rev acc :: split_from s' []
      else split_from s' (c :: acc)
  end.

Definition split_newline (s : str) : list str := split_from s [].

(** ['\n'.join(lines)]. *)
Fixpoint join_newline (lines : list str) : str :=
  match lines with
  | [] => []
  | [line] => line
  | line :: rest => line ++ newline :: join_newline rest
  end.

(** [s.center(width, fillchar)]: when the padding is odd, the extra
    fill character goes to the left exactly when the width is odd
    too. *)
Definition center (s : str) (width : nat) (fill : N) : str :=
  if width <=? length s then s
  else
    let marg := width - length s in
    let left := marg / 2 + (if Nat.odd marg && Nat.odd width then 1 else 0) in
    repeat fill left ++ s ++ repeat fill (marg - left).

(** The start of every line logged for [context]. *)
Definition tag (context : str) : str :=
  py "[" ++ center context 22 equals ++ py "] ".

(** [logger._log]: what is handed to [logger.log], in order. *)
Definition _log {Level : Type} (message context : str) (level : Level)
    : list (Level * str) :=
  (fun line => (level, tag context ++ line)) <$> split_newline message.

End Logger.

(** ** What a call of [log] writes

    The messages that the program gives to [log], as the source
    builds them, and the records that the default handler
    [logger._log] writes for them. *)

Module LogOutput.
Import FlagParser Client Logger.

(** [str(n)] for an [int]. *)
Definition str_of_int (n : Z) : str := py (NilZero.string_of_int (Z.to_int n)).

(** [str(x)] for an [x] that may be [None]. *)
Definition str_or_None {A} (f : A -> str) (x : option A) : str :=
  match x with
  | Some a => f a
  | None => py "None"
  end.

(** The line boundaries of [str.splitlines]. *)
Definition is_line_boundary (c : N) : bool :=
  ((10 <=? c) && (c <=? 13) || (28 <=? c) && (c <=? 30)
   || (c =? 133) || (c =? 8232) || (c =? 8233))%N.

(** [s.splitlines()]; [acc] holds the current line reversed, and
    [after_cr] says that the character before was a carriage return,
    which takes a line feed that follows it into the same boundary.
    No empty line is made for the end of the text. *)
Fixpoint splitlines_from (s acc : str) (after_cr : bool) : list str :=
  match s with
  | [] =>
      match acc with
      | [] => []
      | _ => [rev acc]
      end
  | c :: s' =>
      if after_cr && (c =? 10)%N then splitlines_from s' acc false
      else if is_line_boundary c then rev acc :: splitlines_from s' [] (c =? 13)%N
      else splitlines_from s' (c :: acc) false
  end.

Definition splitlines (s : str) : list str := splitlines_from s [] false.

Definition tab : N := 9.

(** ["\n".join(("\t" + line for line in content.splitlines()))]. *)
Definition indented (content : str) : str :=
  join_newline ((fun line => tab :: line) <$> splitlines content).

(** What Python prints for the values that the program quotes and
    does not make: [traceback.format_exc()] while the exception is
    handled, and [str] of the author, of the guild and of the channel
    of a message, here found by their identities. *)
Record Printer : Type :=
  MkPrinter {
    format_exc : exn -> str;
    str_user : Z -> str;
    str_guild : Z -> str;
    str_channel : Z -> str
  }.

Section Rendering.
Variable printer : Printer.

(** The [context] argument: the default ["Global"], or
    [f"mid:{message.id}"]. *)
Definition context_text (c : LogContext) : str :=
  match c with
  | Global => py "Global"
  | MidContext mid => py "mid:" ++ str_of_int mid
  end.

(** The [message] argument.  The message for a failing message parser
    also quotes the name of the parser, which the model does not
    keep; it is not given here. *)
Definition message_text (t : LogText) : option str :=
  match t with
  | ExecutingCommand cmdname module_name message =>
      Some (py "Executing command '" ++ cmdname
            ++ py "' from module '" ++ module_name ++ py "' "
            ++ py "from user '" ++ str_user printer (Msg.author message)
            ++ py "' (uid:" ++ str_of_int (Msg.author message) ++ py ") "
            ++ py "in guild '" ++ str_or_None (str_guild printer) (Msg.guild message)
            ++ py "' (gid:" ++ str_or_None str_of_int (Msg.guild message) ++ py ") "
            ++ py "in channel '" ++ str_channel printer (Msg.channel message)
            ++ py "' (cid:" ++ str_of_int (Msg.channel message) ++ py ")"
            ++ py "." ++ newline :: indented (Msg.content message))
  | SkippingDisabledModule =>
      Some (py "Skipping command due to disabled module.")
  | RunCmdException cmdname e =>
      Some (py "The following exception was encountered executing command '"
            ++ cmdname ++ py "'." ++ newline :: format_exc printer e)
  | CommandFailedCheck check_name =>
      Some (py "Command failed check: " ++ check_name)
  | SafeCancellationCaught cls details =>
      Some (py "Caught a safe command cancellation: " ++ cls ++ py ": "
            ++ str_or_None id details)
  | UnhandledTimeout =>
      Some (py "Caught an unhandled TimeoutError")
  | CommandCancelled =>
      Some (py "Command was cancelled, probably due to a message edit.")
  | CommandException e =>
      Some (py "Caught the following exception while running command:"
            ++ newline :: format_exc printer e)
  | CommandCompleted =>
      Some (py "Command completed execution without error.")
  | WaitingForModule module_name =>
      Some (py "Waiting for module '" ++ module_name ++ py "' to be ready.")
  | ParserException _ => None
  | NoPrefixSet =>
      Some (py "No prefix set and no prefix function implemented.")
  end.

(** What the default handler writes for one call of [log]: the
    records of [logger._log] for the message, the context and the
    level of the call. *)
Definition written_for (r : LogRecord) : option (list (Level * str)) :=
  (fun message => _log message (context_text (context r)) (level r))
    <$> message_text (text r).

End Rendering.

End LogOutput.

(** ** checks/global_perms.py *)

Module GlobalPerms.
Import CheckEngine FlagParser Client.

(** [Check.__init__] as [check] calls it: the decorated function
    becomes [check_func]. *)
Definition check (name msg : str) (parents requires : option (list (Check Callable)))
    (func : Callable) : Check Callable :=
  MkCheck name (Some msg) func (default [] parents) (default [] requires).

(** [is_owner]; [owners] is [client.owners]. *)
Definition is_owner_func (owners : list Z) (r : nat) : Co bool :=
  let* w := get_world in
  match Ctx.author (ctx_at w r) with
  | Some a => ret (bool_decide (a ∈ owners))
  | None => raise (PyError (py "AttributeError"))
  end.

Definition is_owner (func : Callable) : Check Callable :=
  check (py "IS_OWNER") (py "You need to be a bot owner to use this command!")
    None None func.

(** [in_guild]. *)
Definition in_guild_func (r : nat) : Co bool :=
  let* w := get_world in
  ret (match Ctx.guild (ctx_at w r) with Some _ => true | None => false end).

Definition in_guild (func : Callable) : Check Callable :=
  check (py "IN_GUILD") (py "You need to be in a guild to use this command!")
    None None func.

(** What a refused command leaves: one record at [DEBUG], the
    message of the check sent as an embed, and the reply noted in the
    context. *)
Definition refused (chk : Check Callable) (r : nat) (m sent : Message) (ch : Z)
    (s s' : State) : Prop :=
  calls (world s') = calls (world s) ++ [Send ch (Embed (default [] (msg chk)))]
  /\ log_records (world s')
     = log_records (world s)
       ++ [MkLog DEBUG (MidContext (Msg.id m)) (CommandFailedCheck (name chk))]
  /\ Ctx.sent_messages (ctx_at (world s') r)
     = Ctx.sent_messages (ctx_at (world s) r) ++ [sent].

End GlobalPerms.

(** ** lib.py: the safe cancellations *)

Module Cancellations.
Import CheckEngine FlagParser Client.

(** [UserCancelled(msg, details)] and [ResponseTimedOut(msg, details)]. *)
Definition UserCancelled (msg details : option str) : exn :=
  SafeCancellation_init (py "UserCancelled")
    (Some (py "User cancelled the session!")) msg details.

Definition ResponseTimedOut (msg details : option str) : exn :=
  SafeCancellation_init (py "ResponseTimedOut")
    (Some (py "Session timed out waiting for user response!")) msg details.

End Cancellations.

(** ** More sample data *)

Module MoreSamples.

Import CheckEngine FlagParser Client Samples Registration GlobalPerms Cancellations.
Import LogOutput.

(** Check functions that return a fixed value, or raise when there is
    none, and count their calls in the state. *)
Definition call_faulty (p : option bool) (_ : unit) : M nat unit bool :=
  fun n => (match p with Some b => Ret b | None => Raise tt end, S n).

Definition refuses : Check (option bool) :=
  MkCheck (py "REFUSES") None (Some false) [] [].
Definition accepts : Check (option bool) :=
  MkCheck (py "ACCEPTS") None (Some true) [] [].
Definition broken : Check (option bool) :=
  MkCheck (py "BROKEN") None None [] [].
Definition shielded : Check (option bool) :=
  MkCheck (py "SHIELDED") None (Some true) [refuses; broken; accepts] [].

(** A check that passes, and a check that fails with a message. *)
Definition open_check : Check Callable :=
  MkCheck (py "OPEN") None 2 [] [].

Definition loud_check : Check Callable :=
  MkCheck (py "LOUD") (Some (py "Not allowed.")) 0 [] [].

Definition guarded : Command :=
  Cmd.Mk (py "guarded") (Checked open_check [] (Checked loud_check [] (Plain 1)))
    0 true [] [] false None.

Definition welcome : Command :=
  Cmd.Mk (py "welcome") (Checked open_check [] (Plain 1)) 0 true [] [] false None.

(** A platform that refuses embeds and accepts plain text. *)
Definition plain_only_env : Env :=
  MkEnv
    (call_check (sample_env false))
    (call_func (sample_env false))
    (call_prefixes (sample_env false))
    (call_parser (sample_env false))
    (fun _ ch p =>
       match p with
       | Embed _ => Raise Forbidden
       | Content _ => Ret (Msg.Mk 500 [] ch None 0)
       end)
    (fetch_message (sample_env false))
    (delete_message (sample_env false))
    (delete_messages (sample_env false))
    (get_channel (sample_env false))
    (manage_messages (sample_env false))
    (lower (sample_env false))
    (format_exception_only (sample_env false))
    (close (sample_env false))
    (delete_time (sample_env false)).

(** An application whose check function 4 is the one of [in_guild]
    and whose check function 5 is the one of [is_owner], user 9 being
    the only owner. *)
Definition perms_env : Env :=
  MkEnv
    (fun f ctx =>
       if f =? 4 then in_guild_func ctx.1
       else if f =? 5 then is_owner_func [9%Z] ctx.1
       else ret (negb (f =? 0)))
    (call_func (sample_env false))
    (call_prefixes (sample_env false))
    (call_parser (sample_env false))
    (send (sample_env false))
    (fetch_message (sample_env false))
    (delete_message (sample_env false))
    (delete_messages (sample_env false))
    (get_channel (sample_env false))
    (manage_messages (sample_env false))
    (lower (sample_env false))
    (format_exception_only (sample_env false))
    (close (sample_env false))
    (delete_time (sample_env false)).

Definition guild_only : Command :=
  Cmd.Mk (py "here") (Checked (in_guild 4) [] (Plain 1)) 0 true [] [] false None.

Definition owner_only : Command :=
  Cmd.Mk (py "stop") (Checked (is_owner 5) [] (Plain 1)) 0 true [] [] false None.

(** A direct message of user 3, and its context. *)
Definition direct_message : Message := Msg.Mk 11 (py "!here") 6 None 3.

Definition direct_world : World :=
  MkWorld (Some (py "!")) None [base_module] [(py "ping", ping)] (LRU.empty 2)
    ∅ [] {[ 0 := Ctx.init direct_message [] (py "here") guild_only (py "!") ]}
    1 1 [] [].

(** The sample world before its module is launched, and the launch. *)
Definition make_ready (w : World) : World := set_modules [base_module] w.

Definition waiting_world : World :=
  set_modules [Mod.Mk (py "Base Module") [ping] false true] running_world.

(** A client with two extra message parsers, with and without a
    prefix, and a message that is no command. *)
Definition parsing_world (pfx : option str) : World :=
  MkWorld pfx None [base_module] [(py "ping", ping)] (LRU.empty 2)
    ∅ [(7, 0%Z); (8, 5%Z)] ∅ 0 0 [] [].

Definition chat_message : Message := Msg.Mk 12 (py "hello there") 5 (Some 7%Z) 3.

(** A command that declares a single-value flag and a boolean flag,
    and the world while ["!opts x -a y"] runs. *)
Definition opts : Command :=
  Cmd.Mk (py "opts") (Plain 1) 0 true [] [py "a="; py "c"] false None.

Definition opts_message : Message := Msg.Mk 14 (py "!opts x -a y") 5 (Some 7%Z) 3.

Definition opts_world : World :=
  MkWorld (Some (py "!")) None [base_module] [(py "opts", opts)] (LRU.empty 2)
    {[ 14%Z := 0 ]} []
    {[ 0 := Ctx.init opts_message (py "x -a y") (py "opts") opts (py "!") ]}
    1 1 [] [].

(** An application whose command functions give up as the user
    cancelled. *)
Definition cancelling_env : Env :=
  MkEnv
    (call_check (sample_env false))
    (fun _ _ _ => raise (UserCancelled None None))
    (call_prefixes (sample_env false))
    (call_parser (sample_env false))
    (send (sample_env false))
    (fetch_message (sample_env false))
    (delete_message (sample_env false))
    (delete_messages (sample_env false))
    (get_channel (sample_env false))
    (manage_messages (sample_env false))
    (lower (sample_env false))
    (format_exception_only (sample_env false))
    (close (sample_env false))
    (delete_time (sample_env false)).

(** An application whose command functions raise a [ValueError]. *)
Definition failing_env : Env :=
  MkEnv
    (call_check (sample_env false))
    (fun _ _ _ => raise (PyError (py "ValueError")))
    (call_prefixes (sample_env false))
    (call_parser (sample_env false))
    (send (sample_env false))
    (fetch_message (sample_env false))
    (delete_message (sample_env false))
    (delete_messages (sample_env false))
    (get_channel (sample_env false))
    (manage_messages (sample_env false))
    (lower (sample_env false))
    (format_exception_only (sample_env false))
    (close (sample_env false))
    (delete_time (sample_env false)).

(** A printer that names users, guilds and channels by their
    identities and gives a traceback of two lines. *)
Definition sample_printer : Printer :=
  MkPrinter
    (fun _ => py "Traceback (most recent call last):" ++ Logger.newline :: py "ValueError")
    str_of_int str_of_int str_of_int.

(** An application whose prefix function allows [!] and [!!], a
    client with the commands [ping] and [!ping], and a message that
    starts with both prefixes. *)
Definition two_prefix_env : Env :=
  MkEnv
    (call_check (sample_env false))
    (call_func (sample_env false))
    (fun _ _ => ret [py "!"; py "!!"])
    (call_parser (sample_env false))
    (send (sample_env false))
    (fetch_message (sample_env false))
    (delete_message (sample_env false))
    (delete_messages (sample_env false))
    (get_channel (sample_env false))
    (manage_messages (sample_env false))
    (lower (sample_env false))
    (format_exception_only (sample_env false))
    (close (sample_env false))
    (delete_time (sample_env false)).

Definition bang_ping : Command :=
  Cmd.Mk (py "!ping") (Plain 1) 0 true [] [] false None.

Definition two_prefix_world : World :=
  MkWorld None (Some 3) [base_module] [(py "ping", ping); (py "!ping", bang_ping)]
    (LRU.empty 2) ∅ [] ∅ 0 0 [] [].

Definition doubled_message : Message := Msg.Mk 15 (py "!!ping x") 5 (Some 7%Z) 3.

(** A platform on which the client cannot be closed. *)
Definition offline_env : Env :=
  MkEnv
    (call_check (sample_env false))
    (call_func (sample_env false))
    (call_prefixes (sample_env false))
    (call_parser (sample_env false))
    (send (sample_env false))
    (fetch_message (sample_env false))
    (delete_message (sample_env false))
    (delete_messages (sample_env false))
    (get_channel (sample_env false))
    (manage_messages (sample_env false))
    (lower (sample_env false))
    (format_exception_only (sample_env false))
    (fun _ => Raise HTTPException)
    (delete_time (sample_env false)).

(** A platform without the manage-messages permission on which the
    delete of message 77 never returns and every other message is
    gone already, and a context with the responses 77 and 78. *)
Definition racing_env : Env :=
  MkEnv
    (call_check (sample_env false))
    (call_func (sample_env false))
    (call_prefixes (sample_env false))
    (call_parser (sample_env false))
    (send (sample_env false))
    (fetch_message (sample_env false))
    (fun _ i => if (i =? 77)%Z then Pending else Raise NotFound)
    (delete_messages (sample_env false))
    (get_channel (sample_env false))
    (fun _ _ _ => false)
    (lower (sample_env false))
    (format_exception_only (sample_env false))
    (close (sample_env false))
    (fun _ i => if (i =? 77)%Z then 0 else 1).

Definition second_response : Message := Msg.Mk 78 (py "pong again") 5 (Some 7%Z) 1.

Definition two_responses_world : World :=
  MkWorld (Some (py "!")) None [base_module] [(py "ping", ping)] (LRU.empty 2)
    {[ 10%Z := 0 ]} []
    {[ 0 := Ctx.Mk (Some command_message) (Some 5%Z) (Some 7%Z) (Some 3%Z) (Some [])
              (Some []) (Some ping) (Some (py "ping")) (Some (py "!"))
              [response; second_response] true false [0] ]}
    1 1 [] [].

End MoreSamples.

(** * Properties *)

Module EffProps.

Lemma bind_ext {S E A B} (m m' : M S E A) (k k' : A -> M S E B) (s : S) :
  (forall s0, m s0 = m' s0) ->
  (forall a s0, k a s0 = k' a s0) ->
  bind m k s = bind m' k' s.
Proof.
  intros Hm Hk. unfold bind. rewrite Hm.
  destruct (m' s) as [[a| |] s1]; auto.
Qed.

Lemma bind_ret_inv {S E A B} (m : M S E A) (k : A -> M S E B) (s s' : S) (b : B) :
  bind m k s = (Ret b, s') ->
  exists a s0, m s = (Ret a, s0) /\ k a s0 = (Ret b, s').
Proof.
  unfold bind. destruct (m s) as [[a| |] s0]; try discriminate.
  intros H. exists a, s0. split; [reflexivity | exact H].
Qed.

(** One step of a sequence that is known to return. *)
Lemma bind_ret_step {S E A B} (m : M S E A) (k : A -> M S E B) (s s1 : S) (a : A) :
  m s = (Ret a, s1) -> bind m k s = k a s1.
Proof. intros H. unfold bind. rewrite H. reflexivity. Qed.

Ltac step_in H := erewrite bind_ret_step in H by reflexivity; cbv beta in H.
Ltac step := erewrite bind_ret_step by reflexivity; cbv beta.

End EffProps.

Import EffProps.

(** ** Check.run *)

Module CheckProps.

Import CheckEngine.

Section Run.
Context {St Exn Ctx Pred : Type}.
Variable call : Pred -> Ctx -> M St Exn bool.

Lemma run_unfold (c : Check Pred) (ctx : Ctx) (s : St) :
  run call c ctx s =
  (let* superseded := run_parents call (parents c) ctx in
   if superseded then ret true
   else
     let* satisfied := run_required call (required c) ctx in
     if satisfied then call (check_func c) ctx else ret false) s.
Proof.
  destruct c as [n m f ps rs]; simpl.
  apply bind_ext.
  - induction ps as [|p l IH]; intros s0; simpl; [reflexivity|].
    apply bind_ext; [reflexivity|]. intros [] s1; [reflexivity | apply IH].
  - intros [] s0; [reflexivity|].
    apply bind_ext; [|reflexivity].
    induction rs as [|r l IH]; intros s1; simpl; [reflexivity|].
    apply bind_ext; [reflexivity|]. intros [] s2; [apply IH | reflexivity].
Qed.

Lemma run_parents_stops before p after ctx s s1 s2 :
  each_returns call ctx false before s s1 ->
  run call p ctx s1 = (Ret true, s2) ->
  run_parents call (before ++ p :: after) ctx s = (Ret true, s2).
Proof.
  induction 1 as [s|c l s sa sb Hc Hl IH]; intros Hp; simpl; unfold bind.
  - rewrite Hp. reflexivity.
  - rewrite Hc. apply IH, Hp.
Qed.

Lemma run_parents_none l ctx s s1 :
  each_returns call ctx false l s s1 ->
  run_parents call l ctx s = (Ret false, s1).
Proof.
  induction 1 as [s|c l s sa sb Hc Hl IH]; simpl; unfold bind.
  - reflexivity.
  - rewrite Hc. exact IH.
Qed.

Lemma run_required_stops before r after ctx s s1 s2 :
  each_returns call ctx true before s s1 ->
  run call r ctx s1 = (Ret false, s2) ->
  run_required call (before ++ r :: after) ctx s = (Ret false, s2).
Proof.
  induction 1 as [s|c l s sa sb Hc Hl IH]; intros Hr; simpl; unfold bind.
  - rewrite Hr. reflexivity.
  - rewrite Hc. apply IH, Hr.
Qed.

Lemma run_required_all l ctx s s1 :
  each_returns call ctx true l s s1 ->
  run_required call l ctx s = (Ret true, s1).
Proof.
  induction 1 as [s|c l s sa sb Hc Hl IH]; simpl; unfold bind.
  - reflexivity.
  - rewrite Hc. exact IH.
Qed.

Lemma run_parents_true_inv l ctx s s2 :
  run_parents call l ctx s = (Ret true, s2) ->
  exists before p after s1,
    l = before ++ p :: after /\
    each_returns call ctx false before s s1 /\
    run call p ctx s1 = (Ret true, s2).
Proof.
  revert s. induction l as [|c l IH]; intros s; simpl; unfold bind.
  - discriminate.
  - destruct (run call c ctx s) as [[[]| |] sa] eqn:Hc; try discriminate.
    + intros [= <-]. exists [], c, l, s. repeat split; [constructor | exact Hc].
    + intros H. destruct (IH _ H) as (before & p & after & s1 & -> & Hb & Hp).
      exists (c :: before), p, after, s1. repeat split; [|exact Hp].
      econstructor; eassumption.
Qed.

Lemma run_parents_false_inv l ctx s s1 :
  run_parents call l ctx s = (Ret false, s1) ->
  each_returns call ctx false l s s1.
Proof.
  revert s. induction l as [|c l IH]; intros s; simpl; unfold bind.
  - intros [= <-]. constructor.
  - destruct (run call c ctx s) as [[[]| |] sa] eqn:Hc; try discriminate.
    intros H. econstructor; [exact Hc | apply IH, H].
Qed.

Lemma run_required_false_inv l ctx s s2 :
  run_required call l ctx s = (Ret false, s2) ->
  exists before r after s1,
    l = before ++ r :: after /\
    each_returns call ctx true before s s1 /\
    run call r ctx s1 = (Ret false, s2).
Proof.
  revert s. induction l as [|c l IH]; intros s; simpl; unfold bind.
  - discriminate.
  - destruct (run call c ctx s) as [[[]| |] sa] eqn:Hc; try discriminate.
    + intros H. destruct (IH _ H) as (before & r & after & s1 & -> & Hb & Hr).
      exists (c :: before), r, after, s1. repeat split; [|exact Hr].
      econstructor; eassumption.
    + intros [= <-]. exists [], c, l, s. repeat split; [constructor | exact Hc].
Qed.

Lemma run_required_true_inv l ctx s s1 :
  run_required call l ctx s = (Ret true, s1) ->
  each_returns call ctx true l s s1.
Proof.
  revert s. induction l as [|c l IH]; intros s; simpl; unfold bind.
  - intros [= <-]. constructor.
  - destruct (run call c ctx s) as [[[]| |] sa] eqn:Hc; try discriminate.
    intros H. econstructor; [exact Hc | apply IH, H].
Qed.

(** C1.  [Check.run] passes at the first parent, in declared order,
    that passes: its result and state are those of that parent, so
    neither a later parent, nor a requirement, nor the check's own
    function has run.  When no parent passes, it fails at the first
    requirement that fails, with the state that requirement left, so
    no later requirement and not the own function has run.  When no
    parent passes and every requirement passes, its outcome is that
    of the own function, run in the state the last requirement left.
    Every result of [Check.run] arises in one of these three ways. *)
Theorem run_short_circuits (c : Check Pred) (ctx : Ctx) (s : St) :
  (forall before p after s1 s2,
      parents c = before ++ p :: after ->
      each_returns call ctx false before s s1 ->
      run call p ctx s1 = (Ret true, s2) ->
      run call c ctx s = (Ret true, s2))
  /\ (forall s1 before r after s2 s3,
      each_returns call ctx false (parents c) s s1 ->
      required c = before ++ r :: after ->
      each_returns call ctx true before s1 s2 ->
      run call r ctx s2 = (Ret false, s3) ->
      run call c ctx s = (Ret false, s3))
  /\ (forall s1 s2,
      each_returns call ctx false (parents c) s s1 ->
      each_returns call ctx true (required c) s1 s2 ->
      run call c ctx s = call (check_func c) ctx s2)
  /\ (forall b s',
      run call c ctx s = (Ret b, s') ->
      (b = true /\ exists before p after s1,
          parents c = before ++ p :: after /\
          each_returns call ctx false before s s1 /\
          run call p ctx s1 = (Ret true, s'))
      \/ (b = false /\ exists s1 before r after s2,
          each_returns call ctx false (parents c) s s1 /\
          required c = before ++ r :: after /\
          each_returns call ctx true before s1 s2 /\
          run call r ctx s2 = (Ret false, s'))
      \/ (exists s1 s2,
          each_returns call ctx false (parents c) s s1 /\
          each_returns call ctx true (required c) s1 s2 /\
          call (check_func c) ctx s2 = (Ret b, s'))).
Proof.
  repeat split.
  - intros before p after s1 s2 Hps Hb Hp.
    rewrite run_unfold, Hps. unfold bind.
    rewrite (run_parents_stops _ _ _ _ _ _ _ Hb Hp). reflexivity.
  - intros s1 before r after s2 s3 Hps Hrs Hb Hr.
    rewrite run_unfold. unfold bind.
    rewrite (run_parents_none _ _ _ _ Hps), Hrs.
    rewrite (run_required_stops _ _ _ _ _ _ _ Hb Hr). reflexivity.
  - intros s1 s2 Hps Hrs.
    rewrite run_unfold. unfold bind.
    rewrite (run_parents_none _ _ _ _ Hps), (run_required_all _ _ _ _ Hrs).
    reflexivity.
  - intros b s'. rewrite run_unfold. unfold bind.
    destruct (run_parents call (parents c) ctx s) as [[[]| |] s1] eqn:Hps;
      try discriminate.
    + intros [= <- <-]. left. split; [reflexivity|].
      apply run_parents_true_inv, Hps.
    + apply run_parents_false_inv in Hps.
      destruct (run_required call (required c) ctx s1) as [[[]| |] s2] eqn:Hrs;
        try discriminate.
      * intros Hf. right; right. exists s1, s2.
        repeat split; [exact Hps | apply run_required_true_inv, Hrs | exact Hf].
      * intros [= <- <-]. right; left. split; [reflexivity|].
        destruct (run_required_false_inv _ _ _ _ Hrs)
          as (before & r & after & sa & Hl & Hb & Hr).
        exists s1, before, r, after, sa. repeat split; assumption.
Qed.

End Run.

End CheckProps.

(** ** flag_parser *)

Module FlagProps.

Import FlagParser.

Lemma contains_index (l : list str) (x : str) :
  contains l x = match index l x with Some _ => true | None => false end.
Proof.
  induction l as [|y l IH]; simpl; [reflexivity|].
  unfold eqb at 1 2.
  destruct (decide (y = x)) as [->|Hne].
  - rewrite bool_decide_eq_true_2 by reflexivity. reflexivity.
  - rewrite (bool_decide_eq_false_2 (x = y)) by congruence.
    rewrite (bool_decide_eq_false_2 (y = x)) by congruence.
    rewrite IH. simpl. destruct (index l x); reflexivity.
Qed.


Lemma index_none (l : list str) (x : str) :
  index l x = None <-> x ∉ l.
Proof.
  induction l as [|y l IH]; simpl.
  - split; [intros _; apply not_elem_of_nil | reflexivity].
  - unfold eqb. rewrite not_elem_of_cons.
    destruct (decide (y = x)) as [->|Hne].
    + rewrite bool_decide_eq_true_2 by reflexivity.
      split; [discriminate | intros [H _]; congruence].
    + rewrite bool_decide_eq_false_2 by assumption.
      destruct (index l x); simpl.
      * split; [discriminate|]. intros [_ H]. apply IH in H. discriminate.
      * split; [|reflexivity]. intros _. split; [congruence | apply IH; reflexivity].
Qed.

(** The flags collected by the first loop are the declared flags that
    [flag_index] finds, each with the index it gives. *)
Lemma find_flags_indices params flags ff ix i flag :
  (i, flag) ∈ (find_flags params flags ff ix).2 <->
  (i, flag) ∈ ix \/ (flag ∈ flags /\ flag_index params flag = Some i).
Proof.
  revert ff ix. induction flags as [|f flags IH]; intros ff ix; simpl.
  - split; [auto | intros [H|[H _]]; [exact H | inversion H]].
  - destruct (flag_index params f) as [k|] eqn:Hk; rewrite IH.
    + rewrite elem_of_app, list_elem_of_singleton, elem_of_cons. split.
      * intros [[H|[= -> ->]]|[H1 H2]]; auto.
      * intros [H|[[->|H1] H2]]; auto.
        left; right. congruence.
    + rewrite elem_of_cons. split.
      * intros [H|[H1 H2]]; auto.
      * intros [H|[[->|H1] H2]]; auto. congruence.
Qed.

(** A boolean flag gives its span back to the remainder, and a greedy
    flag takes its span up to the next flag found. *)
Example boolean_flag :
  flag_parser (py "-a b c") [py "a"] = ({[ py "a" := FlagBool true ]}, py "b c").
Proof. vm_compute. reflexivity. Qed.

Example greedy_flag :
  flag_parser (py "--tag one two --other") [py "tag=="; py "other"]
  = (<[ py "other" := FlagBool true ]> {[ py "tag" := FlagStr (py "one two") ]}, []).
Proof. vm_compute. reflexivity. Qed.

(** C2, as the code has it.  A single-value flag takes the next
    whitespace-separated word: [flag_parser("--a val b c", ["a="])] is
    [({a: "val"}, "b c")].  In ["--a=val b c"] the word ["--a=val"] is
    no spelling of the flag, so the flag is reported [False] and the
    whole text is the remainder. *)
Theorem single_value_flag_takes_next_word :
  flag_parser (py "--a val b c") [py "a="]
    = ({[ py "a" := FlagStr (py "val") ]}, py "b c")
  /\ flag_parser (py "--a=val b c") [py "a="]
    = ({[ py "a" := FlagBool false ]}, py "--a=val b c").
Proof. split; vm_compute; reflexivity. Qed.

(** C2 as stated does not hold: the parser does not return
    [({a: "val"}, "b c")] for ["--a=val b c"]. *)
Lemma equals_sign_value_not_parsed :
  flag_parser (py "--a=val b c") [py "a="]
    <> ({[ py "a" := FlagStr (py "val") ]}, py "b c").
Proof.
  intros H. apply (f_equal snd) in H. vm_compute in H. discriminate.
Qed.

(** C6, as the code has it.  [flag_parser("x -- -a b", ["a"])] reports
    the flag [False]; the text before the terminator is kept, the
    parameters after it are appended as they are, and the remainder is
    ["x  -a b"]: the whitespace on both sides of the terminator stays,
    so two spaces separate [x] and [-a]. *)
Theorem terminator_keeps_both_spaces :
  flag_parser (py "x -- -a b") [py "a"]
    = ({[ py "a" := FlagBool false ]}, py "x  -a b")
  /\ split_terminator (split_words (py "x -- -a b"))
    = ([[]; py "x"; py " "], [py " "; py "-a"; py " "; py "b"; []]).
Proof. split; vm_compute; reflexivity. Qed.

(** C6 as stated does not hold: the remainder is not ["x -a b"]. *)
Lemma terminator_remainder_not_single_spaced :
  flag_parser (py "x -- -a b") [py "a"]
    <> ({[ py "a" := FlagBool false ]}, py "x -a b").
Proof.
  intros H. apply (f_equal snd) in H. vm_compute in H. discriminate.
Qed.



End FlagProps.

(** ** The snapshot cache *)

Module LRUProps.

Import LRU.

Section Lemmas.
Context {V : Type}.
Implicit Types (l : list (Z * V)) (c : LRUCache V) (k : Z) (v : V).

Lemma assoc_app l1 l2 k :
  assoc (l1 ++ l2) k =
  match assoc l1 k with Some v => Some v | None => assoc l2 k end.
Proof.
  induction l1 as [|[k' v'] l1 IH]; simpl; [reflexivity|].
  destruct (k' =? k)%Z; [reflexivity | exact IH].
Qed.

Lemma assoc_without_same l k : assoc (without l k) k = None.
Proof.
  induction l as [|[k' v'] l IH]; simpl; [reflexivity|].
  destruct (k' =? k)%Z eqn:Hk; simpl; [exact IH|].
  rewrite Hk. exact IH.
Qed.

Lemma assoc_without_other l k k' :
  k <> k' -> assoc (without l k) k' = assoc l k'.
Proof.
  intros Hne. induction l as [|[k0 v0] l IH]; simpl; [reflexivity|].
  destruct (k0 =? k)%Z eqn:Hk; simpl.
  - apply Z.eqb_eq in Hk. subst k0.
    destruct (Z.eqb_spec k k'); [contradiction | exact IH].
  - destruct (k0 =? k')%Z; [reflexivity | exact IH].
Qed.

Lemma assoc_drop_none l k n : assoc l k = None -> assoc (drop n l) k = None.
Proof.
  revert n. induction l as [|[k' v'] l IH]; intros [|n]; simpl; auto.
  destruct (k' =? k)%Z; [discriminate | apply IH].
Qed.

(** What was just stored is what the cache holds. *)
Lemma peek_setitem c k v : peek (setitem c k v) k = Some v.
Proof.
  unfold setitem, peek.
  destruct (assoc (entries c) k) eqn:Hk; simpl; rewrite assoc_app.
  - rewrite assoc_without_same. simpl. rewrite Z.eqb_refl. reflexivity.
  - rewrite (assoc_drop_none _ _ _ Hk). simpl. rewrite Z.eqb_refl. reflexivity.
Qed.

End Lemmas.

End LRUProps.

(** ** The client *)

Module ClientProps.

Import CheckEngine FlagParser Client LRU ParseDefs LRUProps.

(** What the compound steps come to. *)
Lemma new_context_eq (ctx : Context) (s : State) :
  new_context ctx s =
  (Ret (next_context (world s)),
   MkState
     (set_next_context (S (next_context (world s)))
        (set_contexts (<[next_context (world s) := ctx]> (contexts (world s)))
           (world s)))
     (schedule s)).
Proof. reflexivity. Qed.

Lemma ensure_future_eq (co : Coroutine) (s : State) :
  ensure_future co s =
  (Ret (next_task (world s)),
   MkState
     (with_requests [EnsureFuture (next_task (world s)) co]
        (set_next_task (S (next_task (world s))) (world s)))
     (schedule s)).
Proof. reflexivity. Qed.

Lemma log_mid_eq (r : nat) (lvl : Level) (t : LogText) (m : Message) (s : State) :
  Ctx.msg (ctx_at (world s) r) = Some m ->
  log_mid r lvl t s =
  (Ret tt,
   MkState
     (set_log_records
        (log_records (world s) ++ [MkLog lvl (MidContext (Msg.id m)) t])
        (world s))
     (schedule s)).
Proof.
  intros Hm. unfold log_mid, mid_context.
  unfold bind at 1. unfold bind at 1. unfold get_world. rewrite Hm. reflexivity.
Qed.

Section Program.
Variable env : Env.

(** C8.  In a cache of capacity 2, storing snapshots for [A], [B]
    and [C] in that order evicts the one of [A] and keeps the other
    two; had [A] been looked up before [C] was stored, [B] would have
    gone instead.  An edit of message [A] that changes its content
    then finds no snapshot, and is handled as [on_message] handles a
    new message. *)
Theorem evicted_edit_is_new_message (A B C : Z) (fa fb fc : FlatContext) :
  A <> B -> A <> C -> B <> C ->
  let stored := setitem (setitem (empty 2) A fa) B fb in
  let cache := setitem stored C fc in
  (peek cache A = None /\ peek cache B = Some fb /\ peek cache C = Some fc)
  /\ (exists promoted,
        getitem stored A = Some (fa, promoted)
        /\ peek (setitem promoted C fc) B = None
        /\ peek (setitem promoted C fc) A = Some fa)
  /\ (forall before after st,
        Msg.id after = A ->
        Msg.content before <> Msg.content after ->
        ctx_cache (world st) = cache ->
        on_message_edit env before after st = on_message env after st).
Proof.
  intros HAB HAC HBC stored cache.
  assert (E1 : (A =? B)%Z = false) by (apply Z.eqb_neq; assumption).
  assert (E2 : (A =? C)%Z = false) by (apply Z.eqb_neq; assumption).
  assert (E3 : (B =? C)%Z = false) by (apply Z.eqb_neq; assumption).
  assert (E4 : (B =? A)%Z = false) by (apply Z.eqb_neq; congruence).
  assert (E5 : (C =? A)%Z = false) by (apply Z.eqb_neq; congruence).
  assert (E6 : (C =? B)%Z = false) by (apply Z.eqb_neq; congruence).
  assert (Hstored : stored = MkLRU 2 [(A, fa); (B, fb)]).
  { unfold stored, setitem, peek, empty. simpl. rewrite E1. reflexivity. }
  assert (Hcache : cache = MkLRU 2 [(B, fb); (C, fc)]).
  { unfold cache. rewrite Hstored. unfold setitem, peek. simpl.
    rewrite E2, E3. reflexivity. }
  split; [|split].
  - rewrite Hcache. unfold peek. simpl.
    rewrite E4, E5, E3, !Z.eqb_refl. repeat split.
  - exists (MkLRU 2 [(B, fb); (A, fa)]). rewrite Hstored.
    unfold getitem, setitem, peek, without. simpl.
    rewrite !Z.eqb_refl, E4. simpl. rewrite E3, E2. simpl.
    rewrite E5, Z.eqb_refl, E1, E6. repeat split.
  - intros before after st Hid Hcontent Hc.
    unfold on_message_edit, eqb.
    rewrite bool_decide_eq_false_2 by assumption.
    unfold bind at 1, get_world. rewrite Hc, Hid, Hcache.
    unfold contains, peek. simpl. rewrite E4, E5. reflexivity.
Qed.

Lemma try_finally_post {A} (m : Co A) (f : Co unit) (P : State -> Prop)
    (s s' : State) (out : outcome exn A) :
  (forall s0, exists s1, f s0 = (Ret tt, s1) /\ P s1) ->
  try_finally m f s = (out, s') ->
  out <> Pending ->
  P s'.
Proof.
  intros Hf Hrun Hout. unfold try_finally in Hrun.
  destruct (m s) as [[a|e|] s0];
    try (destruct (Hf s0) as (s1 & Hs1 & HP); rewrite Hs1 in Hrun;
         injection Hrun as <- <-; exact HP).
  injection Hrun as <- <-. contradiction.
Qed.

Lemma try_finally_pending {A} (m : Co A) (f : Co unit) (s s' : State) :
  (forall s0, exists s1, f s0 = (Ret tt, s1)) ->
  try_finally m f s = (Pending, s') ->
  m s = (Pending, s').
Proof.
  intros Hf. unfold try_finally.
  destruct (m s) as [[a|e|] s0]; [| |tauto];
    destruct (Hf s0) as (s1 & ->); discriminate.
Qed.

Lemma try_except_pending {A} (m : Co A) (caught : exn -> bool)
    (h : exn -> Co A) (s s' : State) :
  (forall e s0, (h e s0).1 <> Pending) ->
  try_except m caught h s = (Pending, s') ->
  m s = (Pending, s').
Proof.
  intros Hh. unfold try_except.
  destruct (m s) as [[a|e|] s0]; [discriminate| |tauto].
  destruct (caught e); [|discriminate].
  intros H. destruct (Hh e s0). rewrite H. reflexivity.
Qed.

(** C4.  A call of [run_cmd] for a registered command name, once it
    is over, whether it returned or raised and whatever [Command.run]
    did, leaves the message out of the registry of active contexts,
    and leaves in the cache, under the message, the snapshot of the
    context as it is at that moment.  The call is over as soon as
    [Command.run] is: it stays suspended only where [Command.run]
    does. *)
Theorem run_cmd_always_unregisters (message : Message) (cmdname arg pfx : str)
    (c : Command) (st st' : State) (out : outcome exn unit) :
  dict_get (cmd_names (world st)) cmdname = Some c ->
  run_cmd env message cmdname arg pfx st = (out, st') ->
  (out <> Pending ->
   active_contexts (world st') !! Msg.id message = None
   /\ peek (ctx_cache (world st')) (Msg.id message)
      = Some (Ctx.flatten (ctx_at (world st') (next_context (world st)))))
  /\ (out = Pending ->
      exists s, Command_run env c (next_context (world st)) s = (Pending, st')).
Proof.
  intros Hcmd Hrun.
  set (P := fun s : State =>
    active_contexts (world s) !! Msg.id message = None
    /\ peek (ctx_cache (world s)) (Msg.id message)
       = Some (Ctx.flatten (ctx_at (world s) (next_context (world st))))).
  assert (Hfinally : forall r, r = next_context (world st) -> forall s0, exists s1,
    (let* _ := modify_world (fun w =>
       set_ctx_cache
         (setitem (ctx_cache w) (Msg.id message) (Ctx.flatten (ctx_at w r))) w) in
     modify_world (fun w =>
       set_active_contexts (delete (Msg.id message) (active_contexts w)) w)) s0
    = (Ret tt, s1) /\ P s1).
  { intros r -> s0. eexists. split; [reflexivity|]. split; simpl.
    - apply lookup_delete_eq.
    - apply peek_setitem. }
  unfold run_cmd in Hrun.
  step_in Hrun. rewrite Hcmd in Hrun. step_in Hrun.
  destruct (Mod.enabled (module_at (world st) (Cmd.module c)));
    step_in Hrun;
    rewrite (bind_ret_step _ _ _ _ _ (new_context_eq _ _)) in Hrun;
    do 2 step_in Hrun;
    (split;
     [ intros Hout; eapply (try_finally_post _ _ P) in Hrun;
       [exact Hrun | apply Hfinally; reflexivity | exact Hout]
     | intros ->; apply try_finally_pending in Hrun;
       [ apply try_except_pending in Hrun;
         [eexists; exact Hrun | intros e s0; discriminate]
       | intros s0; destruct (Hfinally _ eq_refl s0) as (s1 & Hs1 & _); eauto ] ]).
Qed.

Lemma call_Func_check_fails r flags f s chk s' :
  check_fails env r f s chk s' ->
  call_Func env f r flags s = (Raise (FailedCheck chk), s').
Proof.
  induction 1 as [chk args f s s' Hrun | outer args f s s0 chk s' Hrun _ IH];
    simpl; unfold bind; rewrite Hrun; [reflexivity | exact IH].
Qed.

(** C5.  When the command reaches its function and a check composed
    onto it evaluates false, and that check has no message ([None] or
    the empty string), [Command.run] returns with one more log record
    than the evaluation left, at level [DEBUG], and with the requests
    as the evaluation left them: nothing is sent, and nothing is
    logged at another level. *)
Theorem silent_gating_failure (c : Command) (r : nat)
    (chk : Check Callable) (flags : option (gmap str FlagValue))
    (st s1 s2 : State) (m : Message) :
  reach_func c r st = (Ret flags, s1) ->
  check_fails env r (Cmd.func c) s1 chk s2 ->
  truthy (CheckEngine.msg chk) = false ->
  Ctx.msg (ctx_at (world s2) r) = Some m ->
  let record := MkLog DEBUG (MidContext (Msg.id m))
                  (CommandFailedCheck (CheckEngine.name chk)) in
  exists st',
    Command_run env c r st = (Ret tt, st')
    /\ calls (world st') = calls (world s2)
    /\ log_records (world st') = log_records (world s2) ++ [record]
    /\ level record = DEBUG.
Proof.
  intros Hreach Hfails Hmsg Hm record.
  unfold reach_func in Hreach.
  rewrite (bind_ret_step _ _ _ _ _ (ensure_future_eq _ _)) in Hreach.
  step_in Hreach.
  apply bind_ret_inv in Hreach as ([] & sa & Hpre & Hflags).
  unfold Command_run.
  rewrite (bind_ret_step _ _ _ _ _ (ensure_future_eq _ _)).
  step.
  lazymatch type of Hpre with
  | pre_command _ _ ?s0 = _ =>
      assert (Hexec : exec_wrapper env c r s0 = (Raise (FailedCheck chk), s2))
  end.
  { unfold exec_wrapper, try_except.
    rewrite (bind_ret_step _ _ _ _ _ Hpre).
    rewrite (bind_ret_step _ _ _ _ _ Hflags).
    unfold bind at 1.
    rewrite (call_Func_check_fails _ _ _ _ _ _ Hfails). reflexivity. }
  rewrite Hexec. unfold handle_exception.
  rewrite (bind_ret_step _ _ _ _ _ (log_mid_eq _ _ _ _ _ Hm)).
  rewrite Hmsg. eexists. split; [reflexivity|].
  repeat split.
Qed.

(** *** Edits *)

Lemma with_requests_nil (s : State) :
  MkState (with_requests [] (world s)) (schedule s) = s.
Proof.
  destruct s as [[] sched]. unfold with_requests, set_calls. simpl.
  rewrite app_nil_r. reflexivity.
Qed.

Lemma with_requests_app (cs1 cs2 : list Call) (w : World) :
  with_requests cs2 (with_requests cs1 w) = with_requests (cs1 ++ cs2) w.
Proof.
  unfold with_requests, set_calls. simpl. rewrite app_assoc. reflexivity.
Qed.

Lemma for_each_request {A} (f : A -> Call) (l : list A) (s : State) :
  for_each l (fun x => request (f x)) s =
  (Ret tt, MkState (with_requests (f <$> l) (world s)) (schedule s)).
Proof.
  revert s. induction l as [|x l IH]; intros s; simpl.
  - unfold ret. rewrite with_requests_nil. reflexivity.
  - step. rewrite IH. simpl. fold (with_requests [f x] (world s)).
    rewrite with_requests_app. reflexivity.
Qed.

(** The polling loop ends at the first look that finds the condition
    gone: after as many sleeps as it had to wait. *)
Lemma wait_while_leaves (cond : World -> bool) (pre post : list (World -> World))
    (w : World) :
  (forall k, k < length pre -> cond (run_steps (take k pre) w) = true) ->
  cond (run_steps pre w) = false ->
  wait_while cond (pre ++ post) w = (Ret tt, MkState (run_steps pre w) post).
Proof.
  revert w. induction pre as [|step pre IH]; intros w Hwait Hgone; simpl.
  - simpl in Hgone. destruct post; simpl; rewrite Hgone; reflexivity.
  - pose proof (Hwait 0 ltac:(simpl; lia)) as H0. simpl in H0. rewrite H0.
    apply IH.
    + intros k Hk. apply (Hwait (S k)). simpl. lia.
    + exact Hgone.
Qed.

(** As long as the condition holds at every look, the loop is still
    waiting when the observed steps are over. *)
Lemma wait_while_pending (cond : World -> bool) (sched : list (World -> World))
    (w : World) :
  (forall k, k <= length sched -> cond (run_steps (take k sched) w) = true) ->
  wait_while cond sched w = (Pending, MkState (run_steps sched w) []).
Proof.
  revert w. induction sched as [|step sched IH]; intros w Hwait; simpl.
  - pose proof (Hwait 0 ltac:(simpl; lia)) as H0. simpl in H0. rewrite H0.
    reflexivity.
  - pose proof (Hwait 0 ltac:(simpl; lia)) as H0. simpl in H0. rewrite H0.
    apply IH.
    intros k Hk. apply (Hwait (S k)). simpl. lia.
Qed.

Lemma cancellations_cancel (tasks : list nat) :
  cancellations (Cancel <$> tasks) = tasks.
Proof. induction tasks as [|t l IH]; simpl; [reflexivity | f_equal; exact IH]. Qed.

Lemma delete_attempts_delete (ids : list Z) :
  delete_attempts (Delete <$> ids) = ids.
Proof. induction ids as [|i l IH]; simpl; [reflexivity | f_equal; exact IH]. Qed.

Lemma registered_lookup (w : World) (mid : Z) (r : nat) :
  active_contexts w !! mid = Some r -> registered w mid = true.
Proof. unfold registered. intros ->. reflexivity. Qed.

Lemma cleanup_responses_running (flat : FlatContext) (mid : Z) (r : nat)
    (s : State) (pre post : list (World -> World)) :
  let w1 := with_requests (Cancel <$> Ctx.tasks (ctx_at (world s) r)) (world s) in
  let w2 := run_steps pre w1 in
  active_contexts (world s) !! mid = Some r ->
  Ctx.tasks (ctx_at (world s) r) <> [] ->
  schedule s = pre ++ post ->
  (forall k, k < length pre -> registered (run_steps (take k pre) w1) mid = true) ->
  registered w2 mid = false ->
  cleanup_responses flat mid s =
  (Ret tt,
   MkState
     (with_requests [EnsureFuture (next_task w2) (ActiveCleaner r)]
        (set_next_task (S (next_task w2)) w2))
     post).
Proof.
  intros w1 w2 Hreg Htasks Hsched Hwait Hgone.
  unfold cleanup_responses. step. rewrite Hreg.
  destruct (Ctx.tasks (ctx_at (world s) r)) as [|t tasks] eqn:Ht;
    [congruence|].
  rewrite (bind_ret_step _ _ _ _ _ (for_each_request Cancel (t :: tasks) s)).
  erewrite bind_ret_step; cycle 1.
  { unfold sleep_while. cbn [world schedule]. rewrite Hsched.
    apply wait_while_leaves; [exact Hwait | exact Hgone]. }
  cbv beta.
  rewrite (bind_ret_step _ _ _ _ _ (ensure_future_eq _ _)).
  reflexivity.
Qed.

(** The two ways of the active cleaner.  With a guild and the
    manage-messages permission it requests one bulk delete; otherwise
    one delete for each recorded response, whatever the answers.  Its
    outcome is the answer, [NotFound] swallowed. *)
Lemma active_cleaner_bulk (r : nat) (s : State) (g ch : Z) :
  let ctx := ctx_at (world s) r in
  let ids := Msg.id <$> Ctx.sent_messages ctx in
  let w1 := with_requests [BulkDelete ch ids] (world s) in
  Ctx.guild ctx = Some g ->
  Ctx.ch ctx = Some ch ->
  manage_messages env (world s) ch g = true ->
  active_command_response_cleaner env r s
  = (swallow_not_found (delete_messages env w1 ch ids), MkState w1 (schedule s)).
Proof.
  intros ctx ids w1 Hg Hch Hperm.
  unfold active_command_response_cleaner, try_except.
  step. fold ctx ids. rewrite Hg, Hch, Hperm.
  step. unfold answer. cbn [world schedule].
  fold (with_requests [BulkDelete ch ids] (world s)). fold w1.
  destruct (delete_messages env w1 ch ids) as [[]|e|]; try reflexivity.
  simpl. destruct (is_NotFound e); reflexivity.
Qed.

Lemma active_cleaner_each (r : nat) (s : State) :
  let ctx := ctx_at (world s) r in
  let ids := Msg.id <$> Ctx.sent_messages ctx in
  let w1 := with_requests (Delete <$> ids) (world s) in
  Ctx.guild ctx = None
  \/ (exists g ch, Ctx.guild ctx = Some g /\ Ctx.ch ctx = Some ch
                   /\ manage_messages env (world s) ch g = false) ->
  active_command_response_cleaner env r s
  = (swallow_not_found
       (gather ((fun i => (delete_time env w1 i, delete_message env w1 i)) <$> ids)),
     MkState w1 (schedule s)).
Proof.
  intros ctx ids w1 Hway.
  assert (Heach :
    (let* _ := for_each ids (fun i => request (Delete i)) in
     answer (fun w =>
       gather ((fun i => (delete_time env w i, delete_message env w i)) <$> ids))) s
    = (gather ((fun i => (delete_time env w1 i, delete_message env w1 i)) <$> ids),
       MkState w1 (schedule s))).
  { rewrite (bind_ret_step _ _ _ _ _ (for_each_request Delete ids s)). reflexivity. }
  unfold active_command_response_cleaner, try_except.
  step. fold ctx ids.
  destruct Hway as [Hg|(g & ch & Hg & Hch & Hperm)].
  - rewrite Hg, Heach.
    destruct (gather _) as [[]|e|]; try reflexivity.
    simpl. destruct (is_NotFound e); reflexivity.
  - rewrite Hg, Hch, Hperm, Heach.
    destruct (gather _) as [[]|e|]; try reflexivity.
    simpl. destruct (is_NotFound e); reflexivity.
Qed.

(** C3, as the code has it.  An edit that changes the content of a
    message whose snapshot has [cleanup_on_edit] set, while the
    message is in the registry of active contexts with a non-empty
    task list: the handler calls [cancel] once for each entry of the
    task list, then polls, sleeping between looks, and goes on at the
    first look that finds the message out of the registry; it then
    hands one run of the active cleaner to the event loop, and after
    that re-parses if the snapshot says so.  One run of the active
    cleaner requests one delete per recorded response: when the
    context has a guild and the manage-messages permission is held in
    its channel, a single bulk delete that lists them, and nothing
    else; when there is no guild or the permission is not held, one
    delete for each of them, and no bulk delete.  Nothing records
    that a clean-up was done, so handling the same edit again repeats
    the cancellations and the deletes. *)
Theorem edit_cancels_polls_then_cleans (before after : Message) (st : State)
    (flat : FlatContext) (promoted : LRUCache FlatContext) (r : nat)
    (pre post : list (World -> World)) :
  let w := world st in
  let mid := Msg.id after in
  let tasks := Ctx.tasks (ctx_at w r) in
  let w1 := with_requests (Cancel <$> tasks) (set_ctx_cache promoted w) in
  let w2 := run_steps pre w1 in
  let st2 :=
    MkState
      (with_requests [EnsureFuture (next_task w2) (ActiveCleaner r)]
         (set_next_task (S (next_task w2)) w2))
      post in
  Msg.content before <> Msg.content after ->
  getitem (ctx_cache w) mid = Some (flat, promoted) ->
  Flat.cleanup_on_edit flat = true ->
  active_contexts w !! mid = Some r ->
  tasks <> [] ->
  schedule st = pre ++ post ->
  (forall k, k < length pre -> registered (run_steps (take k pre) w1) mid = true) ->
  registered w2 mid = false ->
  on_message_edit env before after st
    = (if Flat.reparse_on_edit flat then parse_message env after st2
       else (Ret tt, st2))
  /\ cancellations (calls w1) = cancellations (calls w) ++ tasks
  /\ (forall s g ch,
        let ctx := ctx_at (world s) r in
        let ids := Msg.id <$> Ctx.sent_messages ctx in
        Ctx.guild ctx = Some g ->
        Ctx.ch ctx = Some ch ->
        manage_messages env (world s) ch g = true ->
        exists out,
          active_command_response_cleaner env r s
            = (out, MkState (with_requests [BulkDelete ch ids] (world s)) (schedule s))
          /\ delete_attempts [BulkDelete ch ids] = ids)
  /\ (forall s,
        let ctx := ctx_at (world s) r in
        let ids := Msg.id <$> Ctx.sent_messages ctx in
        Ctx.guild ctx = None
        \/ (exists g ch, Ctx.guild ctx = Some g /\ Ctx.ch ctx = Some ch
                         /\ manage_messages env (world s) ch g = false) ->
        exists out,
          active_command_response_cleaner env r s
            = (out, MkState (with_requests (Delete <$> ids) (world s)) (schedule s))
          /\ delete_attempts (Delete <$> ids) = ids
          /\ Forall (fun c => is_bulk_delete c = false) (Delete <$> ids)).
Proof.
  intros w mid tasks w1 w2 st2 Hcontent Hget Hclean Hreg Htasks Hsched Hwait Hgone.
  split; [|split; [|split]].
  - unfold on_message_edit, eqb.
    rewrite bool_decide_eq_false_2 by assumption.
    step. fold w mid. unfold contains.
    assert (Hpeek : peek (ctx_cache w) mid = Some flat).
    { unfold getitem in Hget. destruct (peek (ctx_cache w) mid); [|discriminate].
      congruence. }
    rewrite Hpeek, Hget. step. rewrite Hclean.
    erewrite bind_ret_step; cycle 1.
    { apply (cleanup_responses_running flat mid r _ pre post);
        [exact Hreg | exact Htasks | exact Hsched | exact Hwait | exact Hgone]. }
    destruct (Flat.reparse_on_edit flat); reflexivity.
  - unfold w1, with_requests. simpl. unfold cancellations.
    rewrite bind_app. f_equal. apply cancellations_cancel.
  - intros s g ch ctx ids Hg Hch Hperm.
    eexists. split; [apply (active_cleaner_bulk r s g ch Hg Hch Hperm)|].
    simpl. apply app_nil_r.
  - intros s ctx ids Hway.
    eexists. split; [apply (active_cleaner_each r s Hway)|].
    split; [apply delete_attempts_delete|].
    apply Forall_fmap, Forall_forall. intros i _. reflexivity.
Qed.

Lemma after_block_calls (block : list Call) (w : World) :
  calls (after_block block w) = calls w ++ block.
Proof. reflexivity. Qed.

Lemma flat_cleaner_loop (ch : Z) (ids : list Z) (s : State) :
  (forall w i, tolerated (fetch_message env w ch i)) ->
  exists w' blocks,
    for_each ids (fun msgid =>
      try_except
        (let* _ := request (FetchMessage ch msgid) in
         let* m := answer (fun w => fetch_message env w ch msgid) in
         let* _ := ensure_future (DeleteMessage (Msg.id m)) in
         ret tt)
        is_Exception
        (fun _ => ret tt)) s = (Ret tt, MkState w' (schedule s))
    /\ cleaned_one_by_one env ch ids (world s) blocks w'
    /\ calls w' = calls (world s) ++ concat blocks
    /\ Forall (fun c => is_bulk_delete c = false) (concat blocks).
Proof.
  intros Htol. revert s. induction ids as [|i ids IH]; intros s; simpl.
  - exists (world s), []. simpl. rewrite app_nil_r. destruct s.
    repeat split; constructor.
  - unfold bind at 1, try_except at 1.
    step. unfold bind at 1, answer at 1. cbn [world].
    change (set_calls (calls (world s) ++ [FetchMessage ch i]) (world s))
      with (with_requests [FetchMessage ch i] (world s)).
    set (w0 := with_requests [FetchMessage ch i] (world s)).
    pose proof (Htol w0 i) as Hi.
    assert (Hnext : forall block (s1 : State),
      fetched_then_deleted env ch i w0 block ->
      s1 = MkState (after_block block (world s)) (schedule s) ->
      Forall (fun c => is_bulk_delete c = false) block ->
      exists w' blocks,
        for_each ids (fun msgid =>
          try_except
            (let* _ := request (FetchMessage ch msgid) in
             let* m := answer (fun w => fetch_message env w ch msgid) in
             let* _ := ensure_future (DeleteMessage (Msg.id m)) in
             ret tt)
            is_Exception
            (fun _ => ret tt)) s1 = (Ret tt, MkState w' (schedule s))
        /\ cleaned_one_by_one env ch (i :: ids) (world s) blocks w'
        /\ calls w' = calls (world s) ++ concat blocks
        /\ Forall (fun c => is_bulk_delete c = false) (concat blocks)).
    { intros block s1 Hblock -> Hbulk.
      destruct (IH (MkState (after_block block (world s)) (schedule s)))
        as (w' & blocks & Hrun & Hblocks & Hcalls & Hrest).
      exists w', (block :: blocks). split; [exact Hrun|]. split; [|split].
      - apply cleaned_cons; [exact Hblock | exact Hblocks].
      - rewrite Hcalls. cbn [world]. rewrite after_block_calls.
        simpl. rewrite <- app_assoc. reflexivity.
      - simpl. apply Forall_app. split; [exact Hbulk | exact Hrest]. }
    destruct (fetch_message env w0 ch i) as [m|e|] eqn:Hfetch; simpl in Hi;
      [| |contradiction].
    + rewrite (bind_ret_step _ _ _ _ _ (ensure_future_eq _ _)). unfold ret at 1.
      apply (Hnext [FetchMessage ch i;
                    EnsureFuture (next_task w0) (DeleteMessage (Msg.id m))]).
      * unfold fetched_then_deleted. fold w0. rewrite Hfetch. reflexivity.
      * unfold after_block, with_requests, set_next_task, set_calls, w0.
        cbn. rewrite <- app_assoc, Nat.add_1_r. reflexivity.
      * repeat constructor.
    + rewrite Hi. unfold ret at 1.
      apply (Hnext [FetchMessage ch i]).
      * unfold fetched_then_deleted. fold w0. rewrite Hfetch. reflexivity.
      * unfold after_block, with_requests, set_next_task, set_calls, w0.
        cbn. rewrite Nat.add_0_r. destruct s as [[]]. reflexivity.
      * repeat constructor.
Qed.

(** Where every fetch returns, the delete of each fetched message is
    handed to the event loop, in the order of the recorded
    messages. *)
Lemma flat_cleaner_fetched (ch : Z) (ids : list Z) (fetched : Z -> Message)
    (s : State) :
  (forall w i, fetch_message env w ch i = Ret (fetched i)) ->
  exists s' new,
    for_each ids (fun msgid =>
      try_except
        (let* _ := request (FetchMessage ch msgid) in
         let* m := answer (fun w => fetch_message env w ch msgid) in
         let* _ := ensure_future (DeleteMessage (Msg.id m)) in
         ret tt)
        is_Exception
        (fun _ => ret tt)) s = (Ret tt, s')
    /\ calls (world s') = calls (world s) ++ new
    /\ spawned new = (fun i => DeleteMessage (Msg.id (fetched i))) <$> ids.
Proof.
  intros Hfetch. revert s. induction ids as [|i ids IH]; intros s; simpl.
  - exists s, []. simpl. rewrite app_nil_r. repeat split.
  - unfold bind at 1, try_except at 1.
    step. unfold bind at 1, answer at 1. cbn [world]. rewrite Hfetch.
    rewrite (bind_ret_step _ _ _ _ _ (ensure_future_eq _ _)). unfold ret at 1.
    match goal with
    | |- context [for_each ids _ ?s1] =>
        destruct (IH s1) as (s' & new & Hrun & Hcalls & Hnew)
    end.
    exists s', ([FetchMessage ch i;
                 EnsureFuture (next_task (world s)) (DeleteMessage (Msg.id (fetched i)))]
                ++ new).
    split; [exact Hrun|]. split.
    + rewrite Hcalls. simpl. rewrite <- !app_assoc. reflexivity.
    + unfold spawned in *. rewrite bind_app, Hnew. reflexivity.
Qed.

(** C7, as the code has it.  An edit that changes the content of a
    message whose snapshot has [cleanup_on_edit] set, while the
    message is not in the registry of active contexts: the handler
    hands one run of the flat cleaner to the event loop, and after
    that re-parses if the snapshot says so.  The flat cleaner deletes
    one by one, whatever the permissions: when the channel is known
    it goes through the recorded responses in order, and for each one
    it requests the fetch and, when the fetch returns a message, hands
    the delete of that very message to the event loop; when the fetch
    raises an exception, such as not found, it requests nothing more
    for that response.  No bulk delete is requested.  Where every
    fetch returns, the deletes handed over are those of the fetched
    messages, one for each recorded response and in their order.  An
    unknown channel skips them all; in every case the cleaner
    returns. *)
Theorem edit_after_finish_deletes_one_by_one (before after : Message)
    (st : State) (flat : FlatContext) (promoted : LRUCache FlatContext) :
  let w := world st in
  let mid := Msg.id after in
  let st2 :=
    MkState
      (with_requests [EnsureFuture (next_task w) (FlatCleaner flat)]
         (set_next_task (S (next_task w)) (set_ctx_cache promoted w)))
      (schedule st) in
  Msg.content before <> Msg.content after ->
  getitem (ctx_cache w) mid = Some (flat, promoted) ->
  Flat.cleanup_on_edit flat = true ->
  active_contexts w !! mid = None ->
  on_message_edit env before after st
    = (if Flat.reparse_on_edit flat then parse_message env after st2
       else (Ret tt, st2))
  /\ (forall s ch,
        Flat.cid flat = Some ch ->
        get_channel env (world s) ch = true ->
        (forall w0 i, tolerated (fetch_message env w0 ch i)) ->
        exists w' blocks,
          flat_command_response_cleaner env flat s = (Ret tt, MkState w' (schedule s))
          /\ cleaned_one_by_one env ch (Flat.sent_messages flat) (world s) blocks w'
          /\ calls w' = calls (world s) ++ concat blocks
          /\ Forall (fun c => is_bulk_delete c = false) (concat blocks))
  /\ (forall s ch fetched,
        Flat.cid flat = Some ch ->
        get_channel env (world s) ch = true ->
        (forall w0 i, fetch_message env w0 ch i = Ret (fetched i)) ->
        exists s' new,
          flat_command_response_cleaner env flat s = (Ret tt, s')
          /\ calls (world s') = calls (world s) ++ new
          /\ spawned new
             = (fun i => DeleteMessage (Msg.id (fetched i))) <$> Flat.sent_messages flat)
  /\ (forall s,
        Flat.cid flat = None
        \/ (exists ch, Flat.cid flat = Some ch
                       /\ get_channel env (world s) ch = false) ->
        flat_command_response_cleaner env flat s = (Ret tt, s)).
Proof.
  intros w mid st2 Hcontent Hget Hclean Hreg.
  split; [|split; [|split]].
  - unfold on_message_edit, eqb.
    rewrite bool_decide_eq_false_2 by assumption.
    step. fold w mid. unfold contains.
    assert (Hpeek : peek (ctx_cache w) mid = Some flat).
    { unfold getitem in Hget. destruct (peek (ctx_cache w) mid); [|discriminate].
      congruence. }
    rewrite Hpeek, Hget. step. rewrite Hclean.
    erewrite bind_ret_step; cycle 1.
    { unfold cleanup_responses. step. cbn [world active_contexts set_ctx_cache].
      fold w. rewrite Hreg.
      rewrite (bind_ret_step _ _ _ _ _ (ensure_future_eq _ _)). reflexivity. }
    destruct (Flat.reparse_on_edit flat); reflexivity.
  - intros s ch Hcid Hch Htol. unfold flat_command_response_cleaner.
    step. rewrite Hcid, Hch. apply flat_cleaner_loop, Htol.
  - intros s ch fetched Hcid Hch Hfetch. unfold flat_command_response_cleaner.
    step. rewrite Hcid, Hch. apply flat_cleaner_fetched, Hfetch.
  - intros s Hnone. unfold flat_command_response_cleaner. step.
    destruct Hnone as [->|(ch & -> & ->)]; reflexivity.
Qed.

(** *** Dispatch *)

Lemma longest_fold (l : list str) (x : str) :
  let best := foldl (fun best y => if length best <? length y then y else best) x l in
  (best = x \/ best ∈ l)
  /\ length x <= length best
  /\ forall y, y ∈ l -> length y <= length best.
Proof.
  revert x. induction l as [|z l IH]; intros x; simpl.
  - split; [left; reflexivity|]. split; [lia|]. intros y Hy. inversion Hy.
  - destruct (Nat.ltb_spec (length x) (length z)) as [Hlt|Hge].
    + destruct (IH z) as (Hin & Hle & Hall). split; [|split].
      * right. destruct Hin as [->|Hin]; [left | right; exact Hin].
      * lia.
      * intros y Hy. apply elem_of_cons in Hy as [->|Hy]; [exact Hle | auto].
    + destruct (IH x) as (Hin & Hle & Hall). split; [|split].
      * destruct Hin as [->|Hin]; [left; reflexivity | right; right; exact Hin].
      * exact Hle.
      * intros y Hy. apply elem_of_cons in Hy as [->|Hy]; [lia | auto].
Qed.

Lemma longest_spec (l : list str) (x : str) :
  longest l = Some x ->
  x ∈ l /\ forall y, y ∈ l -> length y <= length x.
Proof.
  destruct l as [|z l]; simpl; [discriminate|]. intros [= <-].
  destruct (longest_fold l z) as (Hin & Hle & Hall). split.
  - destruct Hin as [->|Hin]; [left | right; exact Hin].
  - intros y Hy. apply elem_of_cons in Hy as [->|Hy]; [exact Hle | auto].
Qed.

Lemma longest_some (l : list str) : l <> [] -> is_Some (longest l).
Proof. destruct l; [congruence | intros _; simpl; eauto]. Qed.

Lemma name_matches_eq (stripcontent n : str) :
  name_matches env stripcontent n = true <->
  lower env (take (length n) stripcontent) = n.
Proof. unfold name_matches, eqb. apply bool_decide_eq_true. Qed.

Lemma elem_of_filter_bool {A} (f : A -> bool) (l : list A) (x : A) :
  x ∈ List.filter f l <-> x ∈ l /\ f x = true.
Proof. rewrite !list_elem_of_In. apply filter_In. Qed.

Lemma elem_of_insert_reverse (a x : str) (l : list str) :
  x ∈ insert_reverse a l <-> x = a \/ x ∈ l.
Proof.
  induction l as [|b l IH]; simpl.
  - rewrite list_elem_of_singleton. split; [auto | intros [H|H]; [exact H | inversion H]].
  - destruct (leb b a); rewrite !elem_of_cons; [reflexivity|].
    rewrite IH. tauto.
Qed.

Lemma elem_of_sorted_reverse (x : str) (l : list str) :
  x ∈ sorted_reverse l <-> x ∈ l.
Proof.
  induction l as [|a l IH]; simpl; [reflexivity|].
  rewrite elem_of_insert_reverse, elem_of_cons, IH. reflexivity.
Qed.

Lemma match_command_spec (names : list str) (content : str)
    (prefixes : list str) (cmdname arg pfx : str) :
  match_command env names content prefixes = Some (cmdname, arg, pfx) ->
  let stripcontent := strip (drop (length pfx) content) in
  pfx ∈ prefixes
  /\ cmdname ∈ names
  /\ name_matches env stripcontent cmdname = true
  /\ arg = strip (drop (length cmdname) stripcontent)
  /\ forall n, n ∈ names -> name_matches env stripcontent n = true ->
               n <> cmdname -> length n < length cmdname.
Proof.
  induction prefixes as [|p prefixes IH]; simpl; [discriminate|].
  destruct (longest (List.filter (name_matches env (strip (drop (length p) content))) names))
    as [best|] eqn:Hbest.
  - intros [= <- <- <-].
    apply longest_spec in Hbest as [Hin Hmax].
    apply elem_of_filter_bool in Hin as [Hin Hm].
    split; [left|]. split; [exact Hin|]. split; [exact Hm|]. split; [reflexivity|].
    intros n Hn Hnm Hne.
    assert (Hle : length n <= length best).
    { apply Hmax, elem_of_filter_bool. split; assumption. }
    destruct (decide (length n = length best)) as [Heq|]; [|lia].
    exfalso. apply Hne.
    apply name_matches_eq in Hm, Hnm. rewrite <- Hm, <- Hnm, Heq. reflexivity.
  - intros H. destruct (IH H) as (Hp & Hrest). split; [right; exact Hp | exact Hrest].
Qed.

Lemma match_command_some (names : list str) (content : str)
    (prefixes : list str) (pfx n : str) :
  pfx ∈ prefixes -> n ∈ names ->
  name_matches env (strip (drop (length pfx) content)) n = true ->
  is_Some (match_command env names content prefixes).
Proof.
  intros Hp Hn Hm. induction prefixes as [|p prefixes IH]; [inversion Hp|].
  simpl.
  destruct (longest (List.filter (name_matches env (strip (drop (length p) content))) names))
    as [best|] eqn:Hbest; [eauto|].
  apply elem_of_cons in Hp as [->|Hp]; [|apply IH, Hp].
  exfalso.
  assert (Hne : List.filter (name_matches env (strip (drop (length p) content))) names <> []).
  { intros Hnil. assert (Hin : n ∈ List.filter (name_matches env (strip (drop (length p) content))) names)
      by (apply elem_of_filter_bool; split; assumption).
    rewrite Hnil in Hin. inversion Hin. }
  destruct (longest_some _ Hne) as [x Hx]. congruence.
Qed.

(** C10, as the code has it.  A registered name matches when it
    equals the lowercased leading slice, of the name's length, of the
    content after the prefix.  The prefixes that the content starts
    with are tried in reverse sorted order, and for the first one
    that has a matching name the command run is the longest matching
    name: every other matching name is strictly shorter.  A dispatch
    happens whenever some name matches after some such prefix.  A
    name that contains a character that [str.lower] never returns, as
    it never returns a capital letter A to Z, matches no content.
    To be uppercase is not enough for that: a name that [str.lower]
    leaves unchanged matches every content that starts with it, and
    [str.lower] leaves some uppercase characters unchanged, such as
    U+2102. *)
Theorem dispatch_longest_lowercased_name (names : list str) (content : str)
    (prefixes : list str) :
  (forall stripcontent n,
      name_matches env stripcontent n = true <->
      lower env (take (length n) stripcontent) = n)
  /\ (forall cmdname arg pfx,
      match_command env names content prefixes = Some (cmdname, arg, pfx) ->
      let stripcontent := strip (drop (length pfx) content) in
      pfx ∈ prefixes
      /\ cmdname ∈ names
      /\ name_matches env stripcontent cmdname = true
      /\ arg = strip (drop (length cmdname) stripcontent)
      /\ forall n, n ∈ names -> name_matches env stripcontent n = true ->
                   n <> cmdname -> length n < length cmdname)
  /\ (forall pfx n,
      pfx ∈ prefixes -> n ∈ names ->
      name_matches env (strip (drop (length pfx) content)) n = true ->
      is_Some (match_command env names content prefixes))
  /\ (forall c,
      (forall s, c ∉ lower env s) ->
      forall stripcontent n, c ∈ n -> name_matches env stripcontent n = false)
  /\ (forall n rest, lower env n = n -> name_matches env (n ++ rest) n = true)
  /\ (forall message st valid st1 cmdname arg pfx,
      valid_prefixes env message st = (Ret valid, st1) ->
      match_command env (cmd_names (world st1)).*1 (strip (Msg.content message))
        (sorted_reverse
           (List.filter (startswith (strip (Msg.content message))) valid))
        = Some (cmdname, arg, pfx) ->
      parse_message env message st = run_cmd env message cmdname arg pfx st1
      /\ pfx ∈ valid
      /\ startswith (strip (Msg.content message)) pfx = true).
Proof.
  split; [|split; [|split; [|split; [|split]]]].
  - apply name_matches_eq.
  - apply match_command_spec.
  - apply match_command_some.
  - intros c Hnever stripcontent n Hc.
    destruct (name_matches env stripcontent n) eqn:Hm; [|reflexivity].
    apply name_matches_eq in Hm. rewrite <- Hm in Hc.
    exfalso. exact (Hnever _ Hc).
  - intros n rest Hn. apply name_matches_eq.
    rewrite take_app_length. exact Hn.
  - intros message st valid st1 cmdname arg pfx Hvalid Hmatch. split.
    + unfold parse_message.
      rewrite (bind_ret_step _ _ _ _ _ Hvalid). step.
      rewrite Hmatch. reflexivity.
    + apply match_command_spec in Hmatch as (Hp & _).
      apply elem_of_sorted_reverse, elem_of_filter_bool in Hp. exact Hp.
Qed.

End Program.

End ClientProps.

(** ** The properties at the sample data *)

Module SampleProps.

Import CheckEngine FlagParser Client LRU Samples.
Import CheckProps FlagProps ClientProps.

(** [run_short_circuits] at the sample checks.  A passing second
    parent ends the evaluation with the counter untouched; a failing
    first requirement does the same; with no passing parent and a
    passing requirement the own function runs, and the counter shows
    the two calls. *)
Lemma run_short_circuits_witness :
  run call_counting superseded tt 0 = (Ret true, 0)
  /\ run call_counting unmet tt 0 = (Ret false, 0)
  /\ run call_counting met tt 0 = (Ret true, 2).
Proof.
  split; [|split].
  - apply (proj1 (run_short_circuits call_counting superseded tt 0)
             [fails] passes [counted] 0 0).
    + reflexivity.
    + apply each_cons with (s1 := 0); [reflexivity | apply each_nil].
    + reflexivity.
  - apply (proj1 (proj2 (run_short_circuits call_counting unmet tt 0))
             0 [] fails [counted] 0 0).
    + apply each_cons with (s1 := 0); [reflexivity | apply each_nil].
    + reflexivity.
    + apply each_nil.
    + reflexivity.
  - rewrite (proj1 (proj2 (proj2 (run_short_circuits call_counting met tt 0))) 0 1).
    + reflexivity.
    + apply each_cons with (s1 := 0); [reflexivity | apply each_nil].
    + apply each_cons with (s1 := 1); [reflexivity | apply each_nil].
Defined.


Lemma ascii_lower_no_capitals (s : str) (c : N) :
  c ∈ ascii_lower s -> is_upper c = false.
Proof.
  unfold ascii_lower. intros Hc. apply list_elem_of_In, in_map_iff in Hc.
  destruct Hc as (x & <- & _). unfold is_upper.
  destruct ((65 <=? x)%N && (x <=? 90)%N) eqn:Hx; [|exact Hx].
  apply andb_true_iff in Hx as [H1 H2].
  apply N.leb_le in H1, H2. apply andb_false_iff. right.
  apply N.leb_gt. lia.
Qed.

(** [dispatch_longest_lowercased_name] at the names [he] and [help]:
    ["!Help me"] runs [help] with argument ["me"], [he] is shorter, and
    the name [Help] matches nothing. *)
Lemma dispatch_witness :
  match_command (sample_env false) [py "he"; py "help"] (py "!Help me") [py "!"]
    = Some (py "help", py "me", py "!")
  /\ length (py "he") < length (py "help")
  /\ name_matches (sample_env false) (py "Help me") (py "Help") = false.
Proof.
  destruct (dispatch_longest_lowercased_name (sample_env false)
              [py "he"; py "help"] (py "!Help me") [py "!"])
    as (_ & Hlongest & _ & Hupper & _).
  assert (Hrun : match_command (sample_env false) [py "he"; py "help"]
                   (py "!Help me") [py "!"] = Some (py "help", py "me", py "!"))
    by (vm_compute; reflexivity).
  split; [exact Hrun|]. split.
  - apply (Hlongest _ _ _ Hrun).
    + left.
    + vm_compute. reflexivity.
    + vm_compute. discriminate.
  - apply (Hupper 72%N).
    + intros s H. apply ascii_lower_no_capitals in H. discriminate.
    + left.
Defined.

(** C10, the counterexample.  The code point U+2102 is an uppercase
    character that [str.lower] leaves unchanged, as the lowercasing
    of the sample application does, and a command registered under it
    is dispatched: the content after the prefix [!] starts with the
    name. *)
Lemma uppercase_name_is_dispatched :
  lower (sample_env false) [8450%N] = [8450%N]
  /\ name_matches (sample_env false) (8450%N :: py " x") [8450%N] = true
  /\ match_command (sample_env false) [py "c"; [8450%N]]
       (py "!" ++ 8450%N :: py " x") [py "!"]
     = Some ([8450%N], py "x", py "!").
Proof. vm_compute. repeat split. Qed.

(** [evicted_edit_is_new_message] at the messages 1, 2 and 3. *)
Lemma evicted_edit_witness :
  let snapshot := Ctx.flatten running_context in
  peek (setitem (setitem (setitem (empty 2) 1 snapshot) 2 snapshot) 3 snapshot) 1
    = None.
Proof.
  intros snapshot.
  apply (evicted_edit_is_new_message (sample_env false) 1 2 3
           snapshot snapshot snapshot); discriminate.
Defined.

(** [run_cmd_always_unregisters] at [!ping]: the command fails its
    check, and message 10 is out of the registry afterwards. *)
Lemma run_cmd_witness :
  let st := MkState finished_world [] in
  let st' := (run_cmd (sample_env false) command_message (py "ping") [] (py "!") st).2 in
  active_contexts (world st') !! 10%Z = None
  /\ peek (ctx_cache (world st')) 10 = Some (Ctx.flatten (ctx_at (world st') 1)).
Proof.
  intros st st'.
  apply (run_cmd_always_unregisters (sample_env false) command_message
           (py "ping") [] (py "!") ping st st'
           (run_cmd (sample_env false) command_message (py "ping") [] (py "!") st).1).
  - reflexivity.
  - apply surjective_pairing.
  - vm_compute. discriminate.
Defined.

(** [silent_gating_failure] at [ping], whose check has no message:
    the requests stay those made on the way to the check, and the one
    record logged is at level [DEBUG]. *)
Lemma silent_gating_failure_witness :
  exists st',
    Command_run (sample_env false) ping 0 (MkState running_world []) = (Ret tt, st')
    /\ calls (world st') = [EnsureFuture 1 (ExecWrapper ping 0)]
    /\ level <$> log_records (world st') = [DEBUG].
Proof.
  edestruct (silent_gating_failure (sample_env false) ping 0 silent_check
               None (MkState running_world []))
    as (st' & Hrun & Hcalls & Hlog & _).
  - vm_compute. reflexivity.
  - apply fails_here. vm_compute. reflexivity.
  - reflexivity.
  - vm_compute. reflexivity.
  - exists st'. split; [exact Hrun|]. split.
    + rewrite Hcalls. vm_compute. reflexivity.
    + rewrite Hlog. vm_compute. reflexivity.
Defined.

(** [edit_cancels_polls_then_cleans] at the sample edit: the
    lifecycle of message 10 ends during the first sleep. *)
Lemma edit_cancels_witness :
  let st := MkState running_world [unregister] in
  let st' := (on_message_edit (sample_env false) command_message edited_message st).2 in
  calls (world st') = [Cancel 0; EnsureFuture 1 (ActiveCleaner 0)].
Proof.
  intros st st'. unfold st'.
  edestruct (edit_cancels_polls_then_cleans (sample_env false)
               command_message edited_message st) as (Hedit & _).
  - intros H. vm_compute in H. discriminate.
  - vm_compute. reflexivity.
  - reflexivity.
  - vm_compute. reflexivity.
  - vm_compute. discriminate.
  - instantiate (1 := []). instantiate (1 := [unregister]). reflexivity.
  - intros k Hk. destruct k as [|k]; [vm_compute; reflexivity | simpl in Hk; lia].
  - vm_compute. reflexivity.
  - rewrite Hedit. vm_compute. reflexivity.
Defined.

(** [edit_after_finish_deletes_one_by_one] at the sample edit, after
    the lifecycle of message 10 has ended. *)
Lemma edit_after_finish_witness :
  let st := MkState finished_world [] in
  let st' := (on_message_edit (sample_env true) command_message edited_message st).2 in
  calls (world st') = [EnsureFuture 1 (FlatCleaner (Ctx.flatten running_context))]
  /\ exists s',
       flat_command_response_cleaner (sample_env true)
         (Ctx.flatten running_context) st = (Ret tt, s').
Proof.
  intros st st'. unfold st'.
  edestruct (edit_after_finish_deletes_one_by_one (sample_env true)
               command_message edited_message st) as (Hedit & Hclean & _).
  - intros H. vm_compute in H. discriminate.
  - vm_compute. reflexivity.
  - reflexivity.
  - vm_compute. reflexivity.
  - split.
    + rewrite Hedit. vm_compute. reflexivity.
    + destruct (Hclean st 5%Z) as (w' & blocks & Hrun & _).
      * reflexivity.
      * reflexivity.
      * intros w0 i. exact I.
      * eexists. exact Hrun.
Defined.

(** C3 as stated does not hold.  The edit of message 10 is delivered
    twice while its invocation is registered with task 0 and response
    77; once both handlers and the cleaners they handed to the event
    loop have run, task 0 has been cancelled twice and two deletes have
    been requested for message 77. *)
Lemma repeated_edit_repeats_cleanup :
  let st := MkState running_world [second_delivery] in
  let '(out, st1) :=
    on_message_edit (sample_env false) command_message edited_message st in
  let '(_, st2) :=
    for_each (spawned (calls (world st1))) (run_coroutine (sample_env false)) st1 in
  out = Ret tt
  /\ cancellations (calls (world st2)) = [0; 0]
  /\ delete_attempts (calls (world st2)) = [77; 77]%Z.
Proof. vm_compute. repeat split. Qed.

(** C7 as stated does not hold.  With the manage-messages permission
    held in the channel, the cleaner for a finished invocation fetches
    and deletes response 77 on its own and requests no bulk delete,
    where the cleaner for a running one requests a bulk delete. *)
Lemma flat_cleaner_never_bulk_deletes :
  let st := MkState finished_world [] in
  manage_messages (sample_env true) finished_world 5 7 = true
  /\ calls (world (flat_command_response_cleaner (sample_env true)
                     (Ctx.flatten running_context) st).2)
     = [FetchMessage 5 77; EnsureFuture 1 (DeleteMessage 77)]
  /\ calls (world (active_command_response_cleaner (sample_env true) 0 st).2)
     = [BulkDelete 5 [77%Z]].
Proof. vm_compute. repeat split. Qed.

End SampleProps.

(** ** Strings *)

Module PyStrProps.

Import StrShapes.

Lemma join_split_words_from (s : str) (in_word : bool) (acc : str) :
  join (split_words_from s in_word acc) = rev acc ++ s.
Proof.
  revert in_word acc. induction s as [|c s IH]; intros in_word acc; simpl.
  - destruct in_word; simpl; rewrite ?app_nil_r; reflexivity.
  - unfold join in *.
    destruct (isspace c), in_word; simpl; rewrite IH; simpl;
      rewrite <- ?app_assoc; reflexivity.
Qed.

Lemma join_split_words (s : str) : join (split_words s) = s.
Proof. apply join_split_words_from. Qed.

Lemma split_words_from_parts (s : str) (in_word : bool) (acc : str) :
  (if in_word then word (rev acc) else blank (rev acc)) ->
  Forall (fun p => blank p \/ word p) (split_words_from s in_word acc).
Proof.
  revert in_word acc. induction s as [|c s IH]; intros in_word acc Hacc; simpl.
  - destruct in_word.
    + constructor; [right; exact Hacc|]. constructor; [left; constructor | constructor].
    + constructor; [left; exact Hacc | constructor].
  - destruct (isspace c) eqn:Hc, in_word.
    + constructor; [right; exact Hacc|]. apply IH. simpl. repeat constructor. exact Hc.
    + apply IH. simpl. apply Forall_app. split; [exact Hacc | repeat constructor; exact Hc].
    + apply IH. simpl. destruct Hacc as [Hne Hall]. split.
      * destruct (rev acc); discriminate.
      * apply Forall_app. split; [exact Hall | repeat constructor; exact Hc].
    + constructor; [left; exact Hacc|]. apply IH. simpl. split; [discriminate|].
      repeat constructor. exact Hc.
Qed.

Lemma split_words_parts (s : str) :
  Forall (fun p => blank p \/ word p) (split_words s).
Proof. apply split_words_from_parts. constructor. Qed.

Lemma lstrip_blank (s : str) : blank s -> lstrip s = [].
Proof. induction 1 as [|c s Hc _ IH]; simpl; [reflexivity | rewrite Hc; exact IH]. Qed.

Lemma lstrip_head (s : str) (c : N) (t : str) :
  lstrip s = c :: t -> isspace c = false.
Proof.
  induction s as [|d s IH]; simpl; [discriminate|].
  destruct (isspace d) eqn:Hd; [exact IH | intros [= <- <-]; exact Hd].
Qed.

Lemma lstrip_nonspace (c : N) (s : str) : isspace c = false -> lstrip (c :: s) = c :: s.
Proof. intros H. simpl. rewrite H. reflexivity. Qed.

Lemma lstrip_app_nonspace (l : str) (c : N) (m : str) :
  isspace c = false -> lstrip (l ++ c :: m) = lstrip l ++ c :: m.
Proof.
  intros Hc. induction l as [|d l IH]; simpl; [rewrite Hc; reflexivity|].
  destruct (isspace d); [exact IH | reflexivity].
Qed.

Lemma rstrip_cons_nonspace (c : N) (s : str) :
  isspace c = false -> rstrip (c :: s) = c :: rstrip s.
Proof.
  intros Hc. unfold rstrip. simpl.
  rewrite (lstrip_app_nonspace _ _ [] Hc), rev_app_distr. reflexivity.
Qed.

Lemma strip_blank (s : str) : blank s -> strip s = [].
Proof. intros H. unfold strip. rewrite (lstrip_blank _ H). reflexivity. Qed.

Lemma lstrip_word (s : str) : word s -> lstrip s = s.
Proof. intros [Hne Hall]. destruct Hall as [|c s Hc _]; [congruence|]. apply lstrip_nonspace, Hc. Qed.

Lemma word_rev (s : str) : word s -> word (rev s).
Proof.
  intros [Hne Hall]. split.
  - intros H. apply Hne. rewrite <- (rev_involutive s), H. reflexivity.
  - apply Forall_rev, Hall.
Qed.

Lemma strip_word (s : str) : word s -> strip s = s.
Proof.
  intros H. unfold strip, rstrip. rewrite (lstrip_word _ H).
  rewrite (lstrip_word _ (word_rev _ H)). apply rev_involutive.
Qed.

Lemma lstrip_idem (s : str) : lstrip (lstrip s) = lstrip s.
Proof.
  destruct (lstrip s) as [|c t] eqn:H; [reflexivity|].
  apply lstrip_nonspace, (lstrip_head _ _ _ H).
Qed.

Lemma rstrip_idem (s : str) : rstrip (rstrip s) = rstrip s.
Proof. unfold rstrip. rewrite rev_involutive, lstrip_idem. reflexivity. Qed.

Lemma strip_stripped (s : str) : stripped (strip s).
Proof.
  unfold stripped, strip. split; [|apply rstrip_idem].
  destruct (lstrip s) as [|c t] eqn:H; [reflexivity|].
  pose proof (lstrip_head _ _ _ H) as Hc.
  rewrite (rstrip_cons_nonspace _ _ Hc). apply lstrip_nonspace, Hc.
Qed.

End PyStrProps.

(** ** The flag parser on every input *)

Module FlagMoreProps.
Import FlagParser StrShapes FlagMore FlagProps PyStrProps.

Lemma flag_parser_unfold (args : str) (flags : list str) :
  flag_parser args flags =
  let p := split_terminator (split_words args) in
  let f := find_flags p.1 flags ∅ [] in
  let ix := sorted f.2 in
  let b := build p.1 ix
             (match ix with (first, _) :: _ => take first p.1 | [] => p.1 end) f.1 in
  (b.2, strip (join (b.1 ++ p.2))).
Proof.
  unfold flag_parser.
  destruct (split_terminator (split_words args)) as [params end_params].
  cbn [fst snd].
  destruct (find_flags params flags ∅ []) as [ff ix]. cbn [fst snd].
  destruct (build params (sorted ix) _ ff) as [fp ff']. reflexivity.
Qed.

Lemma flag_index_clean (params : list str) (f g : str) :
  clean_flag f = clean_flag g -> flag_index params f = flag_index params g.
Proof.
  intros H. unfold flag_index, short_form, long_form, em_form. rewrite H. reflexivity.
Qed.

Lemma find_flags_keeps_false params flags ff ix k :
  ff !! k = Some (FlagBool false) ->
  (find_flags params flags ff ix).1 !! k = Some (FlagBool false).
Proof.
  revert ff ix. induction flags as [|f flags IH]; intros ff ix H; simpl; [exact H|].
  destruct (flag_index params f); apply IH; [exact H|].
  destruct (decide (clean_flag f = k)) as [Heq|Hne].
  - subst k. apply lookup_insert_eq.
  - rewrite lookup_insert_ne by assumption. exact H.
Qed.

Lemma find_flags_absent params flags ff ix flag :
  flag ∈ flags -> flag_index params flag = None ->
  (find_flags params flags ff ix).1 !! clean_flag flag = Some (FlagBool false).
Proof.
  revert ff ix. induction flags as [|f flags IH]; intros ff ix Hin Hnone;
    [inversion Hin|].
  simpl. apply elem_of_cons in Hin as [<-|Hin].
  - rewrite Hnone. apply find_flags_keeps_false, lookup_insert_eq.
  - destruct (flag_index params f); apply IH; assumption.
Qed.

Lemma find_flags_lookup params flags ff ix k v :
  (find_flags params flags ff ix).1 !! k = Some v ->
  ff !! k = Some v \/ v = FlagBool false.
Proof.
  revert ff ix. induction flags as [|f flags IH]; intros ff ix; simpl; [auto|].
  destruct (flag_index params f); intros H; apply IH in H as [H|H]; auto.
  destruct (decide (clean_flag f = k)) as [Heq|Hne].
  - subst k. rewrite lookup_insert_eq in H. right. congruence.
  - rewrite lookup_insert_ne in H by assumption. auto.
Qed.

Lemma find_flags_undeclared params flags ff ix k :
  k ∉ clean_flag <$> flags ->
  (find_flags params flags ff ix).1 !! k = ff !! k.
Proof.
  revert ff ix. induction flags as [|f flags IH]; intros ff ix Hk; simpl; [reflexivity|].
  rewrite fmap_cons, not_elem_of_cons in Hk. destruct Hk as [Hne Hk].
  destruct (flag_index params f); rewrite IH by assumption; [reflexivity|].
  apply lookup_insert_ne. congruence.
Qed.

Lemma elem_of_insert_sorted a x l :
  x ∈ insert_sorted a l <-> x = a \/ x ∈ l.
Proof.
  induction l as [|b l IH]; simpl.
  - rewrite list_elem_of_singleton. split; [auto | intros [H|H]; [exact H | inversion H]].
  - destruct (pair_leb a b); rewrite !elem_of_cons; [reflexivity|].
    rewrite IH. tauto.
Qed.

Lemma elem_of_sorted x l : x ∈ sorted l <-> x ∈ l.
Proof.
  induction l as [|a l IH]; simpl; [reflexivity|].
  rewrite elem_of_insert_sorted, elem_of_cons, IH. reflexivity.
Qed.

Lemma flag_span_subseteq params index rest :
  flag_span params index rest ⊆ params.
Proof.
  unfold flag_span, slice.
  destruct (index + 1 <? length params); [|apply list_subseteq_nil].
  destruct rest as [|[next ?] ?]; [apply subseteq_drop|].
  etransitivity; [apply subseteq_drop | apply subseteq_take].
Qed.

Lemma first_word_word (l : list str) (j : nat) (a : str) :
  Forall (fun p => blank p \/ word p) l ->
  first_word l = (j, Some a) -> a ∈ l /\ word a.
Proof.
  intros Hl. revert j. induction Hl as [|x l Hx _ IH]; intros j; simpl; [discriminate|].
  destruct (strip x) eqn:Hs.
  - destruct (first_word l) as [j' found]. intros [= <- ->].
    destruct (IH _ eq_refl) as [Hin Hw]. split; [right; exact Hin | exact Hw].
  - intros [= <- <-]. split; [left|].
    destruct Hx as [Hb|Hw]; [|exact Hw].
    rewrite (strip_blank _ Hb) in Hs. discriminate.
Qed.

(** The value that one round of the second loop stores. *)
Lemma build_step params index flag rest fp ff :
  Forall (fun p => blank p \/ word p) params ->
  exists v fp',
    build params ((index, flag) :: rest) fp ff
      = build params rest fp' (<[clean_flag flag := v]> ff)
    /\ found_value params flag v.
Proof.
  intros Hparams. simpl. unfold found_value.
  destruct (endswith flag [equals; equals]).
  - eexists _, _. split; [reflexivity|]. eauto.
  - destruct (endswith flag [equals]).
    + destruct (first_word (flag_span params index rest)) as [j arg] eqn:Hw.
      eexists _, _. split; [reflexivity|].
      destruct arg as [a|]; simpl; [|left; reflexivity]. right.
      exists a.
      assert (Hspan : Forall (fun p => blank p \/ word p) (flag_span params index rest)).
      { apply Forall_forall. intros x Hx.
        apply (proj1 (Forall_forall _ _) Hparams).
        exact (flag_span_subseteq params index rest x Hx). }
      destruct (first_word_word _ _ _ Hspan Hw) as [Hin Hword].
      split; [exact (flag_span_subseteq params index rest a Hin)
             | split; [exact Hword | reflexivity]].
    + eexists _, _. split; [reflexivity|]. reflexivity.
Qed.

Lemma build_other params ix fp ff k :
  Forall (fun p => blank p \/ word p) params ->
  (forall i f, (i, f) ∈ ix -> clean_flag f <> k) ->
  (build params ix fp ff).2 !! k = ff !! k.
Proof.
  intros Hparams. revert fp ff.
  induction ix as [|[index flag] rest IH]; intros fp ff Hk; [reflexivity|].
  destruct (build_step params index flag rest fp ff Hparams) as (v & fp' & -> & _).
  rewrite IH.
  - apply lookup_insert_ne, (Hk index). left.
  - intros i f Hin. apply (Hk i). right. exact Hin.
Qed.

Lemma build_keeps params ix fp ff k :
  Forall (fun p => blank p \/ word p) params ->
  is_Some (ff !! k) -> is_Some ((build params ix fp ff).2 !! k).
Proof.
  intros Hparams. revert fp ff.
  induction ix as [|[index flag] rest IH]; intros fp ff Hk; [exact Hk|].
  destruct (build_step params index flag rest fp ff Hparams) as (v & fp' & -> & _).
  apply IH. rewrite lookup_insert_is_Some. destruct (decide (clean_flag flag = k)); auto.
Qed.

Lemma build_present params ix fp ff i f :
  Forall (fun p => blank p \/ word p) params ->
  (i, f) ∈ ix -> is_Some ((build params ix fp ff).2 !! clean_flag f).
Proof.
  intros Hparams. revert fp ff.
  induction ix as [|[index flag] rest IH]; intros fp ff Hin; [inversion Hin|].
  destruct (build_step params index flag rest fp ff Hparams) as (v & fp' & -> & _).
  apply elem_of_cons in Hin as [[= -> ->]|Hin]; [|apply IH, Hin].
  apply build_keeps; [exact Hparams|]. rewrite lookup_insert_eq. eauto.
Qed.

Lemma build_values params (declared : list str) ix fp ff k v :
  Forall (fun p => blank p \/ word p) params ->
  (forall i f, (i, f) ∈ ix -> f ∈ declared) ->
  (build params ix fp ff).2 !! k = Some v ->
  ff !! k = Some v
  \/ exists flag, flag ∈ declared /\ clean_flag flag = k /\ found_value params flag v.
Proof.
  intros Hparams. revert fp ff.
  induction ix as [|[index flag] rest IH]; intros fp ff Hdecl; [auto|].
  destruct (build_step params index flag rest fp ff Hparams) as (w & fp' & -> & Hw).
  intros H. apply IH in H; [|intros i f Hin; apply (Hdecl i); right; exact Hin].
  destruct H as [H|H]; [|right; exact H].
  destruct (decide (clean_flag flag = k)) as [Heq|Hne].
  - subst k. rewrite lookup_insert_eq in H. injection H as <-.
    right. exists flag. split; [apply (Hdecl index); left | auto].
  - rewrite lookup_insert_ne in H by assumption. left. exact H.
Qed.

Lemma split_terminator_parts (params : list str) :
  Forall (fun p => blank p \/ word p) params ->
  Forall (fun p => blank p \/ word p) (split_terminator params).1.
Proof.
  intros H. unfold split_terminator.
  destruct (contains params terminator); [|exact H].
  destruct (index params terminator); [|exact H].
  simpl. apply Forall_take, H.
Qed.

Lemma flag_index_absent (params : list str) (flag : str) :
  ~ occurs params flag -> flag_index params flag = None.
Proof.
  unfold occurs. intros Hocc.
  assert (Hs : short_form flag ∉ params) by tauto.
  assert (Hl : long_form flag ∉ params) by tauto.
  assert (He : em_form flag ∉ params) by tauto.
  unfold flag_index. rewrite !contains_index.
  apply index_none in Hs, Hl, He. rewrite Hs, Hl, He. reflexivity.
Qed.

Lemma find_flags_none_found params flags ff ix :
  (forall flag, flag ∈ flags -> flag_index params flag = None) ->
  (find_flags params flags ff ix).2 = ix.
Proof.
  revert ff ix. induction flags as [|f flags IH]; intros ff ix H; simpl; [reflexivity|].
  rewrite (H f) by left. apply IH. intros flag Hin. apply H. right. exact Hin.
Qed.

(** [flag_parser] reports every declared flag and nothing else: each
    declared flag has an entry under its name without the [=] signs, a
    flag none of whose three spellings is a parameter before the
    terminator is reported as [False], and no other key is in the
    dictionary. *)
Theorem every_declared_flag_reported (args : str) (flags : list str) :
  let params := (split_terminator (split_words args)).1 in
  let result := (flag_parser args flags).1 in
  (forall flag, flag ∈ flags -> is_Some (result !! clean_flag flag))
  /\ (forall flag, flag ∈ flags -> ~ occurs params flag ->
        result !! clean_flag flag = Some (FlagBool false))
  /\ (forall k, k ∉ clean_flag <$> flags -> result !! k = None).
Proof.
  intros params result. unfold result. rewrite flag_parser_unfold. cbn [fst snd].
  fold params.
  assert (Hparams : Forall (fun p => blank p \/ word p) params)
    by apply split_terminator_parts, split_words_parts.
  assert (Hix : forall i f, (i, f) ∈ sorted (find_flags params flags ∅ []).2 ->
                  f ∈ flags /\ flag_index params f = Some i).
  { intros i f Hin. apply elem_of_sorted, find_flags_indices in Hin as [Hin|Hin];
      [inversion Hin | exact Hin]. }
  split; [|split].
  - intros flag Hflag.
    destruct (flag_index params flag) as [i|] eqn:Hi.
    + eapply build_present; [exact Hparams|].
      apply elem_of_sorted, find_flags_indices. right. split; eassumption.
    + apply build_keeps; [exact Hparams|].
      rewrite (find_flags_absent _ _ _ _ _ Hflag Hi). eauto.
  - intros flag Hflag Hocc.
    pose proof (flag_index_absent _ _ Hocc) as Hi.
    rewrite build_other.
    + apply find_flags_absent; assumption.
    + exact Hparams.
    + intros i f Hin Hclean. destruct (Hix _ _ Hin) as [_ Hf].
      rewrite (flag_index_clean _ _ _ Hclean), Hi in Hf. discriminate.
  - intros k Hk. rewrite build_other.
    + rewrite find_flags_undeclared by assumption. apply lookup_empty.
    + exact Hparams.
    + intros i f Hin Hclean. destruct (Hix _ _ Hin) as [Hf _].
      apply Hk. rewrite <- Hclean. apply list_elem_of_fmap_2, Hf.
Qed.

(** The values [flag_parser] reports.  An entry is [False], or it
    belongs to a declared flag one of whose spellings occurs, and then
    has the shape the kind of the flag asks for: [True] for a boolean
    flag, a word of the input or the empty string for a single-value
    flag, a stripped string for a greedy flag.  The remaining text has
    no whitespace at either end. *)
Theorem flag_values_well_formed (args : str) (flags : list str) :
  let params := (split_terminator (split_words args)).1 in
  (forall k v,
      (flag_parser args flags).1 !! k = Some v ->
      v = FlagBool false
      \/ exists flag, flag ∈ flags /\ clean_flag flag = k /\ occurs params flag
                       /\ found_value params flag v)
  /\ stripped (flag_parser args flags).2.
Proof.
  intros params. rewrite flag_parser_unfold. cbn [fst snd]. fold params.
  assert (Hparams : Forall (fun p => blank p \/ word p) params)
    by apply split_terminator_parts, split_words_parts.
  split; [|apply strip_stripped].
  intros k v H.
  apply (build_values params
           (List.filter (fun f => bool_decide (is_Some (flag_index params f))) flags))
    in H; [| exact Hparams |].
  - destruct H as [H|(flag & Hflag & Hk & Hv)].
    + apply find_flags_lookup in H as [H|H]; [rewrite lookup_empty in H; discriminate|].
      left. exact H.
    + right. exists flag. apply list_elem_of_In, filter_In in Hflag as [Hflag Hfound].
      apply list_elem_of_In in Hflag. apply bool_decide_eq_true in Hfound.
      repeat split; try assumption.
      destruct (decide (occurs params flag)) as [Ho|Ho]; [exact Ho|].
      rewrite (flag_index_absent _ _ Ho) in Hfound. destruct Hfound; discriminate.
  - intros i f Hin.
    apply elem_of_sorted, find_flags_indices in Hin as [Hin|[Hf Hi]]; [inversion Hin|].
    apply list_elem_of_In, filter_In. split; [apply list_elem_of_In, Hf|].
    apply bool_decide_eq_true. rewrite Hi. eauto.
Qed.

(** When no spelling of a declared flag occurs before the terminator,
    [flag_parser] gives the text back: the parameters before and after
    the first terminator, joined and stripped, which is the stripped
    input when there is no terminator at all. *)
Theorem text_without_flags_comes_back (args : str) (flags : list str) :
  let p := split_terminator (split_words args) in
  (forall flag, flag ∈ flags -> ~ occurs p.1 flag) ->
  (flag_parser args flags).2 = strip (join (p.1 ++ p.2))
  /\ (contains (split_words args) terminator = false ->
      (flag_parser args flags).2 = strip args).
Proof.
  intros p Hnone.
  assert (Hrem : (flag_parser args flags).2 = strip (join (p.1 ++ p.2))).
  { rewrite flag_parser_unfold. cbn [fst snd]. fold p.
    rewrite find_flags_none_found.
    - reflexivity.
    - intros flag Hflag. apply flag_index_absent, Hnone, Hflag. }
  split; [exact Hrem|].
  intros Hterm. rewrite Hrem. unfold p, split_terminator. rewrite Hterm. simpl.
  rewrite app_nil_r, join_split_words. reflexivity.
Qed.

End FlagMoreProps.

(** ** lib.sterilise_content *)

Module SteriliseProps.

Import Client StrShapes Mentions PyStrProps.

Lemma replace_from_skip (s : str) (k : nat) (old new : str) :
  replace_from s k old new = replace_from (drop k s) 0 old new.
Proof.
  revert k. induction s as [|c s IH]; intros [|k]; try reflexivity.
  simpl. apply IH.
Qed.

Lemma replace_unfold (s old new : str) :
  old <> [] ->
  replace s old new =
  if startswith s old then new ++ replace (drop (length old) s) old new
  else match s with
       | [] => []
       | c :: s' => c :: replace s' old new
       end.
Proof.
  intros Hold. unfold replace. destruct s as [|c s].
  - destruct old; [congruence | reflexivity].
  - cbn [replace_from]. destruct (startswith (c :: s) old); [|reflexivity].
    rewrite replace_from_skip. destruct old; [congruence|]. simpl.
    rewrite Nat.sub_0_r. reflexivity.
Qed.

Section Patterns.
Variables (old_tail new_tail : str) (zw : N).
Let old := at_sign :: old_tail.
Let new := at_sign :: zw :: new_tail.
Hypothesis zw_not_at : zw <> at_sign.
Hypothesis new_tail_no_at : Forall (fun c => c <> at_sign) new_tail.

Lemma startswith_replace (w s : str) :
  Forall (fun c => c <> at_sign) w ->
  startswith (replace s old new) w = startswith s w.
Proof using Type.
  intros Hw. revert s. induction Hw as [|x w Hx _ IH]; intros s.
  - destruct (replace s old new), s; reflexivity.
  - rewrite replace_unfold by discriminate.
    destruct (startswith s old) eqn:Hs.
    + destruct s as [|c s]; [discriminate|]. unfold old in Hs. cbn [startswith] in Hs.
      apply andb_prop in Hs as [Hc _]. apply N.eqb_eq in Hc. subst c.
      unfold new. cbn [app startswith]. apply N.eqb_neq in Hx. rewrite N.eqb_sym in Hx.
      rewrite Hx. reflexivity.
    + destruct s as [|c s]; [reflexivity|]. cbn [startswith]. rewrite IH. reflexivity.
Qed.

Lemma has_substring_skip (l rest pat_tail : str) :
  Forall (fun c => c <> at_sign) l ->
  has_substring (l ++ rest) (at_sign :: pat_tail)
  = has_substring rest (at_sign :: pat_tail).
Proof using Type.
  induction 1 as [|c l Hc _ IH]; [reflexivity|].
  cbn [app has_substring startswith].
  apply N.eqb_neq in Hc. rewrite Hc. simpl. exact IH.
Qed.

Lemma replace_no_pattern (x : N) (pat_tail : str) (s : str) :
  x <> zw ->
  Forall (fun c => c <> at_sign) (x :: pat_tail) ->
  covered old_tail (at_sign :: x :: pat_tail) s ->
  has_substring (replace s old new) (at_sign :: x :: pat_tail) = false.
Proof using zw_not_at new_tail_no_at.
  intros Hx Hpat.
  remember (length s) as n eqn:Hn. revert s Hn.
  induction n as [n IH] using lt_wf_ind. intros s Hn Hcov.
  rewrite replace_unfold by discriminate.
  destruct (startswith s old) eqn:Hs.
  - unfold new. cbn [app has_substring startswith].
    rewrite (proj2 (N.eqb_neq zw x)) by congruence.
    rewrite andb_false_r. cbn [orb].
    rewrite (proj2 (N.eqb_neq zw at_sign)) by assumption. cbn [andb orb].
    rewrite has_substring_skip by assumption.
    destruct s as [|c s]; [discriminate|].
    apply (IH (length (drop (length old) (c :: s)))); [|reflexivity|].
    + subst n. rewrite length_drop. simpl. lia.
    + intros k. rewrite drop_drop. apply Hcov.
  - destruct s as [|c s]; [reflexivity|].
    cbn [has_substring]. rewrite (IH (length s)); [|subst n; simpl; lia|reflexivity|].
    + rewrite orb_false_r.
      destruct (startswith (c :: replace s old new) (at_sign :: x :: pat_tail)) eqn:Hocc;
        [|reflexivity].
      cbn [startswith] in Hocc. rewrite startswith_replace in Hocc by assumption.
      pose proof (Hcov 0 Hocc) as H0. simpl in H0. simpl in Hs. congruence.
    + intros k. apply (Hcov (S k)).
Qed.

End Patterns.

Lemma has_substring_unfold (s sub : str) :
  has_substring s sub =
  startswith s sub || match s with [] => false | _ :: s' => has_substring s' sub end.
Proof. destruct s; reflexivity. Qed.

Lemma no_occurrence (s pat : str) (n : nat) :
  has_substring s pat = false -> startswith (drop n s) pat = false.
Proof.
  revert s. induction n as [|n IH]; intros s H;
    rewrite has_substring_unfold in H; apply orb_false_elim in H as [H0 H].
  - rewrite drop_0. exact H0.
  - destruct s as [|c s]; [exact H0 | apply IH, H].
Qed.

Lemma not_has_substring_covered (old_tail pat s : str) :
  has_substring s pat = false -> covered old_tail pat s.
Proof.
  intros H n Hocc. rewrite (no_occurrence _ _ n H) in Hocc. discriminate.
Qed.

Lemma prefix_covered (old_tail pat_tail s : str) :
  old_tail = [] -> covered old_tail (at_sign :: pat_tail) s.
Proof.
  intros -> n. destruct (drop n s) as [|c t]; [discriminate|].
  cbn [startswith]. intros H. apply andb_prop in H as [-> _]. destruct t; reflexivity.
Qed.

Lemma same_covered (old_tail s : str) : covered old_tail (at_sign :: old_tail) s.
Proof. intros n H. exact H. Qed.

Lemma replace_without_at (s old_tail new : str) :
  at_sign ∉ s -> replace s (at_sign :: old_tail) new = s.
Proof.
  induction s as [|c s IH]; intros Hat; rewrite replace_unfold by discriminate;
    [reflexivity|].
  apply not_elem_of_cons in Hat as [Hc Hat]. cbn [startswith].
  rewrite (proj2 (N.eqb_neq c at_sign)) by congruence. cbn [andb].
  rewrite IH by assumption. reflexivity.
Qed.

Lemma has_substring_without_at (s pat_tail : str) :
  at_sign ∉ s -> has_substring s (at_sign :: pat_tail) = false.
Proof.
  induction s as [|c s IH]; intros Hat; [reflexivity|].
  apply not_elem_of_cons in Hat as [Hc Hat]. cbn [has_substring startswith].
  rewrite (proj2 (N.eqb_neq c at_sign)) by congruence. cbn [andb orb].
  apply IH, Hat.
Qed.

Ltac no_at := repeat constructor; vm_compute; discriminate.

Lemma sterilise_no_mention (content : str) :
  has_substring (sterilise_content content) (py "@everyone") = false
  /\ has_substring (sterilise_content content) (py "@here") = false.
Proof.
  unfold sterilise_content.
  set (r1 := replace content (py "@everyone") _).
  set (r2 := replace r1 (py "@here") _).
  assert (H1 : has_substring r1 (py "@everyone") = false).
  { apply (replace_no_pattern (py "everyone") (py "everyone") zero_width_space);
      [discriminate | no_at | discriminate | no_at | apply same_covered]. }
  destruct (has_substring _ _ || has_substring _ _).
  - split.
    + apply (replace_no_pattern [] [] zero_width_space);
        [discriminate | constructor | discriminate | no_at | apply prefix_covered; reflexivity].
    + apply (replace_no_pattern [] [] zero_width_space);
        [discriminate | constructor | discriminate | no_at | apply prefix_covered; reflexivity].
  - split.
    + apply (replace_no_pattern (py "here") (py "here") zero_width_space);
        [discriminate | no_at | discriminate | no_at |].
      apply not_has_substring_covered, H1.
    + apply (replace_no_pattern (py "here") (py "here") zero_width_space);
        [discriminate | no_at | discriminate | no_at | apply same_covered].
Qed.

(** A text without an at sign comes out of [sterilise_content]
    unchanged. *)
Theorem sterilise_content_without_at (content : str) :
  at_sign ∉ content -> sterilise_content content = content.
Proof.
  intros Hat. unfold sterilise_content.
  change (py "@everyone") with (at_sign :: py "everyone").
  change (py "@here") with (at_sign :: py "here").
  rewrite !(replace_without_at content) by assumption.
  assert (Hascii : at_sign ∉ filter (fun c => bool_decide (c < 128)%N) content).
  { intros H. apply Hat. apply list_elem_of_filter in H as [_ H]. exact H. }
  rewrite !has_substring_without_at by assumption. reflexivity.
Qed.

End SteriliseProps.

(** ** Checks: faults and the decorator *)

Module CheckMoreProps.
Import CheckEngine CheckProps EffProps.

Section Run.
Context {St Exn Ctx Pred : Type}.
Variable call : Pred -> Ctx -> M St Exn bool.

Lemma run_parents_fault before p after ctx s s1 s2 (o : outcome Exn bool) :
  each_returns call ctx false before s s1 ->
  run call p ctx s1 = (o, s2) ->
  (forall b, o <> Ret b) ->
  run_parents call (before ++ p :: after) ctx s = (o, s2).
Proof.
  induction 1 as [s|c l s sa sb Hc Hl IH]; intros Hp Ho; simpl; unfold bind.
  - rewrite Hp. destruct o as [b| |]; [destruct (Ho b) | |]; reflexivity.
  - rewrite Hc. apply IH; assumption.
Qed.

Lemma run_required_fault before r after ctx s s1 s2 (o : outcome Exn bool) :
  each_returns call ctx true before s s1 ->
  run call r ctx s1 = (o, s2) ->
  (forall b, o <> Ret b) ->
  run_required call (before ++ r :: after) ctx s = (o, s2).
Proof.
  induction 1 as [s|c l s sa sb Hc Hl IH]; intros Hr Ho; simpl; unfold bind.
  - rewrite Hr. destruct o as [b| |]; [destruct (Ho b) | |]; reflexivity.
  - rewrite Hc. apply IH; assumption.
Qed.

(** [Check.run] lets a fault through.  When the parents before one
    return false and that parent raises, or stays suspended, the run
    ends there with that outcome and state: no later parent, no
    requirement and not the check's own function is evaluated.  The
    same holds for a requirement that raises after every parent
    returned false and the requirements before it returned true. *)
Theorem run_fault_propagates (c : Check Pred) (ctx : Ctx) (s : St) :
  (forall before p after s1 s2 (o : outcome Exn bool),
      parents c = before ++ p :: after ->
      each_returns call ctx false before s s1 ->
      run call p ctx s1 = (o, s2) ->
      (forall b, o <> Ret b) ->
      run call c ctx s = (o, s2))
  /\ (forall s1 before r after s2 s3 (o : outcome Exn bool),
      each_returns call ctx false (parents c) s s1 ->
      required c = before ++ r :: after ->
      each_returns call ctx true before s1 s2 ->
      run call r ctx s2 = (o, s3) ->
      (forall b, o <> Ret b) ->
      run call c ctx s = (o, s3)).
Proof.
  split.
  - intros before p after s1 s2 o Hps Hb Hp Ho.
    rewrite run_unfold, Hps. unfold bind.
    rewrite (run_parents_fault _ _ _ _ _ _ _ _ Hb Hp Ho).
    destruct o as [b| |]; [destruct (Ho b) | |]; reflexivity.
  - intros s1 before r after s2 s3 o Hps Hrs Hb Hr Ho.
    rewrite run_unfold. unfold bind.
    rewrite (run_parents_none _ _ _ _ _ Hps), Hrs.
    rewrite (run_required_fault _ _ _ _ _ _ _ _ Hb Hr Ho).
    destruct o as [b| |]; [destruct (Ho b) | |]; reflexivity.
Qed.

End Run.
End CheckMoreProps.

Module DecoratorProps.
Import CheckEngine FlagParser Client Decorator EffProps.
Section Program.
Variable env : Env.

(** The decorator of [Check.__call__].  A decorated command function
    is reached only through its checks: when every composed check
    passes, the call is the call of the function under the decorators,
    made in the state the last check left; when one evaluates false,
    the call raises [FailedCheck] for that check; and whenever the
    call returns, every check had passed and the function itself
    returned. *)
Theorem function_runs_after_checks (f : Func) (r : nat)
    (flags : option (gmap str FlagValue)) (s : State) :
  (forall g s', checks_pass env r f s g s' ->
        call_Func env f r flags s = call_func env g r flags s')
  /\ (forall chk s', check_fails env r f s chk s' ->
        call_Func env f r flags s = (Raise (FailedCheck chk), s'))
  /\ (forall s'', call_Func env f r flags s = (Ret tt, s'') ->
        exists g s', checks_pass env r f s g s'
                     /\ call_func env g r flags s' = (Ret tt, s'')).
Proof.
  split; [|split].
  - induction 1 as [g s | chk args f s s0 g s' Hrun _ IH]; [reflexivity|].
    simpl. unfold bind. rewrite Hrun. exact IH.
  - induction 1 as [chk args f s s' Hrun | outer args f s s0 chk s' Hrun _ IH];
      simpl; unfold bind; rewrite Hrun; [reflexivity | exact IH].
  - revert s. induction f as [g | chk args f IH]; intros s s'' Hcall.
    + exists g, s. split; [constructor | exact Hcall].
    + simpl in Hcall. unfold bind in Hcall.
      destruct (run (call_check env) chk (r, args) s) as [[[]| |] s0] eqn:Hrun;
        try discriminate.
      destruct (IH _ _ Hcall) as (g & s' & Hpass & Hg).
      exists g, s'. split; [econstructor; eassumption | exact Hg].
Qed.

End Program.
End DecoratorProps.

(** ** Replies and Command.run *)

Module ReplyProps.
Import CheckEngine FlagParser Client ReplyDefs EffProps ClientProps.
Section Program.
Variable env : Env.

Lemma ctx_at_alter (w : World) (r : nat) (f : Context -> Context) (ctx : Context) :
  contexts w !! r = Some ctx ->
  ctx_at (set_contexts (alter f r (contexts w)) w) r = f ctx.
Proof.
  intros H. unfold ctx_at. simpl. rewrite lookup_alter_eq, H. reflexivity.
Qed.

Lemma ctx_at_some (w : World) (r : nat) (m : Message) :
  Ctx.msg (ctx_at w r) = Some m -> contexts w !! r = Some (ctx_at w r).
Proof.
  unfold ctx_at. destruct (contexts w !! r); simpl; [reflexivity | discriminate].
Qed.

Lemma reply_eq (r : nat) (content : option str) (allow : bool) (s : State) (ch : Z) :
  Ctx.ch (ctx_at (world s) r) = Some ch ->
  let p := Content (sent_content content allow) in
  let w1 := with_requests [Send ch p] (world s) in
  reply env r content allow s =
  match send env w1 ch p with
  | Ret m =>
      (Ret m,
       MkState (set_contexts (alter (add_sent_message m) r (contexts w1)) w1)
         (schedule s))
  | Raise e => (Raise e, MkState w1 (schedule s))
  | Pending => (Pending, MkState w1 (schedule s))
  end.
Proof.
  intros Hch p w1. unfold reply. fold (sent_content content allow). fold p.
  unfold bind at 1, get_world. rewrite Hch.
  unfold bind, request, modify_world, answer. cbn [world schedule].
  fold (with_requests [Send ch p] (world s)). fold w1.
  destruct (send env w1 ch p); reflexivity.
Qed.

Lemma error_reply_sent (r : nat) (t : str) (s : State) (ch : Z) (m : Message) :
  Ctx.ch (ctx_at (world s) r) = Some ch ->
  let w1 := with_requests [Send ch (Embed t)] (world s) in
  send env w1 ch (Embed t) = Ret m ->
  error_reply env r t s =
  (Ret m,
   MkState (set_contexts (alter (add_sent_message m) r (contexts w1)) w1)
     (schedule s)).
Proof.
  intros Hch w1 Hsend. unfold error_reply.
  unfold bind at 1, get_world. rewrite Hch.
  unfold try_except, bind, request, modify_world, answer. cbn [world schedule].
  fold (with_requests [Send ch (Embed t)] (world s)). fold w1.
  rewrite Hsend. reflexivity.
Qed.

(** [Context.error_reply].  When the embed is accepted, one send is
    requested and the reply is noted once in [sent_messages].  When
    the embed is refused with [Forbidden] and the plain-text fallback
    is accepted, two sends are requested, the second with the
    sterilised text, and the reply is noted twice: once by [reply] and
    once more by [error_reply]. *)
Theorem error_reply_records (r : nat) (t : str) (s : State) (ch : Z)
    (ctx : Context) :
  contexts (world s) !! r = Some ctx ->
  Ctx.ch ctx = Some ch ->
  let plain := Content (sent_content (Some t) false) in
  let w1 := with_requests [Send ch (Embed t)] (world s) in
  let w2 := with_requests [Send ch plain] w1 in
  (forall m, send env w1 ch (Embed t) = Ret m ->
     exists s',
       error_reply env r t s = (Ret m, s')
       /\ calls (world s') = calls (world s) ++ [Send ch (Embed t)]
       /\ Ctx.sent_messages (ctx_at (world s') r) = Ctx.sent_messages ctx ++ [m])
  /\ (forall m, send env w1 ch (Embed t) = Raise Forbidden ->
        send env w2 ch plain = Ret m ->
        exists s',
          error_reply env r t s = (Ret m, s')
          /\ calls (world s')
             = calls (world s) ++ [Send ch (Embed t); Send ch plain]
          /\ Ctx.sent_messages (ctx_at (world s') r)
             = Ctx.sent_messages ctx ++ [m; m]).
Proof.
  intros Hctx Hch plain w1 w2.
  assert (Hat : ctx_at (world s) r = ctx) by (unfold ctx_at; rewrite Hctx; reflexivity).
  split.
  - intros m Hsend. eexists. split; [|split].
    + apply error_reply_sent; [rewrite Hat; exact Hch | exact Hsend].
    + reflexivity.
    + cbn [world]. rewrite (ctx_at_alter _ _ _ ctx) by exact Hctx. reflexivity.
  - intros m Hembed Hplain. unfold error_reply.
    unfold bind at 1, get_world. rewrite Hat, Hch.
    unfold try_except at 1. unfold bind at 1.
    unfold bind at 1, request at 1, modify_world at 1, answer at 1.
    cbn [world schedule].
    fold (with_requests [Send ch (Embed t)] (world s)). fold w1.
    rewrite Hembed. cbn [is_Forbidden].
    assert (Hch1 : Ctx.ch (ctx_at (world (MkState w1 (schedule s))) r) = Some ch).
    { cbn [world]. unfold ctx_at, w1. simpl. rewrite Hctx. exact Hch. }
    rewrite (reply_eq r (Some t) false _ ch Hch1). cbn [world schedule].
    fold plain. fold w2. rewrite Hplain.
    eexists. split; [reflexivity|]. cbn [world]. split.
    + unfold w2, w1, with_requests. simpl. rewrite <- app_assoc. reflexivity.
    + unfold ctx_at. simpl. rewrite !lookup_alter_eq, Hctx. simpl.
      rewrite <- app_assoc. reflexivity.
Qed.

Lemma error_reply_accepted (r : nat) (t : str) (s : State) (ch : Z) (m0 : Message) :
  Ctx.msg (ctx_at (world s) r) = Some m0 ->
  Ctx.ch (ctx_at (world s) r) = Some ch ->
  (forall w p, exists sent, send env w ch p = Ret sent) ->
  exists sent s',
    error_reply env r t s = (Ret sent, s')
    /\ calls (world s') = calls (world s) ++ [Send ch (Embed t)]
    /\ log_records (world s') = log_records (world s).
Proof.
  intros Hm Hch Hsend.
  destruct (Hsend (with_requests [Send ch (Embed t)] (world s)) (Embed t))
    as [sent Hreply].
  exists sent. eexists. split; [|split].
  - apply error_reply_sent; [exact Hch | exact Hreply].
  - reflexivity.
  - reflexivity.
Qed.

Lemma reply_accepted (r : nat) (content : option str) (s : State) (ch : Z) :
  Ctx.ch (ctx_at (world s) r) = Some ch ->
  (forall w p, exists sent, send env w ch p = Ret sent) ->
  exists sent s',
    reply env r content false s = (Ret sent, s')
    /\ calls (world s')
       = calls (world s) ++ [Send ch (Content (sent_content content false))]
    /\ log_records (world s') = log_records (world s).
Proof.
  intros Hch Hsend.
  rewrite (reply_eq r content false s ch Hch).
  destruct (Hsend (with_requests [Send ch (Content (sent_content content false))]
                     (world s)) (Content (sent_content content false)))
    as [sent ->].
  exists sent. eexists. split; [reflexivity|]. split; reflexivity.
Qed.

(** [Command.run] once the task of the command is over, for a context
    with a message and a channel that accepts what is sent: it
    returns, having called [log] once and requested at most one
    send. *)
Lemma command_run_outcome (c : Command) (r : nat) (st s1 : State)
    (o : outcome exn unit) (m : Message) (ch : Z) :
  await_task env c r st = (o, s1) ->
  o <> Pending ->
  Ctx.msg (ctx_at (world s1) r) = Some m ->
  Ctx.ch (ctx_at (world s1) r) = Some ch ->
  (forall w p, exists sent, send env w ch p = Ret sent) ->
  exists st' lvl text sends,
    Command_run env c r st = (Ret tt, st')
    /\ log_records (world st')
       = log_records (world s1) ++ [MkLog lvl (MidContext (Msg.id m)) text]
    /\ (lvl = ERROR <-> exists e, o = Raise e /\ unexpected e = true)
    /\ calls (world st') = calls (world s1) ++ sends
    /\ length sends <= 1
    /\ Forall (is_send ch) sends
    /\ (o = Ret tt \/ o = Raise CancelledError -> sends = [])
    /\ (forall e, o = Raise e -> unexpected e = true -> text = CommandException e)
    /\ (forall e, text <> ParserException e).
Proof.
  intros Hrun Hout Hm Hch Hsend.
  unfold Command_run. fold (await_task env c r). rewrite Hrun.
  pose (post := fun (st' : State) (lvl : Level) (text : LogText) (sends : list Call) =>
    log_records (world st')
      = log_records (world s1) ++ [MkLog lvl (MidContext (Msg.id m)) text]
    /\ (lvl = ERROR <-> exists e, o = Raise e /\ unexpected e = true)
    /\ calls (world st') = calls (world s1) ++ sends
    /\ length sends <= 1
    /\ Forall (is_send ch) sends
    /\ (o = Ret tt \/ o = Raise CancelledError -> sends = [])
    /\ (forall e, o = Raise e -> unexpected e = true -> text = CommandException e)
    /\ (forall e, text <> ParserException e)).
  enough (H : exists st' lvl text sends,
    match o with
    | Ret _ => log_mid r DEBUG CommandCompleted s1
    | Raise e => handle_exception env r e s1
    | Pending => (Pending, s1)
    end = (Ret tt, st') /\ post st' lvl text sends) by exact H.
  pose proof (fun lvl t => log_mid_eq r lvl t m s1 Hm) as Hlog.
  assert (Hm' : forall lvl t,
    Ctx.msg (ctx_at (world (MkState (set_log_records
      (log_records (world s1) ++ [MkLog lvl (MidContext (Msg.id m)) t])
      (world s1)) (schedule s1))) r) = Some m) by (intros; exact Hm).
  assert (Hch' : forall lvl t,
    Ctx.ch (ctx_at (world (MkState (set_log_records
      (log_records (world s1) ++ [MkLog lvl (MidContext (Msg.id m)) t])
      (world s1)) (schedule s1))) r) = Some ch) by (intros; exact Hch).
  assert (Hnot : forall lvl, lvl <> ERROR ->
    (forall e, o = Raise e -> unexpected e = false) ->
    (lvl = ERROR <-> exists e, o = Raise e /\ unexpected e = true)).
  { intros lvl Hlvl Hexp. split; [contradiction|].
    intros (e & He & Hu). rewrite (Hexp e He) in Hu. discriminate. }
  assert (Hsilent : forall lvl t, lvl <> ERROR ->
    (forall e, o = Raise e -> unexpected e = false) ->
    (forall e, t <> ParserException e) ->
    exists st' lvl' text sends,
      log_mid r lvl t s1 = (Ret tt, st') /\ post st' lvl' text sends).
  { intros lvl t Hlvl Hexp Htext. eexists _, lvl, t, []. rewrite Hlog.
    split; [reflexivity|]. unfold post. cbn [world].
    split; [reflexivity|]. split; [apply Hnot; assumption|].
    split; [rewrite app_nil_r; reflexivity|]. split; [simpl; lia|].
    split; [constructor|]. split; [reflexivity|]. split; [|exact Htext].
    intros e He Hu. rewrite (Hexp e He) in Hu. discriminate. }
  assert (Herr : forall lvl t text, lvl <> ERROR ->
    (forall e, o = Raise e -> unexpected e = false) ->
    (forall e, text <> ParserException e) ->
    (o <> Ret tt /\ o <> Raise CancelledError) ->
    exists st' lvl' text' sends,
      (let* _ := log_mid r lvl text in
       let* _ := error_reply env r t in ret tt) s1 = (Ret tt, st')
      /\ post st' lvl' text' sends).
  { intros lvl t text Hlvl Hexp Htext [Hn1 Hn2].
    rewrite (bind_ret_step _ _ _ _ _ (Hlog lvl text)).
    destruct (error_reply_accepted r t _ ch m (Hm' lvl text) (Hch' lvl text) Hsend)
      as (sent & s' & Hreply & Hcalls & Hlogs).
    rewrite (bind_ret_step _ _ _ _ _ Hreply).
    exists s', lvl, text, [Send ch (Embed t)].
    split; [reflexivity|]. unfold post.
    split; [rewrite Hlogs; reflexivity|].
    split; [apply Hnot; assumption|]. split; [rewrite Hcalls; reflexivity|].
    split; [simpl; lia|]. split; [repeat constructor; eexists; reflexivity|].
    split; [intros [H|H]; contradiction|]. split; [|exact Htext].
    intros e He Hu. rewrite (Hexp e He) in Hu. discriminate. }
  assert (Hunexp : forall e, o = Raise e -> unexpected e = true ->
    exists st' lvl' text' sends,
      (let* _ := log_mid r ERROR (CommandException e) in
       let* _ := reply env r (Some (unexpected_error_text env e)) false in ret tt) s1
      = (Ret tt, st')
      /\ post st' lvl' text' sends).
  { intros e He Hu.
    rewrite (bind_ret_step _ _ _ _ _ (Hlog ERROR (CommandException e))).
    destruct (reply_accepted r (Some (unexpected_error_text env e)) _ ch
                (Hch' ERROR (CommandException e)) Hsend)
      as (sent & s' & Hreply & Hcalls & Hlogs).
    rewrite (bind_ret_step _ _ _ _ _ Hreply).
    exists s', ERROR, (CommandException e),
      [Send ch (Content (sent_content (Some (unexpected_error_text env e)) false))].
    split; [reflexivity|]. unfold post.
    split; [rewrite Hlogs; reflexivity|].
    split; [split; eauto|]. split; [rewrite Hcalls; reflexivity|].
    split; [simpl; lia|]. split; [repeat constructor; eexists; reflexivity|].
    split; [|split; [|discriminate]].
    - intros [H|H]; rewrite He in H; [discriminate|].
      injection H as ->. discriminate.
    - intros e' He' _. rewrite He in He'. injection He' as ->. reflexivity. }
  destruct o as [[]|e|]; [| |contradiction].
  - apply Hsilent; [discriminate | intros e; discriminate | discriminate].
  - destruct e as [chk|cls msg details| | | | | |cls]; unfold handle_exception;
      try (apply Hunexp; reflexivity).
    + destruct (truthy (msg chk)) eqn:Ht.
      * apply Herr; [discriminate | intros e [= <-]; reflexivity | discriminate |].
        split; discriminate.
      * assert (Hs := Hsilent DEBUG (CommandFailedCheck (name chk))
          ltac:(discriminate) ltac:(intros e [= <-]; reflexivity) ltac:(discriminate)).
        destruct Hs as (st' & lvl' & text & sends & Hs & Hrest).
        exists st', lvl', text, sends. split; [|exact Hrest].
        rewrite (bind_ret_step _ _ _ _ _ Hs). reflexivity.
    + destruct msg as [t|].
      * apply Herr; [discriminate | intros e [= <-]; reflexivity | discriminate |].
        split; discriminate.
      * assert (Hs := Hsilent DEBUG (SafeCancellationCaught cls details)
          ltac:(discriminate) ltac:(intros e [= <-]; reflexivity) ltac:(discriminate)).
        destruct Hs as (st' & lvl' & text & sends & Hs & Hrest).
        exists st', lvl', text, sends. split; [|exact Hrest].
        rewrite (bind_ret_step _ _ _ _ _ Hs). reflexivity.
    + apply Herr; [discriminate | intros e [= <-]; reflexivity | discriminate |].
      split; discriminate.
    + apply Hsilent; [discriminate | intros e [= <-]; reflexivity | discriminate].
Qed.

End Program.
End ReplyProps.

Module CommandProps.
Import CheckEngine FlagParser Client Decorator ReplyDefs EffProps ClientProps ReplyProps.
Section Program.
Variable env : Env.

Lemma exec_wrapper_reaches (c : Command) (r : nat)
    (flags : option (gmap str FlagValue)) (s0 s1 s2 : State) (o : outcome exn unit) :
  (let* _ := pre_command (Cmd.module c) r in parse_flags c r) s0 = (Ret flags, s1) ->
  call_Func env (Cmd.func c) r flags s1 = (o, s2) ->
  exec_wrapper env c r s0 = (o, s2).
Proof.
  intros Hreach Hcall.
  apply bind_ret_inv in Hreach as ([] & sa & Hpre & Hflags).
  unfold exec_wrapper, try_except.
  rewrite (bind_ret_step _ _ _ _ _ Hpre).
  rewrite (bind_ret_step _ _ _ _ _ Hflags).
  unfold bind at 1. rewrite Hcall.
  destruct o as [[]|e|]; try reflexivity.
  unfold on_exception, raise. destruct (is_Exception e); reflexivity.
Qed.

(** With the hooks of the base module, [exec_wrapper] is the
    pre-command hook, the flag parsing and the call of the command
    function in a row: [post_command] does nothing and [on_exception]
    raises what it is given, so every outcome comes out unchanged. *)
Theorem exec_wrapper_transparent (c : Command) (r : nat) (s : State) :
  exec_wrapper env c r s =
  (let* _ := pre_command (Cmd.module c) r in
   let* flags := parse_flags c r in
   call_Func env (Cmd.func c) r flags) s.
Proof.
  unfold exec_wrapper, try_except, bind, post_command, on_exception, raise, ret.
  destruct (pre_command (Cmd.module c) r s) as [[[]|e|] s1].
  - destruct (parse_flags c r s1) as [[flags|e|] s2].
    + destruct (call_Func env (Cmd.func c) r flags s2) as [[[]|e|] s3];
        try reflexivity.
      destruct (is_Exception e); reflexivity.
    + destruct (is_Exception e); reflexivity.
    + reflexivity.
  - destruct (is_Exception e); reflexivity.
  - reflexivity.
Qed.

(** When the command reaches its function and a check composed onto
    it evaluates false, and that check has a message, [Command.run]
    returns having logged one record at [DEBUG] that names the check,
    sent the message of the check as one embed to the channel of the
    context, and noted the reply in [sent_messages]. *)
Theorem gating_failure_replies (c : Command) (r : nat)
    (chk : Check Callable) (flags : option (gmap str FlagValue))
    (st s1 s2 : State) (m sent : Message) (ch : Z) (text : str) :
  reach_func c r st = (Ret flags, s1) ->
  check_fails env r (Cmd.func c) s1 chk s2 ->
  CheckEngine.msg chk = Some text ->
  text <> [] ->
  Ctx.msg (ctx_at (world s2) r) = Some m ->
  Ctx.ch (ctx_at (world s2) r) = Some ch ->
  (forall w, send env w ch (Embed text) = Ret sent) ->
  exists st',
    Command_run env c r st = (Ret tt, st')
    /\ calls (world st') = calls (world s2) ++ [Send ch (Embed text)]
    /\ log_records (world st')
       = log_records (world s2)
         ++ [MkLog DEBUG (MidContext (Msg.id m))
               (CommandFailedCheck (CheckEngine.name chk))]
    /\ Ctx.sent_messages (ctx_at (world st') r)
       = Ctx.sent_messages (ctx_at (world s2) r) ++ [sent].
Proof.
  intros Hreach Hfails Hmsg Htext Hm Hch Hsend.
  unfold reach_func in Hreach.
  rewrite (bind_ret_step _ _ _ _ _ (ensure_future_eq _ _)) in Hreach.
  step_in Hreach.
  unfold Command_run.
  rewrite (bind_ret_step _ _ _ _ _ (ensure_future_eq _ _)).
  step.
  rewrite (exec_wrapper_reaches _ _ _ _ _ _ _ Hreach
             (call_Func_check_fails env _ _ _ _ _ _ Hfails)).
  unfold handle_exception.
  rewrite (bind_ret_step _ _ _ _ _ (log_mid_eq _ _ _ _ _ Hm)).
  rewrite Hmsg. destruct text as [|x text]; [congruence|]. cbn [truthy default].
  erewrite bind_ret_step; cycle 1.
  { apply error_reply_sent; [exact Hch | apply Hsend]. }
  eexists. split; [reflexivity|]. cbn [world].
  split; [reflexivity|]. split; [reflexivity|].
  apply ctx_at_some in Hm.
  unfold ctx_at. simpl. rewrite lookup_alter_eq. unfold ctx_at in Hm.
  rewrite Hm. reflexivity.
Qed.

(** [Module.pre_command] on a module that is not ready logs once at
    level [INFO] and polls: it returns at the first look that finds
    the module ready, after as many sleeps as that took; and as long
    as the module is not ready the hook, and with it [exec_wrapper],
    stays suspended. *)
Theorem command_waits_for_module (c : Command) (r : nat) (s : State)
    (m : Message) :
  let i := Cmd.module c in
  let w1 := set_log_records
              (log_records (world s)
               ++ [MkLog INFO (MidContext (Msg.id m))
                     (WaitingForModule (Mod.name (module_at (world s) i)))])
              (world s) in
  Mod.ready (module_at (world s) i) = false ->
  Ctx.msg (ctx_at (world s) r) = Some m ->
  (forall pre post,
      schedule s = pre ++ post ->
      (forall k, k < length pre ->
         Mod.ready (module_at (run_steps (take k pre) w1) i) = false) ->
      Mod.ready (module_at (run_steps pre w1) i) = true ->
      pre_command i r s = (Ret tt, MkState (run_steps pre w1) post))
  /\ ((forall k, k <= length (schedule s) ->
         Mod.ready (module_at (run_steps (take k (schedule s)) w1) i) = false) ->
      pre_command i r s = (Pending, MkState (run_steps (schedule s) w1) [])
      /\ exec_wrapper env c r s = (Pending, MkState (run_steps (schedule s) w1) [])).
Proof.
  intros i w1 Hready Hm.
  assert (Hpre : pre_command i r s =
    sleep_while (fun w => negb (Mod.ready (module_at w i)))
      (MkState w1 (schedule s))).
  { unfold pre_command. step. rewrite Hready.
    rewrite (bind_ret_step _ _ _ _ _ (log_mid_eq _ _ _ _ _ Hm)). reflexivity. }
  split.
  - intros pre post Hsched Hwait Hgone. rewrite Hpre.
    unfold sleep_while. cbn [world schedule]. rewrite Hsched.
    apply wait_while_leaves.
    + intros k Hk. rewrite (Hwait k Hk). reflexivity.
    + rewrite Hgone. reflexivity.
  - intros Hwait.
    assert (Hp : pre_command i r s = (Pending, MkState (run_steps (schedule s) w1) [])).
    { rewrite Hpre. unfold sleep_while. cbn [world schedule].
      apply wait_while_pending. intros k Hk. rewrite (Hwait k Hk). reflexivity. }
    split; [exact Hp|].
    rewrite exec_wrapper_transparent. unfold bind at 1. fold i. rewrite Hp.
    reflexivity.
Qed.

(** A context without a message cannot be logged for: once the task
    is over, whatever its outcome, [Command.run] raises
    [AttributeError] from reading [ctx.msg.id], in the state the task
    left. *)
Theorem command_run_needs_message (c : Command) (r : nat) (st s1 : State)
    (o : outcome exn unit) :
  await_task env c r st = (o, s1) ->
  o <> Pending ->
  Ctx.msg (ctx_at (world s1) r) = None ->
  Command_run env c r st = (Raise (PyError (py "AttributeError")), s1).
Proof.
  intros Hrun Hout Hmsg.
  assert (Hlog : forall lvl t,
    log_mid r lvl t s1 = (Raise (PyError (py "AttributeError")), s1)).
  { intros lvl t. unfold log_mid, mid_context, bind, get_world.
    rewrite Hmsg. reflexivity. }
  unfold Command_run. fold (await_task env c r). rewrite Hrun.
  destruct o as [[]|e|]; [apply Hlog| |contradiction].
  destruct e; unfold handle_exception; try apply Hlog;
    unfold bind at 1; rewrite Hlog; reflexivity.
Qed.

End Program.
End CommandProps.

(** ** The name cache *)

Module IndexProps.
Import CheckEngine FlagParser Client IndexDefs EffProps ClientProps PyStrProps.

Lemma eqb_true (a b : str) : eqb a b = true <-> a = b.
Proof. unfold eqb. apply bool_decide_eq_true. Qed.

Lemma contains_elem_of (l : list str) (x : str) : contains l x = true <-> x ∈ l.
Proof.
  unfold contains. rewrite existsb_exists, list_elem_of_In. split.
  - intros (y & Hy & He). apply eqb_true in He. subst. exact Hy.
  - intros H. exists x. split; [exact H | apply eqb_true; reflexivity].
Qed.

Lemma eqb_sym (a b : str) : eqb a b = eqb b a.
Proof. unfold eqb. apply bool_decide_ext. split; congruence. Qed.

Section Dict.
Context {V : Type}.

Lemma dict_get_set (d : list (str * V)) (k k' : str) (v : V) :
  dict_get (dict_set d k v) k' = if eqb k k' then Some v else dict_get d k'.
Proof.
  induction d as [|[k0 v0] d IH]; simpl.
  - reflexivity.
  - destruct (eqb k0 k) eqn:E0; simpl.
    + apply eqb_true in E0. subst k0. destruct (eqb k k'); reflexivity.
    + rewrite IH. destruct (eqb k0 k') eqn:E1; [|reflexivity].
      apply eqb_true in E1. subst k0. rewrite eqb_sym, E0. reflexivity.
Qed.

Lemma dict_get_keys (d : list (str * V)) (k : str) :
  k ∈ d.*1 <-> is_Some (dict_get d k).
Proof.
  induction d as [|[k0 v0] d IH]; simpl.
  - split; [intros H; inversion H | intros [x H]; discriminate].
  - rewrite elem_of_cons, IH. destruct (eqb k0 k) eqn:E.
    + apply eqb_true in E. split; [eauto | auto].
    + split; [|auto]. intros [->|H]; [|exact H].
      unfold eqb in E. rewrite bool_decide_eq_true_2 in E by reflexivity.
      discriminate.
Qed.

Lemma dict_set_keys (d : list (str * V)) (k : str) (v : V) :
  (dict_set d k v).*1 = if bool_decide (k ∈ d.*1) then d.*1 else d.*1 ++ [k].
Proof.
  induction d as [|[k0 v0] d IH]; [reflexivity|].
  cbn [dict_set]. rewrite (fmap_cons fst _ d). cbn [fst].
  destruct (eqb k0 k) eqn:E.
  - apply eqb_true in E. subst k0. rewrite fmap_cons. cbn [fst].
    rewrite bool_decide_eq_true_2 by left. reflexivity.
  - assert (Hne : k <> k0).
    { intros ->. unfold eqb in E.
      rewrite bool_decide_eq_true_2 in E by reflexivity. discriminate. }
    rewrite fmap_cons, IH. cbn [fst].
    destruct (decide (k ∈ d.*1)) as [Hin|Hout].
    + rewrite !bool_decide_eq_true_2; [reflexivity | right; exact Hin | exact Hin].
    + rewrite !bool_decide_eq_false_2; [reflexivity | | exact Hout].
      intros H. apply elem_of_cons in H as [?|?]; contradiction.
Qed.

Lemma dict_set_NoDup (d : list (str * V)) (k : str) (v : V) :
  NoDup d.*1 -> NoDup (dict_set d k v).*1.
Proof.
  intros H. rewrite dict_set_keys. destruct (decide (k ∈ d.*1)) as [Hin|Hout].
  - rewrite bool_decide_eq_true_2 by exact Hin. exact H.
  - rewrite bool_decide_eq_false_2 by exact Hout.
    apply NoDup_app. split; [exact H|]. split.
    + intros x Hx Hk. apply list_elem_of_singleton in Hk. subst. contradiction.
    + apply NoDup_singleton.
Qed.

End Dict.

Lemma aliases_get (c : Command) (als : list str) (d : list (str * Command)) (k : str) :
  dict_get (foldl (fun d alias => dict_set d alias c) d als) k
  = if contains als k then Some c else dict_get d k.
Proof.
  revert d. induction als as [|a als IH]; intros d; simpl; [reflexivity|].
  rewrite IH, dict_get_set.
  destruct (contains als k); simpl; [rewrite orb_true_r; reflexivity|].
  rewrite orb_false_r.
  rewrite (eqb_sym k a). reflexivity.
Qed.

Lemma aliases_NoDup (c : Command) (als : list str) (d : list (str * Command)) :
  NoDup d.*1 -> NoDup (foldl (fun d alias => dict_set d alias c) d als).*1.
Proof.
  revert d. induction als as [|a als IH]; intros d H; simpl; [exact H|].
  apply IH, dict_set_NoDup, H.
Qed.

Lemma add_cmd_names_get (d : list (str * Command)) (c : Command) (k : str) :
  dict_get (add_cmd_names d c) k = if goes_by k c then Some c else dict_get d k.
Proof.
  unfold add_cmd_names, goes_by. rewrite aliases_get, dict_get_set.
  destruct (contains (Cmd.aliases c) k); [rewrite orb_true_r; reflexivity|].
  rewrite orb_false_r. reflexivity.
Qed.

Lemma commands_get (cs : list Command) (d : list (str * Command)) (k : str) :
  dict_get (foldl add_cmd_names d cs) k
  = match last (List.filter (goes_by k) cs) with
    | Some c => Some c
    | None => dict_get d k
    end.
Proof.
  revert d. induction cs as [|c cs IH]; intros d; simpl; [reflexivity|].
  rewrite IH, add_cmd_names_get.
  destruct (goes_by k c); [|reflexivity].
  rewrite last_cons. destruct (last (List.filter (goes_by k) cs)); reflexivity.
Qed.

Lemma commands_NoDup (cs : list Command) (d : list (str * Command)) :
  NoDup d.*1 -> NoDup (foldl add_cmd_names d cs).*1.
Proof.
  revert d. induction cs as [|c cs IH]; intros d H; simpl; [exact H|].
  apply IH. unfold add_cmd_names. apply aliases_NoDup, dict_set_NoDup, H.
Qed.

Lemma modules_fold (ms : list Mod.t) (d : list (str * Command)) :
  foldl (fun cmds m =>
           if Mod.enabled m then foldl add_cmd_names cmds (Mod.cmds m) else cmds)
    d ms
  = foldl add_cmd_names d (concat (Mod.cmds <$> List.filter Mod.enabled ms)).
Proof.
  revert d. induction ms as [|m ms IH]; intros d; simpl; [reflexivity|].
  rewrite IH. destruct (Mod.enabled m); [|reflexivity].
  simpl. rewrite foldl_app. reflexivity.
Qed.

Lemma last_filter_some {A} (f : A -> bool) (l : list A) (x : A) :
  last (List.filter f l) = Some x -> x ∈ l /\ f x = true.
Proof.
  intros H. apply last_Some in H as [l' H].
  assert (Hin : x ∈ List.filter f l) by (rewrite H; apply elem_of_app; right; left).
  apply elem_of_filter_bool in Hin. exact Hin.
Qed.

Lemma last_filter_none {A} (f : A -> bool) (l : list A) (x : A) :
  last (List.filter f l) = None -> x ∈ l -> f x = false.
Proof.
  intros H Hx. apply last_None in H.
  destruct (f x) eqn:E; [|reflexivity].
  assert (Hin : x ∈ List.filter f l) by (apply elem_of_filter_bool; auto).
  rewrite H in Hin. inversion Hin.
Qed.

(** [update_cmdnames] rebuilds the name cache from the commands of
    the enabled modules: no key occurs twice, the keys are exactly the
    names and aliases of those commands, and a key stands for the last
    command, in module and registration order, that goes by it. *)
Theorem update_cmdnames_index (s : State) :
  exists names,
    update_cmdnames s = (Ret tt, MkState (set_cmd_names names (world s)) (schedule s))
    /\ NoDup names.*1
    /\ (forall k, dict_get names k = last (List.filter (goes_by k) (cmds (world s))))
    /\ (forall k, k ∈ names.*1 <->
                  exists c, c ∈ cmds (world s) /\ goes_by k c = true).
Proof.
  eexists. split; [reflexivity|].
  rewrite modules_fold. fold (cmds (world s)).
  assert (Hget : forall k,
    dict_get (foldl add_cmd_names [] (cmds (world s))) k
    = last (List.filter (goes_by k) (cmds (world s)))).
  { intros k. rewrite commands_get.
    destruct (last (List.filter (goes_by k) (cmds (world s)))); reflexivity. }
  split; [apply commands_NoDup; constructor|]. split; [exact Hget|].
  intros k. rewrite dict_get_keys, Hget. split.
  - intros [c Hc]. exists c. apply last_filter_some, Hc.
  - intros (c & Hc & Hk).
    destruct (last (List.filter (goes_by k) (cmds (world s)))) eqn:E; [eauto|].
    rewrite (last_filter_none _ _ _ E Hc) in Hk. discriminate.
Qed.

Section Program.
Variable env : Env.

Lemma strip_strip (s : str) : strip (strip s) = strip s.
Proof.
  destruct (strip_stripped s) as [Hl Hr]. unfold strip at 1. rewrite Hl. exact Hr.
Qed.

Lemma try_finally_contains {A} (m : Co A) (h : exn -> Co A) (f : Co unit)
    (s s' : State) (e : exn) :
  (forall e0 s0, exists a s1, h e0 s0 = (Ret a, s1)) ->
  (forall s0, exists s1, f s0 = (Ret tt, s1)) ->
  try_finally (try_except m is_Exception h) f s = (Raise e, s') ->
  is_Exception e = false.
Proof.
  intros Hh Hf. unfold try_finally, try_except.
  destruct (m s) as [[a|e0|] s0].
  - destruct (Hf s0) as (s1 & ->). discriminate.
  - destruct (is_Exception e0) eqn:He0.
    + destruct (Hh e0 s0) as (a & s1 & ->).
      destruct (Hf s1) as (s2 & ->). discriminate.
    + destruct (Hf s0) as (s1 & ->). intros [= <- _]. exact He0.
  - discriminate.
Qed.

(** What [parse_message] passes to [run_cmd]: the command name is a
    key of the name cache, so the lookup of [run_cmd] succeeds, and
    the argument text is stripped.  With the name found, [run_cmd]
    raises nothing that is an [Exception]: what [Command.run] raises
    is logged. *)
Theorem dispatch_finds_command (names : list (str * Command)) (content : str)
    (prefixes : list str) (cmdname arg pfx : str) :
  match_command env names.*1 content prefixes = Some (cmdname, arg, pfx) ->
  (exists c, dict_get names cmdname = Some c)
  /\ strip arg = arg
  /\ (forall message st e,
        cmd_names (world st) = names ->
        (run_cmd env message cmdname arg pfx st).1 = Raise e ->
        is_Exception e = false).
Proof.
  intros Hmatch.
  destruct (match_command_spec env _ _ _ _ _ _ Hmatch) as (_ & Hin & _ & Harg & _).
  apply dict_get_keys in Hin as [c Hc].
  split; [exists c; exact Hc|]. split; [rewrite Harg; apply strip_strip|].
  intros message st e Hnames Hraise.
  destruct (run_cmd env message cmdname arg pfx st) as [o st'] eqn:Hrun.
  simpl in Hraise. subst o.
  unfold run_cmd in Hrun. step_in Hrun. rewrite Hnames, Hc in Hrun. step_in Hrun.
  destruct (Mod.enabled (module_at (world st) (Cmd.module c)));
    step_in Hrun;
    rewrite (bind_ret_step _ _ _ _ _ (new_context_eq _ _)) in Hrun;
    do 2 step_in Hrun;
    (eapply try_finally_contains; [| |exact Hrun];
     [ intros e0 s0; eexists _, _; reflexivity
     | intros s0; eexists; reflexivity ]).
Qed.

End Program.
End IndexProps.

(** ** The order of strings *)

Module OrderProps.

Lemma compare_refl (a : str) : compare a a = Eq.
Proof. induction a as [|x a IH]; simpl; [reflexivity|]. rewrite N.compare_refl. exact IH. Qed.

Lemma compare_antisym (a b : str) : compare b a = CompOpp (compare a b).
Proof.
  revert b. induction a as [|x a IH]; intros [|y b]; simpl; try reflexivity.
  rewrite (N.compare_antisym x y).
  destruct (x ?= y)%N; simpl; [apply IH | reflexivity | reflexivity].
Qed.

Lemma compare_eq (a b : str) : compare a b = Eq -> a = b.
Proof.
  revert b. induction a as [|x a IH]; intros [|y b]; simpl; try discriminate;
    [reflexivity|].
  destruct (N.compare_spec x y) as [->| |]; try discriminate.
  intros H. f_equal. apply IH, H.
Qed.

Lemma leb_total (a b : str) : leb a b = false -> leb b a = true.
Proof.
  unfold leb. rewrite (compare_antisym a b).
  destruct (compare a b); simpl; congruence.
Qed.

Lemma compare_lt_trans (a b c : str) :
  compare a b = Lt -> compare b c = Lt -> compare a c = Lt.
Proof.
  revert b c. induction a as [|x a IH]; intros [|y b] [|z c]; simpl;
    try discriminate; try reflexivity.
  destruct (N.compare_spec x y) as [->|Hxy|Hxy]; try discriminate.
  - destruct (y ?= z)%N; try discriminate; [apply IH | reflexivity].
  - intros _. destruct (N.compare_spec y z) as [->|Hyz|Hyz]; try discriminate.
    + intros _. rewrite (proj2 (N.compare_lt_iff x z) Hxy). reflexivity.
    + intros _. rewrite (proj2 (N.compare_lt_iff x z)) by lia. reflexivity.
Qed.

Lemma leb_trans (a b c : str) : leb a b = true -> leb b c = true -> leb a c = true.
Proof.
  unfold leb.
  destruct (compare a b) eqn:Hab; try discriminate;
    destruct (compare b c) eqn:Hbc; try discriminate; intros _ _.
  - apply compare_eq in Hab, Hbc. subst. rewrite compare_refl. reflexivity.
  - apply compare_eq in Hab. subst. rewrite Hbc. reflexivity.
  - apply compare_eq in Hbc. subst. rewrite Hab. reflexivity.
  - rewrite (compare_lt_trans _ _ _ Hab Hbc). reflexivity.
Qed.

Lemma proper_prefix_less (p t : str) : t <> [] -> leb (p ++ t) p = false.
Proof.
  intros Ht. unfold leb. induction p as [|x p IH]; simpl.
  - destruct t; [congruence | reflexivity].
  - rewrite N.compare_refl. exact IH.
Qed.

End OrderProps.

(** ** Messages without a command *)

Module ParseProps.
Import CheckEngine FlagParser Client Decorator ReplyDefs IndexDefs ParseDefs.
Import EffProps ClientProps ReplyProps IndexProps OrderProps LRUProps.

Lemma spawn_each {A} (f : A -> Coroutine) (l : list A) (s : State) :
  for_each l (fun x => let* _ := ensure_future (f x) in ret tt) s
  = (Ret tt,
     MkState
       (with_requests
          (imap (fun i x => EnsureFuture (next_task (world s) + i) (f x)) l)
          (set_next_task (next_task (world s) + length l) (world s)))
       (schedule s)).
Proof.
  revert s. induction l as [|x l IH]; intros s.
  - destruct s as [[] sched]. unfold with_requests, set_calls, set_next_task.
    simpl. unfold ret. rewrite Nat.add_0_r, app_nil_r. reflexivity.
  - cbn [for_each].
    rewrite (bind_ret_step _ _ _ _ _
      (bind_ret_step _ _ _ _ _ (ensure_future_eq _ _))).
    unfold ret at 1. rewrite IH. cbn [world schedule].
    unfold with_requests, set_calls, set_next_task. simpl.
    rewrite <- app_assoc. simpl. rewrite Nat.add_0_r.
    do 3 f_equal.
    + f_equal. lia.
    + do 2 f_equal. apply imap_ext. intros i y _. simpl. f_equal. lia.
Qed.

Section Program.
Variable env : Env.

Lemma match_command_no_names (content : str) (prefixes : list str) :
  match_command env [] content prefixes = None.
Proof. induction prefixes as [|p l IH]; simpl; [reflexivity | exact IH]. Qed.

Lemma filter_all_false {A} (f : A -> bool) (l : list A) :
  Forall (fun x => f x = false) l -> List.filter f l = [].
Proof.
  induction 1 as [|x l Hx _ IH]; simpl; [reflexivity|]. rewrite Hx. exact IH.
Qed.

Lemma parse_message_spawns (message : Message) (st st1 : State)
    (valid : list str) :
  valid_prefixes env message st = (Ret valid, st1) ->
  match_command env (cmd_names (world st1)).*1 (strip (Msg.content message))
    (sorted_reverse
       (List.filter (startswith (strip (Msg.content message))) valid)) = None ->
  let w1 := world st1 in
  parse_message env message st
  = (Ret tt,
     MkState
       (with_requests
          (parser_tasks (next_task w1) message (extra_message_parsers w1))
          (set_next_task (next_task w1 + length (extra_message_parsers w1)) w1))
       (schedule st1)).
Proof.
  intros Hvalid Hmatch w1. unfold parse_message.
  rewrite (bind_ret_step _ _ _ _ _ Hvalid). step.
  rewrite Hmatch.
  apply (spawn_each (fun p : Callable * Z => MessageParser p.1 message)).
Qed.

(** A message whose content starts with no valid prefix, or one
    received while no command is registered, runs no command:
    [parse_message] returns after handing the extra message parsers to
    the event loop, one task each in the order of the list, and logs
    nothing and registers nothing. *)
Theorem parse_message_without_command (message : Message) (st st1 : State)
    (valid : list str) :
  valid_prefixes env message st = (Ret valid, st1) ->
  Forall (fun p => startswith (strip (Msg.content message)) p = false) valid
  \/ cmd_names (world st1) = [] ->
  let w1 := world st1 in
  exists s',
    parse_message env message st = (Ret tt, s')
    /\ calls (world s')
       = calls w1 ++ parser_tasks (next_task w1) message (extra_message_parsers w1)
    /\ log_records (world s') = log_records w1
    /\ active_contexts (world s') = active_contexts w1
    /\ contexts (world s') = contexts w1
    /\ ctx_cache (world s') = ctx_cache w1.
Proof.
  intros Hvalid Hnone w1.
  eexists. split.
  { apply (parse_message_spawns message st st1 valid Hvalid).
    destruct Hnone as [Hpfx|Hnames].
    - rewrite (filter_all_false _ _ Hpfx). reflexivity.
    - rewrite Hnames. apply match_command_no_names. }
  repeat split.
Qed.

(** With no prefix set and no prefix function, [valid_prefixes] calls
    [log] once, at level [ERROR], then asks the client to close, and
    what it does next is up to the answer.  Where the close raises or
    stays suspended, so do [valid_prefixes] and [parse_message], right
    there: no command is run and no parser is handed to the event
    loop.  Where the close returns, the tuple of valid prefixes is
    empty: no command is run, and [parse_message] goes on to its loop
    over the extra message parsers, from the state in which the close
    was requested. *)
Theorem missing_prefix_closes_client (message : Message) (st : State) :
  let w := world st in
  let w1 :=
    with_requests [Close]
      (set_log_records (log_records w ++ [MkLog ERROR Global NoPrefixSet]) w) in
  let s1 := MkState w1 (schedule st) in
  valid_prefixes_func w = None ->
  truthy (prefix w) = false ->
  valid_prefixes env message st
  = (match close env w1 with
     | Ret _ => Ret []
     | Raise e => Raise e
     | Pending => Pending
     end, s1)
  /\ parse_message env message st
     = match close env w1 with
       | Ret _ =>
           for_each (extra_message_parsers w1) (fun parser =>
             let* _ := ensure_future (MessageParser parser.1 message) in ret tt) s1
       | Raise e => (Raise e, s1)
       | Pending => (Pending, s1)
       end.
Proof.
  intros w w1 s1 Hfunc Hprefix.
  assert (Hvalid : valid_prefixes env message st =
    (match close env w1 with
     | Ret _ => Ret []
     | Raise e => Raise e
     | Pending => Pending
     end, s1)).
  { unfold valid_prefixes. step. fold w. rewrite Hfunc.
    destruct (prefix w) as [[|x p]|]; try discriminate.
    all: do 2 step; unfold bind, answer; cbn [world].
    all: change (close env _) with (close env w1).
    all: destruct (close env w1) as [[]| |]; reflexivity. }
  split; [exact Hvalid|].
  unfold parse_message.
  destruct (close env w1) as [[]|e|].
  - rewrite (bind_ret_step _ _ _ _ _ Hvalid). step. reflexivity.
  - unfold bind at 1. rewrite Hvalid. reflexivity.
  - unfold bind at 1. rewrite Hvalid. reflexivity.
Qed.

End Program.
End ParseProps.

(** ** Dispatch, edits and the cleaners *)

Module DispatchProps.
Import CheckEngine FlagParser Client Decorator ReplyDefs IndexDefs ParseDefs.
Import EffProps ClientProps ReplyProps IndexProps OrderProps LRUProps ParseProps.

Lemma update_cmdnames_eq (s : State) :
  update_cmdnames s
  = (Ret tt,
     MkState (set_cmd_names (foldl add_cmd_names [] (cmds (world s))) (world s))
       (schedule s)).
Proof.
  unfold update_cmdnames, modify_world. rewrite modules_fold. reflexivity.
Qed.

Lemma names_get (cs : list Command) (k : str) :
  dict_get (foldl add_cmd_names [] cs) k = last (List.filter (goes_by k) cs).
Proof.
  rewrite commands_get. destruct (last (List.filter (goes_by k) cs)); reflexivity.
Qed.

Lemma insert_reverse_pairs (a : str) (l : list str) :
  ForallOrdPairs (fun p q => leb q p = true) l ->
  ForallOrdPairs (fun p q => leb q p = true) (insert_reverse a l).
Proof.
  induction 1 as [|b l Hb Hl IH]; simpl.
  - constructor; constructor.
  - destruct (leb b a) eqn:E.
    + constructor; [|constructor; assumption].
      constructor; [exact E|].
      apply List.Forall_forall. intros x Hx.
      eapply leb_trans; [|exact E].
      rewrite List.Forall_forall in Hb. apply Hb, Hx.
    + constructor; [|exact IH].
      apply List.Forall_forall. intros x Hx.
      apply list_elem_of_In, elem_of_insert_reverse in Hx as [->|Hx].
      * apply leb_total, E.
      * rewrite List.Forall_forall in Hb. apply Hb, list_elem_of_In, Hx.
Qed.

Lemma sorted_reverse_pairs (l : list str) :
  ForallOrdPairs (fun p q => leb q p = true) (sorted_reverse l).
Proof.
  induction l as [|a l IH]; simpl; [constructor|].
  apply insert_reverse_pairs, IH.
Qed.

Lemma pairs_lookup {A} (R : A -> A -> Prop) (l : list A) (i j : nat) (x y : A) :
  ForallOrdPairs R l -> i < j -> l !! i = Some x -> l !! j = Some y -> R x y.
Proof.
  intros H. revert i j. induction H as [|a l Ha _ IH]; intros i j Hij Hi Hj.
  - discriminate.
  - destruct j as [|j]; [lia|]. destruct i as [|i]; simpl in Hi, Hj.
    + injection Hi as <-. rewrite List.Forall_forall in Ha.
      apply Ha, list_elem_of_In. eapply list_elem_of_lookup_2, Hj.
    + apply (IH i j); [lia | exact Hi | exact Hj].
Qed.

Lemma pairs_after {A} (R : A -> A -> Prop) (before after : list A) (a : A) :
  ForallOrdPairs R (before ++ a :: after) -> List.Forall (R a) after.
Proof.
  induction before as [|b before IH]; simpl; intros H; inversion H; subst; auto.
Qed.

Lemma leb_refl (a : str) : leb a a = true.
Proof. unfold leb. rewrite compare_refl. reflexivity. Qed.

(** [first_raised] is the exception that comes first in time. *)
Lemma first_raised_none (aws : list (nat * outcome exn unit)) :
  first_raised aws = None <-> forall t e, (t, Raise e) ∉ aws.
Proof.
  induction aws as [|[t o] aws IH]; simpl.
  - split; [intros _ t e H; inversion H | reflexivity].
  - destruct o as [u|e|].
    + rewrite IH. split; intros H t' e' Hin.
      * apply elem_of_cons in Hin as [Hin|Hin]; [discriminate | exact (H _ _ Hin)].
      * apply (H t' e'). right. exact Hin.
    + split.
      * destruct (first_raised aws) as [[t' e']|]; [|discriminate].
        destruct (t' <? t); discriminate.
      * intros H. exfalso. apply (H t e). left.
    + rewrite IH. split; intros H t' e' Hin.
      * apply elem_of_cons in Hin as [Hin|Hin]; [discriminate | exact (H _ _ Hin)].
      * apply (H t' e'). right. exact Hin.
Qed.

Lemma first_raised_some (aws : list (nat * outcome exn unit)) (t : nat) (e : exn) :
  first_raised aws = Some (t, e) ->
  (t, Raise e) ∈ aws /\ forall t' e', (t', Raise e') ∈ aws -> t <= t'.
Proof.
  revert t e. induction aws as [|[t0 o] aws IH]; simpl; intros t e; [discriminate|].
  assert (Hskip : (forall e0, o <> Raise e0) -> first_raised aws = Some (t, e) ->
    (t, Raise e) ∈ (t0, o) :: aws
    /\ forall t' e', (t', Raise e') ∈ (t0, o) :: aws -> t <= t').
  { intros Ho H. destruct (IH _ _ H) as [Hin Hmin]. split; [right; exact Hin|].
    intros t' e' Hin'. apply elem_of_cons in Hin' as [Heq|Hin']; [|eauto].
    injection Heq as -> Heq. exfalso. apply (Ho e'). symmetry. exact Heq. }
  destruct o as [u|e0|]; [apply Hskip; discriminate | | apply Hskip; discriminate].
  destruct (first_raised aws) as [[t1 e1]|] eqn:Hrest.
  - destruct (IH _ _ eq_refl) as [Hin Hmin].
    destruct (Nat.ltb_spec t1 t0) as [Hlt|Hge]; intros [= <- <-].
    + split; [right; exact Hin|]. intros t' e' Hin'.
      apply elem_of_cons in Hin' as [[= -> ->]|Hin']; [lia | eauto].
    + split; [left|]. intros t' e' Hin'.
      apply elem_of_cons in Hin' as [[= -> ->]|Hin']; [lia|].
      pose proof (Hmin _ _ Hin'). lia.
  - intros [= <- <-]. split; [left|]. intros t' e' Hin'.
    apply elem_of_cons in Hin' as [[= -> ->]|Hin']; [lia|].
    exfalso. apply (proj1 (first_raised_none aws) Hrest _ _ Hin').
Qed.

Lemma first_raised_first (aws : list (nat * outcome exn unit)) (t : nat) (e : exn) :
  (t, Raise e) ∈ aws ->
  (forall t' e', (t', Raise e') ∈ aws -> (t' = t /\ e' = e) \/ t < t') ->
  first_raised aws = Some (t, e).
Proof.
  intros Hin Hfirst.
  destruct (first_raised aws) as [[t0 e0]|] eqn:H0.
  - apply first_raised_some in H0 as [Hin0 Hmin].
    destruct (Hfirst _ _ Hin0) as [[-> ->]|Hlt]; [reflexivity|].
    pose proof (Hmin _ _ Hin). lia.
  - exfalso. apply (proj1 (first_raised_none aws) H0 _ _ Hin).
Qed.

Lemma gather_raise (aws : list (nat * outcome exn unit)) (e : exn) :
  gather aws = Raise e <-> exists t, first_raised aws = Some (t, e).
Proof.
  unfold gather. destruct (first_raised aws) as [[t e0]|].
  - split; [intros [= ->]; eauto | intros [t' [= _ ->]]; reflexivity].
  - split; [destruct (existsb _ aws); discriminate | intros [t' H]; discriminate].
Qed.

Lemma gather_pending (aws : list (nat * outcome exn unit)) :
  gather aws = Pending <->
  (forall t e, (t, Raise e) ∉ aws) /\ exists t, (t, Pending) ∈ aws.
Proof.
  unfold gather. rewrite <- first_raised_none.
  destruct (first_raised aws) as [[t e0]|].
  - split; [discriminate | intros [H _]; discriminate].
  - destruct (existsb (fun a => is_pending a.2) aws) eqn:E.
    + apply existsb_exists in E as ([t o] & Hin & Ho).
      destruct o; try discriminate.
      split; [|reflexivity]. intros _. split; [reflexivity|].
      exists t. apply list_elem_of_In, Hin.
    + split; [discriminate|]. intros [_ [t Hin]]. exfalso.
      assert (H : existsb (fun a => is_pending a.2) aws = true).
      { apply existsb_exists. exists (t, Pending).
        split; [apply list_elem_of_In, Hin | reflexivity]. }
      congruence.
Qed.

Lemma gather_returns (aws : list (nat * outcome exn unit)) :
  Forall (fun a => a.2 = Ret tt) aws -> gather aws = Ret tt.
Proof.
  intros Hall. rewrite Forall_forall in Hall. unfold gather.
  rewrite (proj2 (first_raised_none aws)).
  - destruct (existsb (fun a => is_pending a.2) aws) eqn:E; [|reflexivity].
    apply existsb_exists in E as (a & Hin & Ha).
    apply list_elem_of_In in Hin. rewrite (Hall _ Hin) in Ha. discriminate.
  - intros t e Hin. apply Hall in Hin. discriminate.
Qed.

Lemma swallow_never_not_found (o : outcome exn unit) :
  swallow_not_found o <> Raise NotFound.
Proof. destruct o as [[]|e|]; simpl; try discriminate. destruct e; simpl; discriminate. Qed.

Section Program.
Variable env : Env.

Lemma finds_command_true (names : list str) (content q : str) :
  finds_command env names content q = true <->
  exists n, n ∈ names /\ name_matches env (strip (drop (length q) content)) n = true.
Proof.
  unfold finds_command. rewrite existsb_exists.
  split; intros (n & Hn & Hm); exists n; (split; [apply list_elem_of_In, Hn | exact Hm]).
Qed.

(** The loop over the prefixes stops at the first prefix under which
    a command name is found. *)
Lemma match_command_first (names : list str) (content : str)
    (prefixes : list str) (cmdname arg pfx : str) :
  match_command env names content prefixes = Some (cmdname, arg, pfx) ->
  exists before after,
    prefixes = before ++ pfx :: after
    /\ Forall (fun q => finds_command env names content q = false) before
    /\ finds_command env names content pfx = true.
Proof.
  induction prefixes as [|p prefixes IH]; simpl; [discriminate|].
  destruct (longest (List.filter (name_matches env (strip (drop (length p) content))) names))
    as [best|] eqn:Hbest.
  - intros [= <- <- <-]. exists [], prefixes.
    split; [reflexivity|]. split; [constructor|].
    apply longest_spec in Hbest as [Hin _].
    apply elem_of_filter_bool in Hin as [Hin Hm].
    apply finds_command_true. eauto.
  - intros H. destruct (IH H) as (before & after & -> & Hb & Hp).
    exists (p :: before), after. split; [reflexivity|]. split; [|exact Hp].
    constructor; [|exact Hb].
    destruct (finds_command env names content p) eqn:E; [|reflexivity].
    apply finds_command_true in E as (n & Hn & Hm). exfalso.
    destruct (match_command_some env names content [p] p n) as [x Hx];
      [left | exact Hn | exact Hm |].
    simpl in Hx. rewrite Hbest in Hx. discriminate.
Qed.

Lemma match_command_none (names : list str) (content : str) (prefixes : list str) :
  Forall (fun q => finds_command env names content q = false) prefixes ->
  match_command env names content prefixes = None.
Proof.
  induction 1 as [|p prefixes Hp _ IH]; simpl; [reflexivity|].
  destruct (longest (List.filter (name_matches env (strip (drop (length p) content))) names))
    as [best|] eqn:Hbest; [|exact IH].
  apply longest_spec in Hbest as [Hin _].
  apply elem_of_filter_bool in Hin as [Hin Hm].
  assert (finds_command env names content p = true) by (apply finds_command_true; eauto).
  congruence.
Qed.

(** [parse_message] tries the valid prefixes that start the content
    in descending order and dispatches at the first one under which a
    command name is found.  So a command is run exactly when some
    valid prefix starts the content and is followed by a command
    name; the prefix it is run with is the greatest such prefix, in
    particular never one that has a longer such prefix as an
    extension (with [!] and [!!] both valid, ["!!ping"] is [ping]
    under [!!], even if [!ping] is a command too); the name is one
    found under that prefix and the argument text is what follows it.
    Where no valid prefix qualifies, no command is run and the extra
    message parsers are handed to the event loop. *)
Theorem dispatch_under_greatest_prefix (message : Message) (st st1 : State)
    (valid : list str) :
  let content := strip (Msg.content message) in
  let w1 := world st1 in
  let names := (cmd_names w1).*1 in
  let qualifies q :=
    q ∈ valid /\ startswith content q = true
    /\ finds_command env names content q = true in
  valid_prefixes env message st = (Ret valid, st1) ->
  ((exists q, qualifies q) ->
   exists cmdname arg pfx,
     parse_message env message st = run_cmd env message cmdname arg pfx st1
     /\ qualifies pfx
     /\ (forall q, qualifies q -> leb q pfx = true)
     /\ (forall t, t <> [] -> ~ qualifies (pfx ++ t))
     /\ cmdname ∈ names
     /\ name_matches env (strip (drop (length pfx) content)) cmdname = true
     /\ arg = strip (drop (length cmdname) (strip (drop (length pfx) content))))
  /\ ((forall q, ~ qualifies q) ->
      parse_message env message st
      = (Ret tt,
         MkState
           (with_requests
              (parser_tasks (next_task w1) message (extra_message_parsers w1))
              (set_next_task (next_task w1 + length (extra_message_parsers w1)) w1))
           (schedule st1))).
Proof.
  intros content w1 names qualifies Hvalid.
  set (tried := sorted_reverse (List.filter (startswith content) valid)).
  assert (Htried : forall q, q ∈ tried <-> q ∈ valid /\ startswith content q = true).
  { intros q. unfold tried. rewrite elem_of_sorted_reverse. apply elem_of_filter_bool. }
  split.
  - intros (q0 & Hq0 & Hs0 & Hf0).
    apply finds_command_true in Hf0 as (n0 & Hn0 & Hm0).
    destruct (match_command_some env names content tried q0 n0) as [[[cmdname arg] pfx] Hmatch];
      [apply Htried; auto | exact Hn0 | exact Hm0 |].
    exists cmdname, arg, pfx.
    destruct (match_command_spec env _ _ _ _ _ _ Hmatch) as (Hp & Hc & Hm & Harg & _).
    destruct (match_command_first _ _ _ _ _ _ Hmatch)
      as (before & after & Hsplit & Hbefore & Hfinds).
    assert (Hgreatest : forall q, qualifies q -> leb q pfx = true).
    { intros q (Hq & Hs & Hf).
      assert (Hin : q ∈ tried) by (apply Htried; auto).
      rewrite Hsplit in Hin. apply elem_of_app in Hin as [Hin|Hin].
      - rewrite Forall_forall in Hbefore. rewrite (Hbefore _ Hin) in Hf. discriminate.
      - apply elem_of_cons in Hin as [->|Hin]; [apply leb_refl|].
        pose proof (sorted_reverse_pairs (List.filter (startswith content) valid)) as Hord.
        fold tried in Hord. rewrite Hsplit in Hord.
        apply pairs_after in Hord. rewrite List.Forall_forall in Hord.
        apply Hord, list_elem_of_In, Hin. }
    split.
    { unfold parse_message. rewrite (bind_ret_step _ _ _ _ _ Hvalid). step.
      fold content w1 names tried. rewrite Hmatch. reflexivity. }
    split; [split; [apply Htried, Hp | split; [apply Htried, Hp | exact Hfinds]]|].
    split; [exact Hgreatest|].
    split; [|split; [exact Hc | split; [exact Hm | exact Harg]]].
    intros t Ht Hq. apply Hgreatest in Hq.
    rewrite (proper_prefix_less pfx t Ht) in Hq. discriminate.
  - intros Hnone.
    apply (parse_message_spawns env message st st1 valid Hvalid).
    fold content w1 names tried. apply match_command_none.
    apply Forall_forall. intros q Hq. apply Htried in Hq as [Hq Hs].
    destruct (finds_command env names content q) eqn:Hf; [|reflexivity].
    exfalso. apply (Hnone q). repeat split; assumption.
Qed.

(** [run_cmd] up to its [try] statement, with the calls of [log] it
    makes. *)
Lemma run_cmd_reaches_try (message : Message) (cmdname arg pfx : str)
    (c : Command) (st : State) :
  let w := world st in
  let mid := Msg.id message in
  let r := next_context w in
  let m := module_at w (Cmd.module c) in
  let executing :=
    MkLog INFO (MidContext mid) (ExecutingCommand cmdname (Mod.name m) message) in
  dict_get (cmd_names w) cmdname = Some c ->
  exists s1,
    run_cmd env message cmdname arg pfx st = run_cmd_try env message cmdname c r s1
    /\ schedule s1 = schedule st
    /\ calls (world s1) = calls w
    /\ active_contexts (world s1) = <[mid := r]> (active_contexts w)
    /\ ctx_at (world s1) r = Ctx.init message arg cmdname c pfx
    /\ LRU.peek (ctx_cache (world s1)) mid
       = Some (Ctx.flatten (Ctx.init message arg cmdname c pfx))
    /\ (if Mod.enabled m
        then log_records (world s1) = log_records w ++ [executing]
             /\ cmd_names (world s1) = cmd_names w
        else log_records (world s1)
             = log_records w
               ++ [executing; MkLog INFO (MidContext mid) SkippingDisabledModule]
             /\ forall k, dict_get (cmd_names (world s1)) k
                          = last (List.filter (goes_by k) (cmds w))).
Proof.
  intros w mid r m executing Hcmd.
  unfold run_cmd. step. fold w. rewrite Hcmd. step. fold mid m.
  destruct (Mod.enabled m) eqn:Hen.
  - step. rewrite (bind_ret_step _ _ _ _ _ (new_context_eq _ _)).
    do 2 step. unfold run_cmd_try. fold mid r.
    lazymatch goal with |- exists s1, ?f ?s = _ /\ _ => exists s end.
    split; [reflexivity|]. cbn [world schedule].
    split; [reflexivity|]. split; [reflexivity|]. split; [reflexivity|].
    split; [|split; [|split; reflexivity]].
    + unfold ctx_at. simpl. rewrite lookup_insert_eq. reflexivity.
    + simpl. rewrite peek_setitem. unfold ctx_at. simpl.
      rewrite lookup_insert_eq. reflexivity.
  - rewrite (bind_ret_step _ _ _ _ _
      (bind_ret_step _ _ _ _ _ eq_refl : (let* _ := log INFO (MidContext mid) SkippingDisabledModule in update_cmdnames) _ = _)).
    rewrite (bind_ret_step _ _ _ _ _ (new_context_eq _ _)).
    do 2 step. unfold run_cmd_try. fold mid r.
    lazymatch goal with |- exists s1, ?f ?s = _ /\ _ => exists s end.
    split; [reflexivity|]. cbn [world schedule].
    split; [reflexivity|]. split; [reflexivity|]. split; [reflexivity|].
    split; [|split; [|split]].
    + unfold ctx_at. simpl. rewrite lookup_insert_eq. reflexivity.
    + simpl. rewrite peek_setitem. unfold ctx_at. simpl.
      rewrite lookup_insert_eq. reflexivity.
    + simpl. rewrite <- app_assoc. reflexivity.
    + intros k. simpl. rewrite modules_fold. apply names_get.
Qed.

(** An edit that finds the message registered with tasks cancels them
    and then waits: as long as the message stays in the registry at
    every look, the handler is still suspended when the observed
    steps are over, and has neither handed a cleaner to the event loop
    nor re-parsed. *)
Theorem edit_waits_while_registered (before after : Message) (st : State)
    (flat : FlatContext) (promoted : LRU.LRUCache FlatContext) (r : nat) :
  let w := world st in
  let mid := Msg.id after in
  let tasks := Ctx.tasks (ctx_at w r) in
  let w1 := with_requests (Cancel <$> tasks) (set_ctx_cache promoted w) in
  Msg.content before <> Msg.content after ->
  LRU.getitem (ctx_cache w) mid = Some (flat, promoted) ->
  Flat.cleanup_on_edit flat = true ->
  active_contexts w !! mid = Some r ->
  tasks <> [] ->
  (forall k, k <= length (schedule st) ->
     registered (run_steps (take k (schedule st)) w1) mid = true) ->
  on_message_edit env before after st
  = (Pending, MkState (run_steps (schedule st) w1) []).
Proof.
  intros w mid tasks w1 Hcontent Hget Hclean Hreg Htasks Hwait.
  unfold on_message_edit, eqb.
  rewrite bool_decide_eq_false_2 by assumption.
  step. fold w mid. unfold LRU.contains.
  assert (Hpeek : LRU.peek (ctx_cache w) mid = Some flat).
  { unfold LRU.getitem in Hget. destruct (LRU.peek (ctx_cache w) mid); [|discriminate].
    congruence. }
  rewrite Hpeek, Hget. step. rewrite Hclean.
  unfold bind at 1. unfold cleanup_responses. step.
  cbn [world active_contexts set_ctx_cache]. fold w. rewrite Hreg.
  change (ctx_at (set_ctx_cache promoted w) r) with (ctx_at w r). fold tasks.
  destruct tasks as [|t ts] eqn:Ht; [congruence|].
  rewrite (bind_ret_step _ _ _ _ _ (for_each_request Cancel (t :: ts) _)).
  unfold bind at 1. unfold sleep_while. cbn [world schedule].
  fold w1. rewrite (wait_while_pending _ _ _ Hwait). reflexivity.
Qed.

(** [active_command_response_cleaner] requests one bulk delete, or
    one delete per recorded response whatever the answers to the
    others.  Its outcome is the answer to the bulk delete, or that
    of [asyncio.gather] over the deletes, with [NotFound] swallowed:
    it never raises [NotFound], and any other exception comes out.
    Of the deletes that run side by side, the exception that comes
    first in time decides, whether the other deletes are over or not:
    if it is [NotFound] the cleaner returns, and if it is another
    exception the cleaner raises it; a cleaner that raises has seen no
    exception from an earlier moment.  With no exception, the cleaner
    returns once every delete has, and is suspended as long as one of
    them is. *)
Theorem active_cleaner_outcome (r : nat) (s : State) :
  let ctx := ctx_at (world s) r in
  let ids := Msg.id <$> Ctx.sent_messages ctx in
  Ctx.guild ctx = None \/ is_Some (Ctx.ch ctx) ->
  exists new answered,
    let w1 := with_requests new (world s) in
    let deletes := (fun i => (delete_time env w1 i, delete_message env w1 i)) <$> ids in
    let out := swallow_not_found answered in
    active_command_response_cleaner env r s = (out, MkState w1 (schedule s))
    /\ out <> Raise NotFound
    /\ ((exists ch, new = [BulkDelete ch ids]
                    /\ answered = delete_messages env w1 ch ids)
        \/ (new = Delete <$> ids
            /\ answered = gather deletes
            /\ (forall t e,
                  (t, Raise e) ∈ deletes ->
                  (forall t' e', (t', Raise e') ∈ deletes -> (t' = t /\ e' = e) \/ t < t') ->
                  out = if is_NotFound e then Ret tt else Raise e)
            /\ (forall e,
                  out = Raise e ->
                  exists t, (t, Raise e) ∈ deletes
                            /\ forall t' e', (t', Raise e') ∈ deletes -> t <= t')
            /\ (Forall (fun a => a.2 = Ret tt) deletes -> out = Ret tt)
            /\ (out = Pending <->
                (forall t e, (t, Raise e) ∉ deletes)
                /\ exists t, (t, Pending) ∈ deletes))).
Proof.
  intros ctx ids Hch.
  assert (Hway :
    (exists g ch, Ctx.guild ctx = Some g /\ Ctx.ch ctx = Some ch
                  /\ manage_messages env (world s) ch g = true)
    \/ (Ctx.guild ctx = None
        \/ (exists g ch, Ctx.guild ctx = Some g /\ Ctx.ch ctx = Some ch
                         /\ manage_messages env (world s) ch g = false))).
  { destruct (Ctx.guild ctx) as [g|] eqn:Hg; [|right; left; reflexivity].
    destruct Hch as [Hch|[ch Hch]]; [discriminate|].
    destruct (manage_messages env (world s) ch g) eqn:Hperm.
    - left. exists g, ch. auto.
    - right. right. exists g, ch. auto. }
  destruct Hway as [(g & ch & Hg & Hc & Hperm)|Hway].
  - exists [BulkDelete ch ids],
           (delete_messages env (with_requests [BulkDelete ch ids] (world s)) ch ids).
    cbv zeta. split; [apply (active_cleaner_bulk env r s g ch Hg Hc Hperm)|].
    split; [apply swallow_never_not_found|]. left. eauto.
  - exists (Delete <$> ids).
    eexists. cbv zeta. split; [apply (active_cleaner_each env r s Hway)|].
    fold ctx ids.
    set (deletes := (fun i => (delete_time env (with_requests (Delete <$> ids) (world s)) i,
                               delete_message env (with_requests (Delete <$> ids) (world s)) i))
                      <$> ids).
    split; [apply swallow_never_not_found|]. right.
    split; [reflexivity|]. split; [reflexivity|].
    split; [|split; [|split]].
    + intros t e Hin Hfirst.
      rewrite (proj2 (gather_raise deletes e)); [reflexivity|].
      exists t. apply first_raised_first; assumption.
    + intros e Hout.
      destruct (gather deletes) as [[]|e0|] eqn:Hgather; try discriminate.
      simpl in Hout. destruct (is_NotFound e0); [discriminate|].
      injection Hout as ->.
      apply gather_raise in Hgather as [t Ht]. exists t.
      apply first_raised_some, Ht.
    + intros Hall. rewrite (gather_returns deletes Hall). reflexivity.
    + rewrite <- gather_pending.
      destruct (gather deletes) as [[]|e0|]; simpl; try tauto.
      destruct (is_NotFound e0); split; discriminate.
Qed.

End Program.
End DispatchProps.

(** ** Handlers kept by priority *)

Module ParsersProps.
Import Client Parsers DispatchProps.

Lemma bisect_loop_spec (a : list Z) (x : Z) (fuel lo hi : nat) :
  (forall i j, i <= j -> j < length a -> (nth i a 0 <= nth j a 0)%Z) ->
  lo <= hi -> hi <= length a -> hi - lo <= fuel ->
  (forall k, k < lo -> (nth k a 0 <= x)%Z) ->
  (forall k, hi <= k -> k < length a -> (x < nth k a 0)%Z) ->
  let i := bisect_loop fuel a x lo hi in
  i <= length a
  /\ (forall k, k < i -> (nth k a 0 <= x)%Z)
  /\ (forall k, i <= k -> k < length a -> (x < nth k a 0)%Z).
Proof.
  intros Hsorted. revert lo hi.
  induction fuel as [|fuel IH]; intros lo hi Hle Hhi Hfuel Hlow Hhigh;
    cbv zeta; cbn [bisect_loop].
  - assert (lo = hi) by lia. subst hi. split; [lia|]. split; assumption.
  - destruct (Nat.ltb_spec lo hi) as [Hlt|Hge].
    + assert (Hmid : lo <= (lo + hi) / 2 < hi).
      { split; [apply Nat.div_le_lower_bound; lia | apply Nat.Div0.div_lt_upper_bound; lia]. }
      destruct (Z.ltb_spec x (nth ((lo + hi) / 2) a 0%Z)) as [Hx|Hx].
      * apply (IH lo ((lo + hi) / 2)); try lia; [exact Hlow|].
        intros k Hk Hlen.
        pose proof (Hsorted ((lo + hi) / 2) k Hk Hlen). lia.
      * apply (IH ((lo + hi) / 2 + 1) hi); try lia; [|exact Hhigh].
        intros k Hk.
        pose proof (Hsorted k ((lo + hi) / 2) ltac:(lia) ltac:(lia)). lia.
    + assert (lo = hi) by lia. subst hi. split; [lia|]. split; assumption.
Qed.

Lemma insert_at_insert_after (x : Callable * Z) (l : list (Callable * Z)) (i : nat) :
  i <= length l ->
  (forall k, k < i -> (nth k l.*2 0 <= x.2)%Z) ->
  (forall k, i <= k -> k < length l -> (x.2 < nth k l.*2 0)%Z) ->
  insert_at i x l = insert_after x l.
Proof.
  revert i. induction l as [|y l IH]; intros i Hi Hlow Hhigh.
  - destruct i; [reflexivity | simpl in Hi; lia].
  - destruct i as [|i]; cbn [insert_after].
    + pose proof (Hhigh 0 ltac:(lia) ltac:(simpl; lia)) as H0. simpl in H0.
      destruct (Z.leb_spec y.2 x.2); [lia | reflexivity].
    + pose proof (Hlow 0 ltac:(lia)) as H0. simpl in H0.
      destruct (Z.leb_spec y.2 x.2); [|lia].
      unfold insert_at in *. simpl. f_equal. apply IH.
      * simpl in Hi. lia.
      * intros k Hk. apply (Hlow (S k)). lia.
      * intros k Hk Hlen. apply (Hhigh (S k)); simpl; lia.
Qed.

Lemma pairs_nth (l : list (Callable * Z)) (i j : nat) :
  ForallOrdPairs by_priority l -> i <= j -> j < length l ->
  (nth i l.*2 0 <= nth j l.*2 0)%Z.
Proof.
  intros Hpairs Hij Hj.
  destruct (decide (i = j)) as [->|Hne]; [lia|].
  destruct (lookup_lt_is_Some_2 l i ltac:(lia)) as [a Ha].
  destruct (lookup_lt_is_Some_2 l j Hj) as [b Hb].
  rewrite !nth_lookup, !list_lookup_fmap, Ha, Hb. simpl.
  apply (pairs_lookup by_priority l i j a b Hpairs); [lia | exact Ha | exact Hb].
Qed.

Lemma add_message_parser_insert_after (f : Callable) (p : Z)
    (l : list (Callable * Z)) :
  ForallOrdPairs by_priority l ->
  add_message_parser f p l = insert_after (f, p) l.
Proof.
  intros Hpairs. unfold add_message_parser.
  assert (Hlen : length l.*2 = length l) by apply length_fmap.
  assert (Hsorted : forall i j, i <= j -> j < length l.*2 ->
            (nth i l.*2 0 <= nth j l.*2 0)%Z).
  { intros i j Hij Hj. apply pairs_nth; [exact Hpairs | exact Hij | lia]. }
  assert (Hlow0 : forall k, k < 0 -> (nth k l.*2 0 <= p)%Z) by (intros k Hk; lia).
  assert (Hhigh0 : forall k, length l.*2 <= k -> k < length l.*2 ->
            (p < nth k l.*2 0)%Z) by (intros k Hk Hk'; lia).
  pose proof (bisect_loop_spec l.*2 p (length l.*2) 0 (length l.*2) Hsorted
                ltac:(lia) ltac:(lia) ltac:(lia) Hlow0 Hhigh0) as (Hi & Hlow & Hhigh).
  apply insert_at_insert_after.
  - unfold bisect. lia.
  - exact Hlow.
  - intros k Hk Hk'. apply Hhigh; [exact Hk | lia].
Qed.

Lemma elem_of_insert_after (x y : Callable * Z) (l : list (Callable * Z)) :
  y ∈ insert_after x l <-> y = x \/ y ∈ l.
Proof.
  induction l as [|z l IH]; simpl.
  - rewrite list_elem_of_singleton. split; [auto | intros [H|H]; [exact H | inversion H]].
  - destruct (z.2 <=? x.2)%Z; rewrite !elem_of_cons; [|reflexivity].
    rewrite IH. tauto.
Qed.

Lemma insert_after_pairs (x : Callable * Z) (l : list (Callable * Z)) :
  ForallOrdPairs by_priority l -> ForallOrdPairs by_priority (insert_after x l).
Proof.
  induction 1 as [|y l Hy Hl IH]; simpl.
  - constructor; constructor.
  - destruct (Z.leb_spec y.2 x.2) as [Hle|Hgt].
    + constructor; [|exact IH].
      apply List.Forall_forall. intros z Hz.
      apply list_elem_of_In, elem_of_insert_after in Hz as [->|Hz]; [exact Hle|].
      rewrite List.Forall_forall in Hy. apply Hy, list_elem_of_In, Hz.
    + constructor; [|constructor; assumption].
      constructor; [unfold by_priority; lia|].
      apply List.Forall_forall. intros z Hz.
      rewrite List.Forall_forall in Hy. pose proof (Hy z Hz) as Hyz.
      unfold by_priority in *. lia.
Qed.

Lemma insert_after_perm (x : Callable * Z) (l : list (Callable * Z)) :
  insert_after x l ≡ₚ l ++ [x].
Proof.
  induction l as [|y l IH]; simpl; [reflexivity|].
  destruct (y.2 <=? x.2)%Z.
  - rewrite IH. reflexivity.
  - rewrite (Permutation_app_comm (y :: l) [x]). reflexivity.
Qed.

Lemma insert_after_same_priority (x : Callable * Z) (l : list (Callable * Z)) (p : Z) :
  ForallOrdPairs by_priority l ->
  List.filter (fun a => (a.2 =? p)%Z) (insert_after x l)
  = List.filter (fun a => (a.2 =? p)%Z) (l ++ [x]).
Proof.
  induction 1 as [|y l Hy Hl IH]; simpl; [reflexivity|].
  destruct (Z.leb_spec y.2 x.2) as [Hle|Hgt]; simpl.
  - rewrite IH. reflexivity.
  - rewrite List.filter_app. simpl.
    destruct (Z.eqb_spec x.2 p) as [Hx|Hx].
    + assert (Hnone : List.filter (fun a => (a.2 =? p)%Z) l = []).
      { apply ParseProps.filter_all_false. apply List.Forall_forall. intros z Hz.
        rewrite List.Forall_forall in Hy. pose proof (Hy z Hz) as Hyz.
        unfold by_priority in Hyz. apply Z.eqb_neq. lia. }
      rewrite Hnone. destruct (Z.eqb_spec y.2 p); [lia | reflexivity].
    + rewrite app_nil_r. reflexivity.
Qed.

Lemma register_all_snoc (adds : list (Callable * Z)) (a : Callable * Z) :
  register_all (adds ++ [a]) = add_message_parser a.1 a.2 (register_all adds).
Proof. unfold register_all. rewrite foldl_app. reflexivity. Qed.

Lemma register_all_pairs (adds : list (Callable * Z)) :
  ForallOrdPairs by_priority (register_all adds)
  /\ register_all adds ≡ₚ adds
  /\ forall p, List.filter (fun a => (a.2 =? p)%Z) (register_all adds)
               = List.filter (fun a => (a.2 =? p)%Z) adds.
Proof.
  induction adds as [|a adds (Hpairs & Hperm & Hsame)] using rev_ind.
  - split; [constructor|]. split; [reflexivity|]. reflexivity.
  - rewrite register_all_snoc.
    rewrite (add_message_parser_insert_after _ _ _ Hpairs).
    replace (a.1, a.2) with a by (destruct a; reflexivity).
    split; [apply insert_after_pairs, Hpairs|]. split.
    + rewrite insert_after_perm, Hperm. reflexivity.
    + intros p. rewrite (insert_after_same_priority _ _ _ Hpairs).
      rewrite !List.filter_app, Hsame. reflexivity.
Qed.

(** [add_message_parser] and [add_after_event] keep the handlers by
    priority.  After any series of registrations, starting with none,
    the list holds what was registered, in ascending priority, and
    handlers of equal priority in the order they were registered; a
    further registration goes after every entry whose priority is not
    greater. *)
Theorem parsers_kept_by_priority (adds : list (Callable * Z)) :
  let parsers := register_all adds in
  parsers ≡ₚ adds
  /\ (forall i j a b, i < j -> parsers !! i = Some a -> parsers !! j = Some b ->
        (a.2 <= b.2)%Z)
  /\ (forall p, List.filter (fun a => (a.2 =? p)%Z) parsers
                = List.filter (fun a => (a.2 =? p)%Z) adds)
  /\ (forall f p, add_message_parser f p parsers = insert_after (f, p) parsers).
Proof.
  intros parsers. destruct (register_all_pairs adds) as (Hpairs & Hperm & Hsame).
  split; [exact Hperm|]. split; [|split; [exact Hsame|]].
  - intros i j a b Hij Ha Hb.
    apply (pairs_lookup by_priority parsers i j a b Hpairs Hij Ha Hb).
  - intros f p. apply add_message_parser_insert_after, Hpairs.
Qed.

End ParsersProps.

(** ** Registering a command *)

Module RegistrationProps.
Import CheckEngine FlagParser Client IndexDefs Registration.
Import EffProps ClientProps IndexProps DispatchProps.

Lemma cmds_app (ms1 ms2 : list Mod.t) :
  concat (Mod.cmds <$> List.filter Mod.enabled (ms1 ++ ms2))
  = concat (Mod.cmds <$> List.filter Mod.enabled ms1)
    ++ concat (Mod.cmds <$> List.filter Mod.enabled ms2).
Proof. rewrite List.filter_app, fmap_app, concat_app. reflexivity. Qed.

Lemma later_commands_none (k : str) (ms : list Mod.t) :
  (forall m c, m ∈ ms -> Mod.enabled m = true -> c ∈ Mod.cmds m ->
               goes_by k c = false) ->
  List.filter (goes_by k) (concat (Mod.cmds <$> List.filter Mod.enabled ms)) = [].
Proof.
  intros H. apply ParseProps.filter_all_false, List.Forall_forall. intros c Hc.
  apply in_concat in Hc as (cs & Hcs & Hc).
  apply list_elem_of_In, list_elem_of_fmap in Hcs as (m & -> & Hm).
  apply list_elem_of_In in Hc.
  apply elem_of_filter_bool in Hm as [Hm Hen].
  apply (H m c Hm Hen Hc).
Qed.

(** The decorator of [Module.cmd] appends the new command to its
    module and rebuilds the name cache.  In an enabled module the
    command is then found under its name and under each alias, unless
    a command of a later module goes by the same key; in a disabled
    module the cache is the one of the commands there were. *)
Theorem registered_command_is_found (i : nat) (name : str) (kwargs : Kwargs)
    (func : Func) (s : State) (m : Mod.t) :
  modules (world s) !! i = Some m ->
  let cmd := Command_init name func i kwargs in
  exists s',
    Module_cmd i name kwargs func s = (Ret cmd, s')
    /\ modules (world s')
       = take i (modules (world s)) ++ append_cmd cmd m :: drop (S i) (modules (world s))
    /\ (forall k, dict_get (cmd_names (world s')) k
                  = last (List.filter (goes_by k) (cmds (world s'))))
    /\ (Mod.enabled m = false ->
        forall k, dict_get (cmd_names (world s')) k
                  = last (List.filter (goes_by k) (cmds (world s))))
    /\ (Mod.enabled m = true ->
        forall k, goes_by k cmd = true ->
          (forall m' c, m' ∈ drop (S i) (modules (world s)) ->
             Mod.enabled m' = true -> c ∈ Mod.cmds m' -> goes_by k c = false) ->
          dict_get (cmd_names (world s')) k = Some cmd).
Proof.
  intros Hm cmd.
  assert (Halter : alter (append_cmd cmd) i (modules (world s))
                   = take i (modules (world s)) ++ append_cmd cmd m
                     :: drop (S i) (modules (world s))).
  { rewrite <- (take_drop_middle _ _ _ Hm) at 1.
    assert (Hlen : length (take i (modules (world s))) = i).
    { apply length_take_le. apply lookup_lt_Some in Hm. lia. }
    rewrite <- Hlen at 1.
    rewrite <- (Nat.add_0_r (length (take i (modules (world s))))) at 1.
    rewrite alter_app_r. reflexivity. }
  set (w' := set_modules (alter (append_cmd cmd) i (modules (world s))) (world s)).
  assert (Hrun : Module_cmd i name kwargs func s
                 = (Ret cmd,
                    MkState (set_cmd_names (foldl add_cmd_names [] (cmds w')) w')
                      (schedule s))).
  { unfold Module_cmd. step.
    rewrite (bind_ret_step _ _ _ _ _ (update_cmdnames_eq _)). reflexivity. }
  assert (Hcmds : cmds w'
    = concat (Mod.cmds <$> List.filter Mod.enabled (take i (modules (world s))))
      ++ (if Mod.enabled m then Mod.cmds m ++ [cmd] else [])
      ++ concat (Mod.cmds <$> List.filter Mod.enabled (drop (S i) (modules (world s))))).
  { unfold cmds, w'. cbn [set_modules modules]. rewrite Halter, cmds_app.
    f_equal. simpl. destruct (Mod.enabled m); reflexivity. }
  assert (Hold : cmds (world s)
    = concat (Mod.cmds <$> List.filter Mod.enabled (take i (modules (world s))))
      ++ (if Mod.enabled m then Mod.cmds m else [])
      ++ concat (Mod.cmds <$> List.filter Mod.enabled (drop (S i) (modules (world s))))).
  { unfold cmds. rewrite <- (take_drop_middle _ _ _ Hm) at 1. rewrite cmds_app.
    f_equal. simpl. destruct (Mod.enabled m); reflexivity. }
  eexists. split; [exact Hrun|].
  change (modules (world (MkState (set_cmd_names (foldl add_cmd_names [] (cmds w')) w')
                            (schedule s))))
    with (alter (append_cmd cmd) i (modules (world s))).
  change (cmd_names (world (MkState (set_cmd_names (foldl add_cmd_names [] (cmds w')) w')
                              (schedule s))))
    with (foldl add_cmd_names [] (cmds w')).
  change (cmds (world (MkState (set_cmd_names (foldl add_cmd_names [] (cmds w')) w')
                         (schedule s))))
    with (cmds w').
  split; [exact Halter|]. split; [intros k; apply names_get|].
  split.
  - intros Hdis k. rewrite names_get, Hcmds, Hold, Hdis. reflexivity.
  - intros Hen k Hk Hlater. rewrite names_get, Hcmds, Hen.
    rewrite !List.filter_app. simpl. rewrite Hk.
    rewrite (later_commands_none k _ Hlater). rewrite app_nil_r.
    rewrite !app_assoc. apply last_snoc.
Qed.

End RegistrationProps.

(** ** The logger *)

Module LoggerProps.
Import Logger.

Lemma split_from_cons (s acc : str) :
  exists line rest, split_from s acc = line :: rest.
Proof.
  revert acc. induction s as [|c s IH]; intros acc; simpl; [eauto|].
  destruct (c =? newline)%N; eauto.
Qed.

Lemma join_split_from (s acc : str) :
  join_newline (split_from s acc) = rev acc ++ s.
Proof.
  revert acc. induction s as [|c s IH]; intros acc; simpl.
  - rewrite app_nil_r. reflexivity.
  - destruct (N.eqb_spec c newline) as [->|Hc].
    + destruct (split_from_cons s []) as (line & rest & Hs).
      pose proof (IH []) as Hj. rewrite Hs in *. simpl in Hj.
      cbn [join_newline]. rewrite Hj. reflexivity.
    + rewrite IH. simpl. rewrite <- app_assoc. reflexivity.
Qed.

Lemma length_split_from (s acc : str) :
  length (split_from s acc) = S (count_occ N.eq_dec s newline).
Proof.
  revert acc. induction s as [|c s IH]; intros acc; simpl; [reflexivity|].
  destruct (N.eqb_spec c newline) as [->|Hc].
  - simpl. rewrite IH. destruct (N.eq_dec newline newline); [reflexivity|congruence].
  - rewrite IH. destruct (N.eq_dec c newline); [contradiction|reflexivity].
Qed.

Lemma not_in_rev (x : N) (l : str) : x ∉ l -> x ∉ rev l.
Proof.
  intros Hl H. apply Hl. apply list_elem_of_In, in_rev, list_elem_of_In. exact H.
Qed.

Lemma split_from_lines (s acc : str) :
  newline ∉ acc -> Forall (fun line => newline ∉ line) (split_from s acc).
Proof.
  revert acc. induction s as [|c s IH]; intros acc Hacc; simpl.
  - constructor; [|constructor]. apply not_in_rev, Hacc.
  - destruct (N.eqb_spec c newline) as [->|Hc].
    + constructor; [apply not_in_rev, Hacc|].
      apply IH. intros H. inversion H.
    + apply IH. intros H. apply elem_of_cons in H as [H|H]; [congruence|contradiction].
Qed.

Lemma length_center (s : str) (width : nat) (fill : N) :
  length (center s width fill) = Nat.max width (length s).
Proof.
  unfold center. destruct (Nat.leb_spec width (length s)) as [Hle|Hlt]; [lia|].
  cbv zeta. rewrite !length_app, !repeat_length.
  set (n := width - length s).
  assert (Hleft : n / 2 + (if Nat.odd n && Nat.odd width then 1 else 0) <= n).
  { pose proof (Nat.div_mod_eq n 2) as Hdm.
    pose proof (Nat.bit0_mod n) as Hbit. rewrite Nat.bit0_odd in Hbit.
    generalize dependent (n / 2). generalize dependent (n mod 2).
    intros r Hr q Hq.
    destruct (Nat.odd n); cbn [andb].
    - assert (r = 1) by (rewrite <- Hr; reflexivity).
      destruct (Nat.odd width); lia.
    - lia. }
  generalize dependent (n / 2 + (if Nat.odd n && Nat.odd width then 1 else 0)).
  intros left Hleft. lia.
Qed.

(** [logger._log] logs one record per line of the message, all at the
    given level and each starting with the context centred in 22
    columns between brackets; the lines, joined by newlines, are the
    message. *)
Theorem log_one_record_per_line {Level : Type} (message context : str)
    (level : Level) :
  let records := _log message context level in
  length records = S (count_occ N.eq_dec message newline)
  /\ Forall (fun r => r.1 = level
                      /\ exists line, r.2 = tag context ++ line /\ newline ∉ line)
       records
  /\ join_newline ((fun r => drop (length (tag context)) r.2) <$> records) = message
  /\ length (tag context) = 3 + Nat.max 22 (length context).
Proof.
  intros records. unfold records, _log, split_newline. split; [|split; [|split]].
  - rewrite length_fmap. apply length_split_from.
  - apply Forall_fmap.
    eapply Forall_impl; [apply (split_from_lines message []); intros H; inversion H|].
    intros line Hline. simpl. split; [reflexivity|]. exists line. auto.
  - rewrite <- list_fmap_compose.
    rewrite (list_fmap_ext _ id (split_from message [])).
    + rewrite list_fmap_id. apply (join_split_from message []).
    + intros i line _. simpl. rewrite drop_app_length. reflexivity.
  - unfold tag. rewrite !length_app, length_center. simpl. lia.
Qed.

End LoggerProps.

(** ** What the calls of [log] write *)

Module LogOutputProps.
Import CheckEngine FlagParser Client LRU ReplyDefs IndexDefs ParseDefs Logger LogOutput.
Import ReplyProps DispatchProps LoggerProps.

(** The default handler writes at least one record for a call, all
    at the level of the call, and at least two for a message with a
    newline. *)
Lemma log_at_level {Level : Type} (message context : str) (level : Level) :
  Forall (fun rec => rec.1 = level) (_log message context level).
Proof. unfold _log. apply Forall_fmap, Forall_forall. intros line _. reflexivity. Qed.

Lemma log_some_record {Level : Type} (message context : str) (level : Level) :
  1 <= length (_log message context level).
Proof.
  unfold _log, split_newline. rewrite length_fmap, length_split_from. lia.
Qed.

Lemma log_two_records {Level : Type} (first rest context : str) (level : Level) :
  2 <= length (_log (first ++ newline :: rest) context level).
Proof.
  unfold _log, split_newline. rewrite length_fmap, length_split_from.
  rewrite count_occ_app. simpl.
  destruct (N.eq_dec newline newline); [lia | congruence].
Qed.

(** The message of [run_cmd] has a first line, then the content of
    the command message. *)
Lemma executing_message_lines (printer : Printer) (cmdname module_name : str)
    (message : Message) :
  exists first,
    message_text printer (ExecutingCommand cmdname module_name message)
    = Some (first ++ newline :: indented (Msg.content message)).
Proof. eexists. unfold message_text. rewrite !app_assoc. reflexivity. Qed.

Section Program.
Variable env : Env.
Variable printer : Printer.

(** [Command.run] absorbs the outcome of the task of the command,
    whether the task returns or raises one of the exceptions of
    [exn]: [FailedCheck], [SafeCancellation], a timeout, a
    cancellation or another [Exception] (an exception that is neither
    an [Exception] nor a cancellation, such as [KeyboardInterrupt],
    is not among them).  For a context with a message and a channel
    that accepts what is sent, once the task is over [Command.run]
    returns, having called [log] exactly once, under the identity of
    the message, and requested at most one send, to the channel of
    the context.  The call is at level [ERROR] exactly when the task
    raised an exception other than [FailedCheck], [SafeCancellation],
    a timeout or a cancellation, and its message then quotes the
    traceback after a first line.  For that one call the default
    handler writes one record per line of the message, all at the
    level of the call: at least one record, and two or more at level
    [ERROR].  Nothing is sent when the task returned or was
    cancelled. *)
Theorem command_run_reports_outcome (c : Command) (r : nat) (st s1 : State)
    (o : outcome exn unit) (m : Message) (ch : Z) :
  await_task env c r st = (o, s1) ->
  o <> Pending ->
  Ctx.msg (ctx_at (world s1) r) = Some m ->
  Ctx.ch (ctx_at (world s1) r) = Some ch ->
  (forall w p, exists sent, send env w ch p = Ret sent) ->
  exists st' lvl text sends records,
    Command_run env c r st = (Ret tt, st')
    /\ log_records (world st')
       = log_records (world s1) ++ [MkLog lvl (MidContext (Msg.id m)) text]
    /\ (lvl = ERROR <-> exists e, o = Raise e /\ unexpected e = true)
    /\ (forall e, o = Raise e -> unexpected e = true -> text = CommandException e)
    /\ written_for printer (MkLog lvl (MidContext (Msg.id m)) text) = Some records
    /\ Forall (fun rec => rec.1 = lvl) records
    /\ 1 <= length records
    /\ (lvl = ERROR -> 2 <= length records)
    /\ calls (world st') = calls (world s1) ++ sends
    /\ length sends <= 1
    /\ Forall (is_send ch) sends
    /\ (o = Ret tt \/ o = Raise CancelledError -> sends = []).
Proof.
  intros Hrun Hout Hm Hch Hsend.
  destruct (command_run_outcome env c r st s1 o m ch Hrun Hout Hm Hch Hsend)
    as (st' & lvl & text & sends & Hret & Hlogs & Hlvl & Hcalls & Hlen & Hall
        & Hquiet & Htext & Hparser).
  destruct (message_text printer text) as [message|] eqn:Hmessage;
    [|destruct text; try discriminate; exfalso; eapply Hparser; reflexivity].
  exists st', lvl, text, sends,
    (_log message (context_text (MidContext (Msg.id m))) lvl).
  split; [exact Hret|]. split; [exact Hlogs|]. split; [exact Hlvl|].
  split; [exact Htext|].
  split; [unfold written_for; cbn [Client.text]; rewrite Hmessage; reflexivity|].
  split; [apply log_at_level|]. split; [apply log_some_record|].
  split; [|auto].
  intros Herror. apply Hlvl in Herror as (e & He & Hu).
  rewrite (Htext e He Hu) in Hmessage.
  assert (Hlines : message
                   = py "Caught the following exception while running command:"
                     ++ newline :: format_exc printer e)
    by (cbn [message_text] in Hmessage; congruence).
  rewrite Hlines. apply log_two_records.
Qed.

(** [run_cmd] up to its [try] statement.  The command found under the
    name gets a new context built from the message; the snapshot of
    that context is cached and the context is registered under the
    message before [Command.run] starts, with nothing requested so
    far.  [log] is called once, with the message that quotes the
    content of the command message after a first line; for that call
    the default handler writes one record per line, two or more, all
    at level [INFO].  For a disabled module [log] is called a second
    time, to say that the command is skipped, and the name cache is
    rebuilt, but the command runs all the same. *)
Theorem run_cmd_registers_then_runs (message : Message) (cmdname arg pfx : str)
    (c : Command) (st : State) :
  let w := world st in
  let mid := Msg.id message in
  let r := next_context w in
  let m := module_at w (Cmd.module c) in
  let executing :=
    MkLog INFO (MidContext mid) (ExecutingCommand cmdname (Mod.name m) message) in
  dict_get (cmd_names w) cmdname = Some c ->
  exists s1 records,
    run_cmd env message cmdname arg pfx st = run_cmd_try env message cmdname c r s1
    /\ schedule s1 = schedule st
    /\ calls (world s1) = calls w
    /\ active_contexts (world s1) = <[mid := r]> (active_contexts w)
    /\ ctx_at (world s1) r = Ctx.init message arg cmdname c pfx
    /\ LRU.peek (ctx_cache (world s1)) mid
       = Some (Ctx.flatten (Ctx.init message arg cmdname c pfx))
    /\ (if Mod.enabled m
        then log_records (world s1) = log_records w ++ [executing]
             /\ cmd_names (world s1) = cmd_names w
        else log_records (world s1)
             = log_records w
               ++ [executing; MkLog INFO (MidContext mid) SkippingDisabledModule]
             /\ forall k, dict_get (cmd_names (world s1)) k
                          = last (List.filter (goes_by k) (cmds w)))
    /\ written_for printer executing = Some records
    /\ Forall (fun rec => rec.1 = INFO) records
    /\ 2 <= length records.
Proof.
  intros w mid r m executing Hcmd.
  destruct (run_cmd_reaches_try env message cmdname arg pfx c st Hcmd)
    as (s1 & Hrun & Hsched & Hcalls & Hactive & Hctx & Hpeek & Hlogs).
  destruct (executing_message_lines printer cmdname (Mod.name m) message)
    as [first Hfirst].
  exists s1, (_log (first ++ newline :: indented (Msg.content message))
                (context_text (MidContext mid)) INFO).
  split; [exact Hrun|]. split; [exact Hsched|]. split; [exact Hcalls|].
  split; [exact Hactive|]. split; [exact Hctx|]. split; [exact Hpeek|].
  split; [exact Hlogs|].
  split; [unfold written_for, executing; cbn [Client.text]; rewrite Hfirst; reflexivity|].
  split; [apply log_at_level | apply log_two_records].
Qed.

End Program.
End LogOutputProps.

(** ** The global permission checks *)

Module GlobalPermsProps.
Import CheckEngine FlagParser Client GlobalPerms.
Import EffProps ClientProps ReplyProps CommandProps.
Section Program.
Variable env : Env.

Lemma command_run_handles (c : Command) (r : nat)
    (flags : option (gmap str FlagValue)) (st s1 s2 : State) (e : exn) :
  reach_func c r st = (Ret flags, s1) ->
  call_Func env (Cmd.func c) r flags s1 = (Raise e, s2) ->
  Command_run env c r st = handle_exception env r e s2.
Proof.
  intros Hreach Hcall.
  unfold reach_func in Hreach.
  rewrite (bind_ret_step _ _ _ _ _ (ensure_future_eq _ _)) in Hreach.
  step_in Hreach.
  unfold Command_run.
  rewrite (bind_ret_step _ _ _ _ _ (ensure_future_eq _ _)).
  step.
  rewrite (exec_wrapper_reaches env _ _ _ _ _ _ _ Hreach Hcall). reflexivity.
Qed.

Lemma handle_failed_check (chk : Check Callable) (r : nat) (s : State)
    (m sent : Message) (ch : Z) :
  truthy (msg chk) = true ->
  Ctx.msg (ctx_at (world s) r) = Some m ->
  Ctx.ch (ctx_at (world s) r) = Some ch ->
  (forall w p, send env w ch p = Ret sent) ->
  exists s',
    handle_exception env r (FailedCheck chk) s = (Ret tt, s')
    /\ refused chk r m sent ch s s'.
Proof.
  intros Htext Hm Hch Hsend. unfold handle_exception.
  rewrite (bind_ret_step _ _ _ _ _ (log_mid_eq _ _ _ _ _ Hm)).
  rewrite Htext.
  erewrite bind_ret_step; cycle 1.
  { apply error_reply_sent; [exact Hch | apply Hsend]. }
  eexists. split; [reflexivity|]. cbn [world].
  split; [reflexivity|]. split; [reflexivity|].
  apply ctx_at_some in Hm.
  unfold ctx_at. simpl. rewrite lookup_alter_eq. unfold ctx_at in Hm.
  rewrite Hm. reflexivity.
Qed.

Lemma run_plain_check (chk : Check Callable) (r : nat) (args : Args) (s : State) :
  parents chk = [] -> required chk = [] ->
  CheckEngine.run (call_check env) chk (r, args) s
  = call_check env (check_func chk) (r, args) s.
Proof.
  intros Hp Hr. destruct chk as [n t f ps rs]. simpl in Hp, Hr. subst. reflexivity.
Qed.

(** A command under the [in_guild] check.  In a context without a
    guild [Command.run] returns having sent the message of the check
    and logged the failure at [DEBUG]; in a context with a guild the
    check passes and the command function is called. *)
Theorem in_guild_refuses_direct_messages (c : Command) (r : nat) (f : Callable)
    (args : Args) (inner : Func) (flags : option (gmap str FlagValue))
    (st s1 : State) (m sent : Message) (ch : Z) :
  Cmd.func c = Checked (in_guild f) args inner ->
  call_check env f (r, args) = in_guild_func r ->
  reach_func c r st = (Ret flags, s1) ->
  Ctx.msg (ctx_at (world s1) r) = Some m ->
  Ctx.ch (ctx_at (world s1) r) = Some ch ->
  (forall w p, send env w ch p = Ret sent) ->
  match Ctx.guild (ctx_at (world s1) r) with
  | None =>
      exists st',
        Command_run env c r st = (Ret tt, st')
        /\ refused (in_guild f) r m sent ch s1 st'
  | Some _ =>
      call_Func env (Cmd.func c) r flags s1 = call_Func env inner r flags s1
  end.
Proof.
  intros Hfunc Hcheck Hreach Hm Hch Hsend.
  assert (Hrun : CheckEngine.run (call_check env) (in_guild f) (r, args) s1
                 = (Ret (match Ctx.guild (ctx_at (world s1) r) with
                         | Some _ => true | None => false end), s1)).
  { rewrite run_plain_check by reflexivity. cbn [check_func in_guild check].
    rewrite Hcheck. reflexivity. }
  destruct (Ctx.guild (ctx_at (world s1) r)) as [g|].
  - rewrite Hfunc. cbn [call_Func]. unfold bind at 1. rewrite Hrun. reflexivity.
  - assert (Hcall : call_Func env (Cmd.func c) r flags s1
                    = (Raise (FailedCheck (in_guild f)), s1)).
    { rewrite Hfunc. cbn [call_Func]. unfold bind at 1. rewrite Hrun. reflexivity. }
    rewrite (command_run_handles _ _ _ _ _ _ _ Hreach Hcall).
    apply (handle_failed_check (in_guild f) r s1 m sent ch eq_refl Hm Hch Hsend).
Qed.

(** A command under the [is_owner] check.  An author who is among the
    owners gets the command function called; for any other author
    [Command.run] returns having sent the message of the check and
    logged the failure at [DEBUG]. *)
Theorem is_owner_refuses_others (c : Command) (r : nat) (f : Callable)
    (owners : list Z) (args : Args) (inner : Func)
    (flags : option (gmap str FlagValue))
    (st s1 : State) (m sent : Message) (ch author : Z) :
  Cmd.func c = Checked (is_owner f) args inner ->
  call_check env f (r, args) = is_owner_func owners r ->
  reach_func c r st = (Ret flags, s1) ->
  Ctx.msg (ctx_at (world s1) r) = Some m ->
  Ctx.ch (ctx_at (world s1) r) = Some ch ->
  Ctx.author (ctx_at (world s1) r) = Some author ->
  (forall w p, send env w ch p = Ret sent) ->
  if bool_decide (author ∈ owners)
  then call_Func env (Cmd.func c) r flags s1 = call_Func env inner r flags s1
  else exists st',
         Command_run env c r st = (Ret tt, st')
         /\ refused (is_owner f) r m sent ch s1 st'.
Proof.
  intros Hfunc Hcheck Hreach Hm Hch Hauthor Hsend.
  assert (Hrun : CheckEngine.run (call_check env) (is_owner f) (r, args) s1
                 = (Ret (bool_decide (author ∈ owners)), s1)).
  { rewrite run_plain_check by reflexivity. cbn [check_func is_owner check].
    rewrite Hcheck. unfold is_owner_func. step. rewrite Hauthor. reflexivity. }
  destruct (bool_decide (author ∈ owners)).
  - rewrite Hfunc. cbn [call_Func]. unfold bind at 1. rewrite Hrun. reflexivity.
  - assert (Hcall : call_Func env (Cmd.func c) r flags s1
                    = (Raise (FailedCheck (is_owner f)), s1)).
    { rewrite Hfunc. cbn [call_Func]. unfold bind at 1. rewrite Hrun. reflexivity. }
    rewrite (command_run_handles _ _ _ _ _ _ _ Hreach Hcall).
    apply (handle_failed_check (is_owner f) r s1 m sent ch eq_refl Hm Hch Hsend).
Qed.

End Program.
End GlobalPermsProps.

(** ** Mentions in replies *)

Module MentionProps.
Import CheckEngine FlagParser Client Mentions ReplyDefs SteriliseProps.
Import EffProps ClientProps ReplyProps.

Lemma startswith_app (s p : str) :
  startswith s p = true -> s = p ++ drop (length p) s.
Proof.
  revert s. induction p as [|x p IH]; intros s H; [reflexivity|].
  destruct s as [|c s]; [discriminate|]. cbn [startswith] in H.
  apply andb_prop in H as [Hc H]. apply N.eqb_eq in Hc. subst c.
  simpl. f_equal. apply IH, H.
Qed.

Lemma replace_only_inserts (old_tail : str) (zw : N) (s : str) :
  zw <> at_sign ->
  List.filter (fun c => negb (c =? zw)%N)
    (replace s (at_sign :: old_tail) (at_sign :: zw :: old_tail))
  = List.filter (fun c => negb (c =? zw)%N) s.
Proof.
  intros Hzw.
  remember (length s) as n eqn:Hn. revert s Hn.
  induction n as [n IH] using lt_wf_ind. intros s Hn.
  rewrite replace_unfold by discriminate.
  destruct (startswith s (at_sign :: old_tail)) eqn:Hs.
  - rewrite (startswith_app _ _ Hs) at 2.
    rewrite !List.filter_app.
    rewrite (IH (length (drop (length (at_sign :: old_tail)) s))); [| |reflexivity].
    + f_equal. cbn [List.filter].
      rewrite N.eqb_refl. cbn [negb].
      destruct (negb (at_sign =? zw)%N); reflexivity.
    + subst n. rewrite length_drop. destruct s; [discriminate|]. simpl. lia.
  - destruct s as [|c s]; [reflexivity|]. cbn [List.filter].
    rewrite (IH (length s)); [reflexivity | subst n; simpl; lia | reflexivity].
Qed.

(** [sterilise_content] leaves no [@everyone] and no [@here] in its
    result, and changes the text only by inserting zero-width spaces:
    with those removed, the result and the input agree. *)
Theorem sterilise_content_only_breaks_mentions (content : str) :
  has_substring (sterilise_content content) (py "@everyone") = false
  /\ has_substring (sterilise_content content) (py "@here") = false
  /\ List.filter (fun c => negb (c =? zero_width_space)%N) (sterilise_content content)
     = List.filter (fun c => negb (c =? zero_width_space)%N) content.
Proof.
  destruct (sterilise_no_mention content) as [H1 H2].
  split; [exact H1|]. split; [exact H2|].
  unfold sterilise_content.
  assert (Hzw : zero_width_space <> at_sign) by discriminate.
  destruct (has_substring _ _ || has_substring _ _).
  - rewrite (replace_only_inserts [] zero_width_space _ Hzw).
    rewrite (replace_only_inserts (py "here") zero_width_space _ Hzw).
    apply (replace_only_inserts (py "everyone") zero_width_space _ Hzw).
  - rewrite (replace_only_inserts (py "here") zero_width_space _ Hzw).
    apply (replace_only_inserts (py "everyone") zero_width_space _ Hzw).
Qed.

Section Program.
Variable env : Env.

(** [Context.reply] makes one send request to the channel of the
    context, whatever the platform answers, and unless
    [allow_everyone] is set the content it sends holds no [@everyone]
    and no [@here].  A context without a channel raises
    [AttributeError] and requests nothing. *)
Theorem reply_never_mentions_everyone (r : nat) (content : option str)
    (allow_everyone : bool) (s : State) :
  match Ctx.ch (ctx_at (world s) r) with
  | Some ch =>
      calls (world (reply env r content allow_everyone s).2)
      = calls (world s) ++ [Send ch (Content (sent_content content allow_everyone))]
      /\ (allow_everyone = false ->
          forall text, sent_content content allow_everyone = Some text ->
            has_substring text (py "@everyone") = false
            /\ has_substring text (py "@here") = false)
  | None =>
      reply env r content allow_everyone s = (Raise (PyError (py "AttributeError")), s)
  end.
Proof.
  destruct (Ctx.ch (ctx_at (world s) r)) as [ch|] eqn:Hch.
  - split.
    + rewrite (reply_eq env r content allow_everyone s ch Hch).
      destruct (send env _ ch _); reflexivity.
    + intros -> text. unfold sent_content.
      destruct content as [[|x c]|]; [| |discriminate].
      * intros [= <-]. split; reflexivity.
      * intros [= <-]. apply sterilise_no_mention.
  - unfold reply. unfold bind, get_world. rewrite Hch. reflexivity.
Qed.

End Program.
End MentionProps.

(** ** Flags and cancellations of a command *)

Module CommandMoreProps.
Import CheckEngine FlagParser Client StrShapes FlagMore ReplyDefs Cancellations.
Import EffProps ClientProps PyStrProps FlagProps FlagMoreProps ReplyProps CommandProps.

Lemma declared_flag_present (args : str) (flags : list str) (flag : str) :
  flag ∈ flags -> is_Some ((flag_parser args flags).1 !! clean_flag flag).
Proof.
  intros Hflag. rewrite flag_parser_unfold. cbn [fst snd].
  set (params := (split_terminator (split_words args)).1).
  assert (Hparams : Forall (fun p => blank p \/ word p) params)
    by apply split_terminator_parts, split_words_parts.
  destruct (flag_index params flag) as [i|] eqn:Hi.
  - eapply build_present; [exact Hparams|].
    apply elem_of_sorted, find_flags_indices. right. split; eassumption.
  - apply build_keeps; [exact Hparams|].
    rewrite (find_flags_absent _ _ _ _ _ Hflag Hi). eauto.
Qed.

Section Program.
Variable env : Env.

(** A command that declares flags has them parsed from [ctx.arg_str]
    before its function is called: the dictionary passed holds an
    entry for every declared flag, [ctx.args] becomes the text that
    remains while [ctx.arg_str] is kept, nothing is requested, and
    with the module ready [exec_wrapper] is the call of the command
    function with that dictionary. *)
Theorem declared_flags_are_passed (c : Command) (r : nat) (s : State) (a : str) :
  Cmd.flags c <> [] ->
  Ctx.arg_str (ctx_at (world s) r) = Some a ->
  let parsed := flag_parser a (Cmd.flags c) in
  exists s',
    parse_flags c r s = (Ret (Some parsed.1), s')
    /\ (forall flag, flag ∈ Cmd.flags c -> is_Some (parsed.1 !! clean_flag flag))
    /\ Ctx.args (ctx_at (world s') r) = Some parsed.2
    /\ Ctx.arg_str (ctx_at (world s') r) = Some a
    /\ calls (world s') = calls (world s)
    /\ (Mod.ready (module_at (world s) (Cmd.module c)) = true ->
        exec_wrapper env c r s = call_Func env (Cmd.func c) r (Some parsed.1) s').
Proof.
  intros Hflags Harg parsed.
  assert (Hctx : contexts (world s) !! r = Some (ctx_at (world s) r)).
  { unfold ctx_at in *. destruct (contexts (world s) !! r); [reflexivity | discriminate]. }
  assert (Hparse : parse_flags c r s
    = (Ret (Some parsed.1),
       MkState (set_contexts (alter (set_args (Some parsed.2)) r (contexts (world s)))
                  (world s)) (schedule s))).
  { unfold parse_flags. destruct (Cmd.flags c) as [|f fs] eqn:Hf; [congruence|].
    step. rewrite Harg. unfold parsed.
    destruct (flag_parser a (f :: fs)) as [flags rest]. reflexivity. }
  eexists. split; [exact Hparse|].
  split; [intros flag Hflag; apply declared_flag_present, Hflag|].
  cbn [world]. rewrite (ctx_at_alter _ _ _ _ Hctx).
  split; [reflexivity|]. split; [exact Harg|]. split; [reflexivity|].
  intros Hready. rewrite exec_wrapper_transparent.
  erewrite bind_ret_step; cycle 1.
  { unfold pre_command. step. rewrite Hready. reflexivity. }
  rewrite (bind_ret_step _ _ _ _ _ Hparse). reflexivity.
Qed.

(** A [SafeCancellation] raised by the command is answered, not
    raised: [Command.run] returns having logged one record at [DEBUG]
    with the details, which default to the message, and having sent
    the message as an embed when there is one.  The message is the one
    given, or the default of the class when none, or an empty one, is
    given. *)
Theorem safe_cancellation_is_answered (c : Command) (r : nat) (st s1 : State)
    (cls : str) (default_msg msg details : option str) (m sent : Message) (ch : Z) :
  await_task env c r st
  = (Raise (SafeCancellation_init cls default_msg msg details), s1) ->
  Ctx.msg (ctx_at (world s1) r) = Some m ->
  Ctx.ch (ctx_at (world s1) r) = Some ch ->
  (forall w p, send env w ch p = Ret sent) ->
  let text := or_else msg default_msg in
  exists st',
    Command_run env c r st = (Ret tt, st')
    /\ log_records (world st')
       = log_records (world s1)
         ++ [MkLog DEBUG (MidContext (Msg.id m))
               (SafeCancellationCaught cls (or_else details text))]
    /\ calls (world st')
       = calls (world s1)
         ++ match text with Some t => [Send ch (Embed t)] | None => [] end
    /\ (truthy msg = true -> text = msg)
    /\ (truthy msg = false -> text = default_msg).
Proof.
  intros Hrun Hm Hch Hsend text.
  assert (Htext : (truthy msg = true -> text = msg)
                  /\ (truthy msg = false -> text = default_msg)).
  { unfold text, or_else, truthy. destruct msg as [[|x t]|]; split; congruence. }
  unfold Command_run. fold (await_task env c r). rewrite Hrun.
  unfold SafeCancellation_init. fold text. unfold handle_exception.
  rewrite (bind_ret_step _ _ _ _ _ (log_mid_eq _ _ _ _ _ Hm)).
  destruct text as [t|].
  - erewrite bind_ret_step; cycle 1.
    { apply error_reply_sent; [exact Hch | apply Hsend]. }
    eexists. split; [reflexivity|]. cbn [world].
    split; [reflexivity|]. split; [reflexivity | exact Htext].
  - eexists. split; [reflexivity|]. cbn [world].
    split; [reflexivity|]. split; [simpl; rewrite app_nil_r; reflexivity | exact Htext].
Qed.

End Program.
End CommandMoreProps.

(** ** More properties at the sample data *)

Module MoreSampleProps.

Import CheckEngine FlagParser Client LRU Samples.
Import StrShapes FlagMore Mentions Decorator ReplyDefs IndexDefs ParseDefs.
Import Parsers Registration GlobalPerms Cancellations MoreSamples.
Import FlagMoreProps SteriliseProps CheckMoreProps DecoratorProps ReplyProps.
Import CommandProps IndexProps ParseProps DispatchProps RegistrationProps.
Import GlobalPermsProps CommandMoreProps LogOutput LogOutputProps.

(** [run_fault_propagates] at the sample checks: the second parent
    raises, and the third is never asked. *)
Lemma run_fault_propagates_witness :
  run call_faulty shielded tt 0 = (Raise tt, 2).
Proof.
  apply (proj1 (run_fault_propagates call_faulty shielded tt 0)
           [refuses] broken [accepts] 1 2 (Raise tt)).
  - reflexivity.
  - apply each_cons with (s1 := 1); [reflexivity | apply each_nil].
  - reflexivity.
  - discriminate.
Defined.

(** [function_runs_after_checks] at [guarded]: the first check
    passes, the second fails. *)
Lemma function_runs_after_checks_witness :
  call_Func (sample_env false) (Cmd.func guarded) 0 None (MkState running_world [])
  = (Raise (FailedCheck loud_check), MkState running_world []).
Proof.
  apply (proj1 (proj2 (function_runs_after_checks (sample_env false)
                         (Cmd.func guarded) 0 None (MkState running_world [])))).
  apply fails_inside with (s0 := MkState running_world []); [reflexivity|].
  apply fails_here. reflexivity.
Defined.

Ltac decided := apply (bool_decide_unpack _); vm_compute; exact I.

(** [every_declared_flag_reported] at ["x -a y"]: the flag [c] is
    declared and absent. *)
Lemma every_declared_flag_reported_witness :
  (flag_parser (py "x -a y") [py "a="; py "c"]).1 !! py "c" = Some (FlagBool false).
Proof.
  apply (proj1 (proj2 (every_declared_flag_reported (py "x -a y") [py "a="; py "c"]))
           (py "c")).
  - right. left.
  - unfold occurs. decided.
Defined.

(** [flag_values_well_formed] at ["x -a y"]: the text that remains
    is stripped. *)
Lemma flag_values_well_formed_witness :
  stripped (flag_parser (py "x -a y ") [py "a="; py "c"]).2.
Proof.
  apply (proj2 (flag_values_well_formed (py "x -a y ") [py "a="; py "c"])).
Defined.

(** [text_without_flags_comes_back] at a text without flags. *)
Lemma text_without_flags_witness :
  (flag_parser (py "  hello   world ") [py "a"]).2 = py "hello   world".
Proof.
  destruct (text_without_flags_comes_back (py "  hello   world ") [py "a"])
    as [_ Hback].
  - intros flag Hflag. apply list_elem_of_singleton in Hflag. subst flag.
    unfold occurs. decided.
  - rewrite Hback; reflexivity.
Defined.

(** [sterilise_content_without_at] at a text without an at sign. *)
Lemma sterilise_content_without_at_witness :
  sterilise_content (py "hello there") = py "hello there".
Proof. apply sterilise_content_without_at. decided. Defined.

(** [error_reply_records] where embeds are refused: response 77 was
    there, and the reply 500 is noted twice. *)
Lemma error_reply_records_witness :
  exists s',
    error_reply plain_only_env 0 (py "no") (MkState running_world [])
    = (Ret (Msg.Mk 500 [] 5 None 0), s')
    /\ Msg.id <$> Ctx.sent_messages (ctx_at (world s') 0) = [77; 500; 500]%Z.
Proof.
  edestruct (proj2 (error_reply_records plain_only_env 0 (py "no")
                      (MkState running_world []) 5 running_context
                      eq_refl eq_refl) (Msg.Mk 500 [] 5 None 0))
    as (s' & Hrun & _ & Hsent).
  - reflexivity.
  - reflexivity.
  - exists s'. split; [exact Hrun|]. rewrite Hsent. reflexivity.
Defined.

(** [command_run_reports_outcome] at [welcome] with a function that
    raises a [ValueError]: the exception is absorbed, [log] is called
    once at [ERROR], and the default handler writes two records or
    more for that call. *)
Lemma command_run_reports_outcome_witness :
  exists st' records,
    Command_run failing_env welcome 0 (MkState running_world []) = (Ret tt, st')
    /\ level <$> log_records (world st') = [ERROR]
    /\ written_for sample_printer
         (MkLog ERROR (MidContext 10) (CommandException (PyError (py "ValueError"))))
       = Some records
    /\ 2 <= length records.
Proof.
  set (st := MkState running_world []).
  destruct (command_run_reports_outcome failing_env sample_printer welcome 0 st
              (await_task failing_env welcome 0 st).2
              (await_task failing_env welcome 0 st).1
              command_message 5)
    as (st' & lvl & text & sends & records & Hrun & _ & Hlvl & Htext & Hwritten
        & _ & _ & Htwo & _).
  - apply surjective_pairing.
  - vm_compute. discriminate.
  - vm_compute. reflexivity.
  - vm_compute. reflexivity.
  - intros w p. eexists. reflexivity.
  - assert (Herror : lvl = ERROR).
    { apply Hlvl. exists (PyError (py "ValueError")). split; vm_compute; reflexivity. }
    rewrite (Htext (PyError (py "ValueError"))) in Hwritten
      by (vm_compute; reflexivity).
    subst lvl. exists st', records. split; [exact Hrun|].
    split; [|split; [exact Hwritten | apply Htwo; reflexivity]].
    apply (f_equal snd) in Hrun. cbn [snd] in Hrun. subst st'.
    vm_compute. reflexivity.
Defined.

(** [command_run_needs_message] at a reference that holds no
    context. *)
Lemma command_run_needs_message_witness :
  (Command_run (sample_env false) guarded 5 (MkState running_world [])).1
  = Raise (PyError (py "AttributeError")).
Proof.
  set (st := MkState running_world []).
  rewrite (command_run_needs_message (sample_env false) guarded 5 st
             (await_task (sample_env false) guarded 5 st).2
             (await_task (sample_env false) guarded 5 st).1).
  - reflexivity.
  - apply surjective_pairing.
  - vm_compute. discriminate.
  - vm_compute. reflexivity.
Defined.

(** [gating_failure_replies] at [guarded]: the message of [LOUD] is
    sent to channel 5. *)
Lemma gating_failure_replies_witness :
  exists st',
    Command_run (sample_env false) guarded 0 (MkState running_world []) = (Ret tt, st')
    /\ calls (world st')
       = [EnsureFuture 1 (ExecWrapper guarded 0); Send 5 (Embed (py "Not allowed."))]
    /\ Msg.id <$> Ctx.sent_messages (ctx_at (world st') 0) = [77; 500]%Z.
Proof.
  edestruct (gating_failure_replies (sample_env false) guarded 0 loud_check
               None (MkState running_world []))
    as (st' & Hrun & Hcalls & _ & Hsent).
  - vm_compute. reflexivity.
  - apply fails_inside with (s0 := (reach_func guarded 0 (MkState running_world [])).2);
      [vm_compute; reflexivity|].
    apply fails_here. vm_compute. reflexivity.
  - reflexivity.
  - discriminate.
  - vm_compute. reflexivity.
  - vm_compute. reflexivity.
  - intros w. reflexivity.
  - exists st'. split; [exact Hrun|]. split.
    + rewrite Hcalls. vm_compute. reflexivity.
    + rewrite Hsent. vm_compute. reflexivity.
Defined.

(** [command_waits_for_module] at the sample module, launched during
    the first sleep. *)
Lemma command_waits_for_module_witness :
  exists w,
    pre_command 0 0 (MkState waiting_world [make_ready]) = (Ret tt, MkState w [])
    /\ level <$> log_records w = [INFO].
Proof.
  eexists. split.
  - apply (proj1 (command_waits_for_module (sample_env false) ping 0
                    (MkState waiting_world [make_ready]) command_message
                    eq_refl eq_refl) [make_ready] []).
    + reflexivity.
    + intros k Hk. destruct k as [|k]; [reflexivity | simpl in Hk; lia].
    + reflexivity.
  - vm_compute. reflexivity.
Defined.

(** [registered_command_is_found] at the sample module: a new command
    is found under its name and its alias. *)
Lemma registered_command_witness :
  let kwargs := MkKwargs None (Some [py "hi"]) None None None in
  let cmd := Command_init (py "hello") (Plain 3) 0 kwargs in
  exists s',
    Module_cmd 0 (py "hello") kwargs (Plain 3) (MkState finished_world []) = (Ret cmd, s')
    /\ dict_get (cmd_names (world s')) (py "hello") = Some cmd
    /\ dict_get (cmd_names (world s')) (py "hi") = Some cmd.
Proof.
  intros kwargs cmd.
  destruct (registered_command_is_found 0 (py "hello") kwargs (Plain 3)
              (MkState finished_world []) base_module eq_refl)
    as (s' & Hrun & _ & _ & _ & Hfound).
  exists s'. split; [exact Hrun|]. split.
  - apply (Hfound eq_refl); [reflexivity|].
    intros m' c Hm'. inversion Hm'.
  - apply (Hfound eq_refl); [reflexivity|].
    intros m' c Hm'. inversion Hm'.
Defined.

(** [dispatch_finds_command] at the names [he] and [help]. *)
Lemma dispatch_finds_command_witness :
  exists c, dict_get [(py "he", ping); (py "help", welcome)] (py "help") = Some c.
Proof.
  apply (dispatch_finds_command (sample_env false)
           [(py "he", ping); (py "help", welcome)] (py "!Help me") [py "!"]
           (py "help") (py "me") (py "!")).
  vm_compute. reflexivity.
Defined.

(** [dispatch_under_greatest_prefix] at the prefixes [!] and [!!]
    and the commands [ping] and [!ping]: ["!!ping x"] runs [ping]
    under [!!]. *)
Lemma greatest_prefix_witness :
  parse_message two_prefix_env doubled_message (MkState two_prefix_world [])
  = run_cmd two_prefix_env doubled_message (py "ping") (py "x") (py "!!")
      (MkState two_prefix_world []).
Proof.
  destruct (dispatch_under_greatest_prefix two_prefix_env doubled_message
              (MkState two_prefix_world []) (MkState two_prefix_world [])
              [py "!"; py "!!"] eq_refl)
    as [Hrun _].
  destruct Hrun as (cmdname & arg & pfx & Hrun & (Hpfx & _) & Hgreatest & _
                    & Hname & Hmatch & Harg).
  - exists (py "!"). split; [left|]. split; vm_compute; reflexivity.
  - assert (Hpfx' : pfx = py "!!").
    { apply elem_of_cons in Hpfx as [->|Hpfx];
        [|apply list_elem_of_singleton in Hpfx; exact Hpfx].
      assert (Hle : leb (py "!!") (py "!") = true).
      { apply Hgreatest. split; [right; left|]. split; vm_compute; reflexivity. }
      vm_compute in Hle. discriminate. }
    subst pfx.
    assert (Hname' : cmdname = py "ping").
    { apply elem_of_cons in Hname as [->|Hname]; [reflexivity|].
      apply list_elem_of_singleton in Hname. subst cmdname.
      vm_compute in Hmatch. discriminate. }
    subst cmdname. rewrite Hrun, Harg. reflexivity.
Defined.

(** [parse_message_without_command] at a message without the prefix:
    the two parsers become tasks 0 and 1. *)
Lemma parse_message_without_command_witness :
  exists s',
    parse_message (sample_env false) chat_message
      (MkState (parsing_world (Some (py "!"))) []) = (Ret tt, s')
    /\ calls (world s')
       = [EnsureFuture 0 (MessageParser 7 chat_message);
          EnsureFuture 1 (MessageParser 8 chat_message)].
Proof.
  destruct (parse_message_without_command (sample_env false) chat_message
              (MkState (parsing_world (Some (py "!"))) [])
              (MkState (parsing_world (Some (py "!"))) []) [py "!"])
    as (s' & Hrun & Hcalls & _).
  - vm_compute. reflexivity.
  - left. repeat constructor.
  - exists s'. split; [exact Hrun|]. rewrite Hcalls. reflexivity.
Defined.

(** [missing_prefix_closes_client] at the client without a prefix:
    on a platform where the close returns the loop over the two
    parsers follows, and where it raises nothing follows the
    request. *)
Lemma missing_prefix_witness :
  (exists s',
     parse_message (sample_env false) chat_message
       (MkState (parsing_world None) []) = (Ret tt, s')
     /\ calls (world s')
        = [Close; EnsureFuture 0 (MessageParser 7 chat_message);
           EnsureFuture 1 (MessageParser 8 chat_message)]
     /\ level <$> log_records (world s') = [ERROR])
  /\ (exists s',
        parse_message offline_env chat_message
          (MkState (parsing_world None) []) = (Raise HTTPException, s')
        /\ calls (world s') = [Close]
        /\ level <$> log_records (world s') = [ERROR]).
Proof.
  split.
  - destruct (missing_prefix_closes_client (sample_env false) chat_message
                (MkState (parsing_world None) []) eq_refl eq_refl)
      as [_ Hrun].
    eexists. split; [rewrite Hrun; vm_compute; reflexivity|].
    split; reflexivity.
  - destruct (missing_prefix_closes_client offline_env chat_message
                (MkState (parsing_world None) []) eq_refl eq_refl)
      as [_ Hrun].
    eexists. split; [rewrite Hrun; reflexivity|].
    split; reflexivity.
Defined.

(** [run_cmd_registers_then_runs] at [!ping]: context 1 is made for
    message 10 and registered before the command runs, and the
    default handler writes two records for the one call of [log]. *)
Lemma run_cmd_registers_witness :
  exists s1 records,
    run_cmd (sample_env false) command_message (py "ping") [] (py "!")
      (MkState finished_world [])
    = run_cmd_try (sample_env false) command_message (py "ping") ping 1 s1
    /\ active_contexts (world s1) !! 10%Z = Some 1
    /\ written_for sample_printer
         (MkLog INFO (MidContext 10)
            (ExecutingCommand (py "ping") (py "Base Module") command_message))
       = Some records
    /\ 2 <= length records.
Proof.
  destruct (run_cmd_registers_then_runs (sample_env false) sample_printer
              command_message (py "ping") [] (py "!") ping
              (MkState finished_world []) eq_refl)
    as (s1 & records & Hrun & _ & _ & Hactive & _ & _ & _ & Hwritten & _ & Htwo).
  exists s1, records. split; [exact Hrun|].
  split; [rewrite Hactive; reflexivity|].
  split; [exact Hwritten | exact Htwo].
Defined.

(** [edit_waits_while_registered] at the sample edit, with no step
    of the rest of the program observed. *)
Lemma edit_waits_witness :
  let st := MkState running_world [] in
  let '(out, st') :=
    on_message_edit (sample_env false) command_message edited_message st in
  out = Pending /\ calls (world st') = [Cancel 0].
Proof.
  intros st.
  rewrite (edit_waits_while_registered (sample_env false) command_message
             edited_message st (Ctx.flatten running_context)
             (LRU.setitem (LRU.empty 2) 10 (Ctx.flatten running_context)) 0).
  - split; reflexivity.
  - intros H. vm_compute in H. discriminate.
  - vm_compute. reflexivity.
  - reflexivity.
  - vm_compute. reflexivity.
  - vm_compute. discriminate.
  - intros k Hk. destruct k as [|k]; [vm_compute; reflexivity | simpl in Hk; lia].
Defined.

(** [active_cleaner_outcome] at two responses deleted side by side:
    the delete of the first never returns, the second is gone
    already, and the cleaner returns. *)
Lemma active_cleaner_outcome_witness :
  (active_command_response_cleaner racing_env 0 (MkState two_responses_world [])).1
  = Ret tt.
Proof.
  destruct (active_cleaner_outcome racing_env 0 (MkState two_responses_world []))
    as (new & answered & Hrun & _ & Hway).
  - right. eexists. reflexivity.
  - rewrite Hrun. cbn [fst].
    destruct Hway as [(ch & -> & ->)|(-> & _ & Hfirst & _)]; [reflexivity|].
    apply (Hfirst 1 NotFound).
    + right. left.
    + intros t' e' Hin.
      apply elem_of_cons in Hin as [Hin|Hin]; [discriminate|].
      apply list_elem_of_singleton in Hin. injection Hin as -> ->. left. auto.
Defined.

(** [in_guild_refuses_direct_messages] at a direct message: the
    command is refused with the message of the check. *)
Lemma in_guild_witness :
  exists st',
    Command_run perms_env guild_only 0 (MkState direct_world []) = (Ret tt, st')
    /\ calls (world st')
       = [EnsureFuture 1 (ExecWrapper guild_only 0);
          Send 6 (Embed (py "You need to be in a guild to use this command!"))].
Proof.
  set (st := MkState direct_world []).
  destruct (in_guild_refuses_direct_messages perms_env guild_only 0 4 [] (Plain 1)
              None st (reach_func guild_only 0 st).2
              direct_message (Msg.Mk 500 [] 6 None 0) 6)
    as (st' & Hrun & Hcalls & _).
  - reflexivity.
  - reflexivity.
  - vm_compute. reflexivity.
  - vm_compute. reflexivity.
  - vm_compute. reflexivity.
  - intros w p. reflexivity.
  - exists st'. split; [exact Hrun|]. rewrite Hcalls. vm_compute. reflexivity.
Defined.

(** [is_owner_refuses_others] at user 3, who is no owner. *)
Lemma is_owner_witness :
  exists st',
    Command_run perms_env owner_only 0 (MkState direct_world []) = (Ret tt, st')
    /\ calls (world st')
       = [EnsureFuture 1 (ExecWrapper owner_only 0);
          Send 6 (Embed (py "You need to be a bot owner to use this command!"))].
Proof.
  set (st := MkState direct_world []).
  destruct (is_owner_refuses_others perms_env owner_only 0 5 [9%Z] [] (Plain 1)
              None st (reach_func owner_only 0 st).2
              direct_message (Msg.Mk 500 [] 6 None 0) 6 3)
    as (st' & Hrun & Hcalls & _).
  - reflexivity.
  - reflexivity.
  - vm_compute. reflexivity.
  - vm_compute. reflexivity.
  - vm_compute. reflexivity.
  - vm_compute. reflexivity.
  - intros w p. reflexivity.
  - exists st'. split; [exact Hrun|]. rewrite Hcalls. vm_compute. reflexivity.
Defined.

(** [declared_flags_are_passed] at ["x -a y"]: the flag [a] takes
    [y], the flag [c] is absent, and [x] remains. *)
Lemma declared_flags_witness :
  exists flags s',
    parse_flags opts 0 (MkState opts_world []) = (Ret (Some flags), s')
    /\ flags !! py "a" = Some (FlagStr (py "y"))
    /\ flags !! py "c" = Some (FlagBool false)
    /\ Ctx.args (ctx_at (world s') 0) = Some (py "x").
Proof.
  destruct (declared_flags_are_passed (sample_env false) opts 0
              (MkState opts_world []) (py "x -a y"))
    as (s' & Hrun & _ & Hargs & _).
  - discriminate.
  - reflexivity.
  - eexists _, s'. split; [exact Hrun|].
    split; [vm_compute; reflexivity|]. split; [vm_compute; reflexivity|].
    rewrite Hargs. vm_compute. reflexivity.
Defined.

(** [safe_cancellation_is_answered] at [UserCancelled()]: the default
    message of the class is sent. *)
Lemma safe_cancellation_witness :
  exists st',
    Command_run cancelling_env opts 0 (MkState opts_world []) = (Ret tt, st')
    /\ calls (world st')
       = [EnsureFuture 1 (ExecWrapper opts 0);
          Send 5 (Embed (py "User cancelled the session!"))].
Proof.
  set (st := MkState opts_world []).
  destruct (safe_cancellation_is_answered cancelling_env opts 0 st
              (await_task cancelling_env opts 0 st).2 (py "UserCancelled")
              (Some (py "User cancelled the session!")) None None
              opts_message (Msg.Mk 500 [] 5 None 0) 5)
    as (st' & Hrun & _ & Hcalls & _).
  - vm_compute. reflexivity.
  - vm_compute. reflexivity.
  - vm_compute. reflexivity.
  - intros w p. reflexivity.
  - exists st'. split; [exact Hrun|]. rewrite Hcalls. vm_compute. reflexivity.
Defined.

End MoreSampleProps.
